(** * Doc2Code generation pipeline: a shallow embedding of the engine

  The engine (Backend/src/engine) is TypeScript.  Numbers are modelled as
  exact rationals [Q] (IEEE rounding error is not modelled) everywhere but
  in [Confidence64], which carries the confidence formula over IEEE
  binary64 values, strings as
  [string] read as a sequence of ASCII characters, exceptions as an
  explicit [outcome], and every interaction with the outside world (model
  calls, HTTP, the document store, the clock) as an explicit argument or
  as explicit state.  Prompts are not modelled: a model call is
  represented by its outcome.  Logging is left out. *)

From Stdlib Require Import ZArith QArith Qround Lia Lqa List String Ascii Bool DecimalString.
From Stdlib Require Floats.
Import ListNotations.
Set Warnings "-register-all".
Open Scope string_scope.
Open Scope Q_scope.

(** ** JavaScript runtime pieces the engine relies on *)

Module JS.

(** A call either returns or throws an [Error] carrying a message. *)
Inductive outcome (A : Type) : Type :=
| Ok (value : A)
| Throw (message : string).
Arguments Ok {A} value.
Arguments Throw {A} message.

(** [Math.round]: nearest integer, halves towards +infinity. *)
Definition Math_round (x : Q) : Z := Qfloor (x + (1 # 2)).

Definition Math_max (x y : Q) : Q := if Qle_bool x y then y else x.
Definition Math_min (x y : Q) : Q := if Qle_bool x y then x else y.

(** [a >= b] on numbers. *)
Definition geq (a b : Q) : bool := Qle_bool b a.

(** Values produced by [JSON.parse]. *)
Inductive json : Type :=
| JNull
| JBool (b : bool)
| JNum (q : Q)
| JStr (s : string)
| JArr (items : list json)
| JObj (fields : list (string * json)).

(** A JavaScript value read out of parsed JSON: [None] is [undefined]. *)
Definition value : Type := option json.

Fixpoint lookup (key : string) (fields : list (string * json)) : value :=
  match fields with
  | [] => None
  | (k, v) :: rest => if String.eqb k key then Some v else lookup key rest
  end.

(** Property read [v.key] for the property names the engine reads
    (none of them is [length] or an index).  Reading a property of
    [null] or [undefined] throws a TypeError; reading one of a number,
    boolean, string or array yields [undefined]. *)
Definition get (v : value) (key : string) : outcome value :=
  match v with
  | None => Throw ("Cannot read properties of undefined (reading '" ++ key ++ "')")
  | Some JNull => Throw ("Cannot read properties of null (reading '" ++ key ++ "')")
  | Some (JObj fields) => Ok (lookup key fields)
  | Some _ => Ok None
  end.

(** Optional chaining [v?.key]. *)
Definition get_opt (v : value) (key : string) : value :=
  match v with
  | Some (JObj fields) => lookup key fields
  | _ => None
  end.

(** ToBoolean. *)
Definition truthy (v : value) : bool :=
  match v with
  | None | Some JNull => false
  | Some (JBool b) => b
  | Some (JNum q) => negb (Qeq_bool q 0)
  | Some (JStr s) => negb (String.eqb s "")
  | Some (JArr _) | Some (JObj _) => true
  end.

(** [a || b]. *)
Definition or_else (a b : value) : value := if truthy a then a else b.

(** [typeof v === "number"], returning the number. *)
Definition as_number (v : value) : option Q :=
  match v with Some (JNum q) => Some q | _ => None end.

(** [Array.isArray(v)], returning the elements. *)
Definition as_array (v : value) : option (list json) :=
  match v with Some (JArr items) => Some items | _ => None end.

(** Array read [xs[i]] with a numeric index: [undefined] unless [i] is a
    non-negative integer below the length. *)
Definition index {A : Type} (xs : list A) (i : Q) : option A :=
  let n := Qfloor i in
  if Qeq_bool (inject_Z n) i && (0 <=? n)%Z then nth_error xs (Z.to_nat n) else None.

(** The outcome of one [chatCompletion] call that returns plain text. *)
Inductive completion : Type :=
| Rejected (message : string)
| Fulfilled (content : string).

(** The outcome of one [chatCompletion] call in JSON mode, as seen
    through [JSON.parse]: the call threw, or it returned text that
    [JSON.parse] rejects, or text that parses to a value. *)
Inductive reply : Type :=
| CallFailed (message : string)
| Unparseable (syntaxError : string)
| Parsed (v : json).

(** The regular-expression engine is part of the runtime, not of the
    repository: patterns are kept as their source text and the engine is
    an interface. *)
Class RegExp : Type := {
  test : string -> string -> string -> bool;
    (* /pattern/flags.test(subject) *)
  replace : string -> string -> string -> string -> string;
    (* subject.replace(/pattern/flags, replacement) *)
  capture1 : string -> string -> string -> option string
    (* subject.match(/pattern/flags), first capture group *)
}.

End JS.
Export JS.

(** ** Text helpers ([trim], [toLowerCase], [join]) *)

Module Text.

Definition chars (s : string) : list ascii := list_ascii_of_string s.
Definition text (l : list ascii) : string := string_of_list_ascii l.

Definition code (c : ascii) : nat := nat_of_ascii c.

(** White space and line terminators among ASCII characters. *)
Definition is_space (c : ascii) : bool :=
  let n := code c in
  ((9 <=? n) && (n <=? 13) || (n =? 32))%nat.

Fixpoint drop_space (l : list ascii) : list ascii :=
  match l with
  | c :: rest => if is_space c then drop_space rest else l
  | [] => []
  end.

Definition trim_chars (l : list ascii) : list ascii :=
  rev (drop_space (rev (drop_space l))).

Definition trim (s : string) : string := text (trim_chars (chars s)).

Definition lower (c : ascii) : ascii :=
  let n := code c in
  if ((65 <=? n) && (n <=? 90))%nat then ascii_of_nat (n + 32) else c.

Definition toLowerCase (s : string) : string := text (map lower (chars s)).

Definition join (sep : string) (parts : list string) : string :=
  match parts with
  | [] => ""
  | p :: rest => fold_left (fun acc x => acc ++ sep ++ x) rest p
  end.

End Text.

(** ** Engine configuration (engine/config.ts) *)

Module Config.

Record Models := {
  enhancement : string; primaryCode : string; alternativeCode : string;
  judge : string; runtimeFix : string; securityAudit : string;
  codeChat : string; embedding : string
}.

Record Weights := {
  w_judge : Q; w_runtime : Q; w_static : Q; w_docSimilarity : Q
}.

Record Retry := { maxAttempts : nat; baseDelayMs : Z; maxDelayMs : Z }.

Record EngineConfig := {
  models : Models;
  confidenceWeights : Weights;
  retry : Retry;
  maxFixAttempts : nat
}.

Definition ENGINE_CONFIG : EngineConfig := {|
  models := {|
    enhancement := "gpt-4o-mini";
    primaryCode := "gpt-4.1-mini";
    alternativeCode := "gpt-4o-mini";
    judge := "gpt-4o-mini";
    runtimeFix := "gpt-4.1-mini";
    securityAudit := "o4-mini";
    codeChat := "gpt-4o-mini";
    embedding := "text-embedding-3-large" |};
  confidenceWeights := {|
    w_judge := 4 # 10; w_runtime := 3 # 10;
    w_static := 2 # 10; w_docSimilarity := 1 # 10 |};
  retry := {| maxAttempts := 3; baseDelayMs := 1000; maxDelayMs := 10000 |};
  maxFixAttempts := 2
|}.

End Config.
Import Config.

(** ** Confidence scoring service (engine/services/confidenceService.ts) *)

Module Confidence.

Inductive VerificationStatus := verified | partial | unverified.

Record Breakdown := {
  judgeScore : Q; runtimeScore : Q; staticScore : Q; docSimilarity : Z
}.

Record ConfidenceResult := {
  confidenceScore : Z;
  verificationStatus : VerificationStatus;
  breakdown : Breakdown
}.

(** The formula in exact arithmetic, as the model of the orchestrator uses
    it; [Confidence64.calculateConfidence] is the same function over
    binary64 values. *)
Definition calculateConfidence
    (judgeScore runtimeScore staticScore docSimilarity : Q) : ConfidenceResult :=
  let w := confidenceWeights ENGINE_CONFIG in
  let normalizedDocSim := Math_round (docSimilarity * 100) in
  let confidenceScore :=
    Math_round (judgeScore * w_judge w
                + runtimeScore * w_runtime w
                + staticScore * w_static w
                + inject_Z normalizedDocSim * w_docSimilarity w) in
  let verificationStatus :=
    if geq (inject_Z confidenceScore) 75 && geq runtimeScore 70 && geq staticScore 60
    then verified
    else if geq (inject_Z confidenceScore) 50 then partial
    else unverified in
  {| confidenceScore := confidenceScore;
     verificationStatus := verificationStatus;
     breakdown := {| judgeScore := judgeScore;
                     runtimeScore := runtimeScore;
                     staticScore := staticScore;
                     docSimilarity := normalizedDocSim |} |}.

End Confidence.

(** ** Validation service (engine/services/validationService.ts) *)

Module Validation.
Import Text.

Record ValidationResult := {
  staticScore : Q;            (* documented as 0-100 *)
  runtimeScore : Q;           (* documented as 0-100 *)
  staticIssues : list string;
  runtimeError : json;        (* string | null *)
  passed : bool
}.

Record Check := { pattern : string; flags : string; message : string; penalty : Q }.

Record StaticResult := { score : Q; issues : list string }.

Definition count_chars (p : ascii -> bool) (s : string) : nat :=
  List.length (filter p (chars s)).

Definition is_open (c : ascii) : bool :=
  (Ascii.eqb c "(" || Ascii.eqb c "[" || Ascii.eqb c "{")%char.
Definition is_close (c : ascii) : bool :=
  (Ascii.eqb c ")" || Ascii.eqb c "]" || Ascii.eqb c "}")%char.

Definition decimal (n : nat) : string :=
  DecimalString.NilZero.string_of_uint (Nat.to_uint n).

Definition common_checks : list Check := [
  {| pattern := "eval\s*\("; flags := "";
     message := "Uses eval() — potential security risk"; penalty := 15 |};
  {| pattern := "TODO|FIXME|HACK"; flags := "i";
     message := "Contains TODO/FIXME markers"; penalty := 5 |};
  {| pattern := "console\.(log|warn|error)"; flags := "";
     message := "Contains console statements"; penalty := 3 |};
  {| pattern := "password|secret|api_key|apikey"; flags := "i";
     message := "Possible hardcoded credentials"; penalty := 20 |};
  {| pattern := "any\b"; flags := "";
     message := "Uses 'any' type (TypeScript)"; penalty := 5 |};
  {| pattern := "\/\/\s*@ts-ignore"; flags := "";
     message := "Uses @ts-ignore"; penalty := 10 |} ].

Definition script_checks : list Check := [
  {| pattern := "var\s+"; flags := "";
     message := "Uses 'var' instead of const/let"; penalty := 5 |};
  {| pattern := "==(?!=)"; flags := "";
     message := "Uses loose equality (==) instead of strict (===)"; penalty := 5 |} ].

Definition python_checks : list Check := [
  {| pattern := "except:(?!\s*\w)"; flags := "";
     message := "Bare except clause in Python"; penalty := 10 |};
  {| pattern := "import \*"; flags := "";
     message := "Wildcard import"; penalty := 5 |} ].

Definition checks_for (language : string) : list Check :=
  let l := toLowerCase language in
  common_checks
  ++ (if String.eqb l "javascript" || String.eqb l "typescript" then script_checks else [])
  ++ (if String.eqb l "python" then python_checks else []).

(** One turn of [for (const check of checks)]. *)
Definition apply_check `{RegExp} (code : string) (acc : StaticResult) (check : Check)
  : StaticResult :=
  if test (pattern check) (flags check) code
  then {| score := score acc - penalty check; issues := issues acc ++ [message check] |}
  else acc.

Definition staticAnalysis `{RegExp} (code language : string) : StaticResult :=
  if String.eqb code "" || (String.length (trim code) <? 10)%nat
  then {| score := 0; issues := ["Code is empty or too short"] |}
  else
    let checked :=
      fold_left (apply_check code) (checks_for language) {| score := 100; issues := [] |} in
    let opens := count_chars is_open code in
    let closes := count_chars is_close code in
    let balanced :=
      if (opens =? closes)%nat then checked
      else {| score := score checked - 15;
              issues := issues checked
                        ++ ["Bracket imbalance: " ++ decimal opens ++ " opens vs "
                            ++ decimal closes ++ " closes"] |} in
    {| score := Math_max 0 (Math_min 100 (score balanced)); issues := issues balanced |}.

Record RuntimeResult := { r_score : Q; r_error : json }.

(** [v || null]. *)
Definition or_null (v : value) : json :=
  match v with
  | Some j => if truthy v then j else JNull
  | None => JNull
  end.

(** The body of the [try] in [runtimeValidation], after [JSON.parse]. *)
Definition runtime_of_parsed (parsed : json) : outcome RuntimeResult :=
  match get (Some parsed) "score" with
  | Throw e => Throw e
  | Ok s =>
      let score :=
        match as_number s with
        | Some q => q
        | None => if truthy (get_opt (Some parsed) "wouldPass") then 85 else 40
        end in
      Ok {| r_score := score; r_error := or_null (get_opt (Some parsed) "error") |}
  end.

(** [runtimeValidation]: the model call and the parsing both sit inside
    the [try]; its [catch] returns the neutral result. *)
Definition runtimeValidation (r : reply) : RuntimeResult :=
  let neutral := {| r_score := 50; r_error := JNull |} in
  match r with
  | CallFailed _ => neutral
  | Unparseable _ => neutral
  | Parsed parsed =>
      match runtime_of_parsed parsed with
      | Ok res => res
      | Throw _ => neutral
      end
  end.

Definition validateCode `{RegExp} (code language : string) (r : reply) : ValidationResult :=
  let staticResult := staticAnalysis code language in
  let runtimeResult := runtimeValidation r in
  {| staticScore := score staticResult;
     runtimeScore := r_score runtimeResult;
     staticIssues := issues staticResult;
     runtimeError := r_error runtimeResult;
     passed := geq (score staticResult) 50 && geq (r_score runtimeResult) 50 |}.

(** Both [fixCode] and [generateCode] strip markdown fences this way. *)
Definition stripCodeFences `{RegExp} (code : string) : string :=
  trim (replace "\n?```$" "m" (replace "^```[\w]*\n?" "m" code "") "").

(** [fixCode] has no [try]: a failed model call propagates. *)
Definition fixCode `{RegExp} (c : completion) : outcome string :=
  match c with
  | Rejected e => Throw e
  | Fulfilled raw => Ok (stripCodeFences raw)
  end.

End Validation.

(** ** Code generation service (engine/services/codeGenerationService.ts) *)

Module Generation.

Inductive Role := primary | alternative.

Record CodeCandidate := {
  code : string; model : string; role : Role; generatedAt : Z
}.

Record GenerationResult := { candidates : list CodeCandidate; errors : list string }.

(** [Promise.allSettled] hands over both outcomes; each is inspected on
    its own.  [now] is the reading of [new Date()]. *)
Definition generateCode `{RegExp} (primaryResult altResult : completion) (now : Z)
  : outcome GenerationResult :=
  let m := models ENGINE_CONFIG in
  let '(candidates, errors) :=
    match primaryResult with
    | Fulfilled v =>
        ([ {| code := Validation.stripCodeFences v; model := primaryCode m;
              role := primary; generatedAt := now |} ], [])
    | Rejected reason => ([], [ "Primary (" ++ primaryCode m ++ "): " ++ reason ])
    end in
  let '(candidates, errors) :=
    match altResult with
    | Fulfilled v =>
        (List.app candidates [ {| code := Validation.stripCodeFences v; model := alternativeCode m;
                                  role := alternative; generatedAt := now |} ], errors)
    | Rejected reason =>
        (candidates, List.app errors [ "Alternative (" ++ alternativeCode m ++ "): " ++ reason ])
    end in
  if (List.length candidates =? 0)%nat
  then Throw ("Both code generation models failed: " ++ Text.join "; " errors)
  else Ok {| candidates := candidates; errors := errors |}.

End Generation.

(** ** Judge service (engine/services/judgeService.ts) *)

Module Judge.

(** The [total] of a score entry after post-processing. *)
Inductive Total :=
| Given (v : json)               (* [s.total], when truthy *)
| Rounded (n : Z)                (* [Math.round] of the mean of the four sub-scores *)
| NotANumber                     (* the sum is NaN: an operand is [undefined] *)
| Concatenated (c s p d : value).
    (* an operand is a string, array or object, so [+] concatenates;
       the resulting number is not modelled *)

(** One entry of [scores]: the object the entry was spread from, and the
    [total] that overrides its own. *)
Record CandidateScore := { spread : json; total : Total }.

Record JudgeResult := {
  selectedIndex : Q;
  scores : list CandidateScore;
  reasoning : value
}.

Definition flat (n : Q) : CandidateScore :=
  {| spread := JObj [("correctness", JNum n); ("security", JNum n);
                     ("simplicity", JNum n); ("docAdherence", JNum n);
                     ("total", JNum n)];
     total := Given (JNum n) |}.

(** ToNumber on the operands that [+] treats numerically: [None] is NaN. *)
Definition to_number (v : value) : option (option Q) :=
  match v with
  | None => Some None
  | Some JNull => Some (Some 0)
  | Some (JBool b) => Some (Some (if b then 1 else 0))
  | Some (JNum q) => Some (Some q)
  | Some (JStr _) | Some (JArr _) | Some (JObj _) => None
  end.

(** [Math.round((c + s + p + d) / 4)], the mean taken exactly: for whole
    sub-scores this is the engine's value, for fractional ones the
    engine's sum rounds to binary64 first. *)
Definition mean_total (c s p d : value) : Total :=
  match to_number c, to_number s, to_number p, to_number d with
  | Some nc, Some ns, Some np, Some nd =>
      match nc, ns, np, nd with
      | Some qc, Some qs, Some qp, Some qd => Rounded (Math_round ((qc + qs + qp + qd) / 4))
      | _, _, _, _ => NotANumber
      end
  | _, _, _, _ => Concatenated c s p d
  end.

(** The callback of [parsed.scores.map]: reading [s.total] of a [null]
    entry throws. *)
Definition with_total (s : json) : outcome CandidateScore :=
  match get (Some s) "total" with
  | Throw e => Throw e
  | Ok t =>
      if truthy t
      then Ok {| spread := s; total := Given (Validation.or_null t) |}
      else Ok {| spread := s;
                 total := mean_total (get_opt (Some s) "correctness")
                                     (get_opt (Some s) "security")
                                     (get_opt (Some s) "simplicity")
                                     (get_opt (Some s) "docAdherence") |}
  end.

Fixpoint map_outcome {A B : Type} (f : A -> outcome B) (l : list A) : outcome (list B) :=
  match l with
  | [] => Ok []
  | x :: rest =>
      match f x with
      | Throw e => Throw e
      | Ok y =>
          match map_outcome f rest with
          | Throw e => Throw e
          | Ok ys => Ok (y :: ys)
          end
      end
  end.

(** The body of the [try] in [judgeCode], after [JSON.parse]. *)
Definition judge_parsed (n : nat) (parsed : json) : outcome JudgeResult :=
  match get (Some parsed) "selectedIndex" with
  | Throw e => Throw e
  | Ok sel =>
      match as_number sel, as_array (get_opt (Some parsed) "scores") with
      | Some i, Some items =>
          let bounded := Math_max 0 (Math_min i (inject_Z (Z.of_nat n) - 1)) in
          match map_outcome with_total items with
          | Throw e => Throw e
          | Ok scored =>
              Ok {| selectedIndex := bounded; scores := scored;
                    reasoning := get_opt (Some parsed) "reasoning" |}
          end
      | _, _ => Throw "Invalid judge response structure"
      end
  end.

Definition fallback (n : nat) : JudgeResult :=
  {| selectedIndex := 0;
     scores := repeat (flat 70) n;
     reasoning :=
       Some (JStr "Judge response could not be parsed. Defaulting to primary candidate.") |}.

(** [judgeCode]: the model call is awaited before the [try] opens, so a
    rejected call leaves the function as an exception; only parsing and
    post-processing are covered by the [catch]. *)
Definition judgeCode (candidates : list Generation.CodeCandidate) (r : reply)
  : outcome JudgeResult :=
  let n := List.length candidates in
  if (n =? 1)%nat
  then Ok {| selectedIndex := 0;
             scores := [flat 75];
             reasoning :=
               Some (JStr "Only one candidate was generated. Scored based on general quality assessment.") |}
  else
    match r with
    | CallFailed e => Throw e
    | Unparseable _ => Ok (fallback n)
    | Parsed parsed =>
        match judge_parsed n parsed with
        | Ok res => Ok res
        | Throw _ => Ok (fallback n)
        end
    end.

End Judge.

(** ** Azure OpenAI client wrapper (engine/azureClient.ts) *)

Module Gateway.
Import Text.

(** What the catch blocks read from a thrown error. *)
Record ApiError := { status : option Z; code : option string; message : string }.

(** One attempt against the completion endpoint: the SDK call throws, or
    it answers with (possibly absent) message content. *)
Inductive ChatAttempt :=
| ChatFailed (e : ApiError)
| ChatAnswered (content : option string).

(** One attempt against the embedding endpoint: [data] is [response.data]
    reduced to the embeddings it carries. *)
Inductive EmbeddingAttempt :=
| EmbeddingFailed (e : ApiError)
| EmbeddingAnswered (data : list (list Q)).

(** What a gateway call does, in order. *)
Inductive Effect :=
| Request (attempt : nat)
| Sleep (ms : Z).

Definition has_status (e : ApiError) (n : Z) : bool :=
  match status e with Some s => (s =? n)%Z | None => false end.

Definition has_code (e : ApiError) (c : string) : bool :=
  match code e with Some s => String.eqb s c | None => false end.

Definition isRetryable (e : ApiError) : bool :=
  has_status e 429 || has_status e 500 || has_status e 503
  || has_code e "ECONNRESET" || has_code e "ETIMEDOUT".

(** [Math.min(baseDelayMs * Math.pow(2, attempt - 1), maxDelayMs)]. *)
Definition backoff (cfg : Retry) (attempt : nat) : Z :=
  Z.min (baseDelayMs cfg * 2 ^ (Z.of_nat attempt - 1)) (maxDelayMs cfg).

(** The [try] block of [chatCompletion]: the error it ends with, if any. *)
Definition chat_try (a : ChatAttempt) : ApiError + string :=
  let empty := {| status := None; code := None;
                  message := "Empty response from Azure OpenAI" |} in
  match a with
  | ChatFailed e => inl e
  | ChatAnswered None => inl empty
  | ChatAnswered (Some c) =>
      let content := trim c in
      if String.eqb content "" then inl empty else inr content
  end.

(** [for (let attempt = 1; attempt <= maxAttempts; attempt++)], with
    [left] turns still to run. *)
Fixpoint chat_loop (cfg : Retry) (model : string) (api : nat -> ChatAttempt)
    (left attempt : nat) : list Effect * outcome string :=
  match left with
  | O => ([], Throw ("Azure API failed after "
                      ++ Validation.decimal (maxAttempts cfg) ++ " attempts"))
  | S left' =>
      match chat_try (api attempt) with
      | inr content => ([Request attempt], Ok content)
      | inl error =>
          if (attempt =? maxAttempts cfg)%nat || negb (isRetryable error)
          then ([Request attempt],
                Throw ("Azure API error (" ++ model ++ "): " ++ message error))
          else
            let '(effects, result) := chat_loop cfg model api left' (S attempt) in
            (Request attempt :: Sleep (backoff cfg attempt) :: effects, result)
      end
  end.

Definition chatCompletionWith (cfg : Retry) (model : string) (api : nat -> ChatAttempt)
  : list Effect * outcome string :=
  chat_loop cfg model api (maxAttempts cfg) 1.

Definition chatCompletion : string -> (nat -> ChatAttempt) -> list Effect * outcome string :=
  chatCompletionWith (retry ENGINE_CONFIG).

(** The [try] block of [createEmbedding]: [response.data[0].embedding]. *)
Definition embedding_try (a : EmbeddingAttempt) : ApiError + list Q :=
  match a with
  | EmbeddingFailed e => inl e
  | EmbeddingAnswered [] =>
      inl {| status := None; code := None;
             message := "Cannot read properties of undefined (reading 'embedding')" |}
  | EmbeddingAnswered (v :: _) => inr v
  end.

Fixpoint embedding_loop (cfg : Retry) (api : nat -> EmbeddingAttempt)
    (left attempt : nat) : list Effect * outcome (list Q) :=
  match left with
  | O => ([], Throw "Embedding failed after retries")
  | S left' =>
      match embedding_try (api attempt) with
      | inr v => ([Request attempt], Ok v)
      | inl error =>
          if (attempt =? maxAttempts cfg)%nat
          then ([Request attempt], Throw ("Embedding API error: " ++ message error))
          else
            let '(effects, result) := embedding_loop cfg api left' (S attempt) in
            (Request attempt :: Sleep (backoff cfg attempt) :: effects, result)
      end
  end.

Definition createEmbeddingWith (cfg : Retry) (api : nat -> EmbeddingAttempt)
  : list Effect * outcome (list Q) :=
  embedding_loop cfg api (maxAttempts cfg) 1.

Definition createEmbedding : (nat -> EmbeddingAttempt) -> list Effect * outcome (list Q) :=
  createEmbeddingWith (retry ENGINE_CONFIG).

(** [Math.sqrt] is taken from the platform. *)
Class Sqrt : Type := Math_sqrt : Q -> Q.

Fixpoint sums (a b : list Q) (dot magA magB : Q) : Q * Q * Q :=
  match a, b with
  | x :: a', y :: b' => sums a' b' (dot + x * y) (magA + x * x) (magB + y * y)
  | _, _ => (dot, magA, magB)
  end.

Definition cosineSimilarity `{Sqrt} (a b : list Q) : Q :=
  if negb (List.length a =? List.length b)%nat then 0
  else
    let '(dot, magA, magB) := sums a b 0 0 0 in
    let denom := Math_sqrt magA * Math_sqrt magB in
    if Qeq_bool denom 0 then 0 else dot / denom.

End Gateway.

(** ** DocChunk model (models/DocChunk.ts) *)

Module DocChunk.

Record IDocChunk := {
  docId : string;
  url : string;
  urlHash : string;
  version : string;
  chunkIndex : nat;
  text : string;
  embedding : list Q;
  tokenCount : nat
}.

(** The collection, in insertion order. *)
Definition Collection : Type := list IDocChunk.

Record Query := {
  by_docId : option string; by_urlHash : option string; by_version : option string
}.

Definition agrees (wanted : option string) (actual : string) : bool :=
  match wanted with Some w => String.eqb w actual | None => true end.

Definition matches (q : Query) (c : IDocChunk) : bool :=
  agrees (by_docId q) (docId c) && agrees (by_urlHash q) (urlHash c)
  && agrees (by_version q) (version c).

Fixpoint insert_by_index (c : IDocChunk) (sorted : list IDocChunk) : list IDocChunk :=
  match sorted with
  | [] => [c]
  | d :: rest =>
      if (chunkIndex c <=? chunkIndex d)%nat then c :: sorted
      else d :: insert_by_index c rest
  end.

(** [.sort({ chunkIndex: 1 })]. *)
Definition sort_by_index (l : list IDocChunk) : list IDocChunk :=
  fold_right insert_by_index [] l.

Definition find (q : Query) (db : Collection) : list IDocChunk := filter (matches q) db.

Definition countDocuments (q : Query) (db : Collection) : nat :=
  List.length (find q db).

Definition findOne (q : Query) (db : Collection) : option IDocChunk :=
  List.find (matches q) db.

Definition deleteMany (q : Query) (db : Collection) : Collection :=
  filter (fun c => negb (matches q c)) db.

Definition hash_query (h : string) : Query :=
  {| by_docId := None; by_urlHash := Some h; by_version := None |}.

End DocChunk.

(** ** Paragraph and sentence splitting *)

Module Split.
Import Text.

Definition is_nl (c : ascii) : bool := (code c =? 10)%nat.

(** [text.split(/\n\n+/)]: cut at every maximal run of two or more line
    feeds.  [skipping] says that such a run is being consumed; [piece]
    is the current piece, reversed. *)
Fixpoint paragraphs_from (skipping : bool) (piece l : list ascii) : list (list ascii) :=
  match l with
  | [] => [rev piece]
  | c :: rest =>
      if negb (is_nl c) then paragraphs_from false (c :: piece) rest
      else if skipping then paragraphs_from true piece rest
      else
        match rest with
        | c2 :: rest2 =>
            if is_nl c2 then rev piece :: paragraphs_from true [] rest2
            else paragraphs_from false (c :: piece) rest
        | [] => paragraphs_from false (c :: piece) rest
        end
  end.

Definition paragraphs (s : string) : list string :=
  map text (paragraphs_from false [] (chars s)).

Definition ends_sentence (c : ascii) : bool :=
  (Ascii.eqb c "." || Ascii.eqb c "!" || Ascii.eqb c "?")%char.

(** [para.split(/(?<=[.!?])\s+/)]: cut at every run of white space that
    directly follows a full stop, exclamation mark or question mark. *)
Fixpoint sentences_from (after_mark skipping : bool) (piece l : list ascii)
  : list (list ascii) :=
  match l with
  | [] => [rev piece]
  | c :: rest =>
      if is_space c then
        if skipping then sentences_from false true piece rest
        else if after_mark then rev piece :: sentences_from false true [] rest
        else sentences_from false false (c :: piece) rest
      else sentences_from (ends_sentence c) false (c :: piece) rest
  end.

Definition sentences (s : string) : list string :=
  map text (sentences_from false false [] (chars s)).

Definition nl : string := String (ascii_of_nat 10) "".
Definition blank_line : string := nl ++ nl.

End Split.

(** ** Embedding service (engine/services/embeddingService.ts) *)

Module Retrieval.
Import Text Split DocChunk.

Record Options := {
  docUrl : option string;
  docId : option string;
  version : option string;
  maxChunks : nat;
  similarityThreshold : Q
}.

Definition default_options : Options :=
  {| docUrl := None; docId := None; version := None;
     maxChunks := 5; similarityThreshold := 4 # 10 |}.

Record Retrieved := { context : string; similarity : Q }.

Record Scored := { s_text : string; s_score : Q }.

(** Truthiness of an optional string argument. *)
Definition given (o : option string) : bool :=
  match o with Some s => negb (String.eqb s "") | None => false end.

Definition keep_given (o : option string) : option string :=
  if given o then o else None.

Fixpoint insert_by_score (c : Scored) (sorted : list Scored) : list Scored :=
  match sorted with
  | [] => [c]
  | d :: rest =>
      if Qle_bool (s_score d) (s_score c) then c :: sorted
      else d :: insert_by_score c rest
  end.

(** [.sort((a, b) => b.score - a.score)]: descending, stable. *)
Definition sort_by_score (l : list Scored) : list Scored :=
  fold_right insert_by_score [] l.

Definition total_score (l : list Scored) : Q :=
  fold_left (fun sum c => sum + s_score c) l 0.

(** The mean as an exact rational; the engine's sum and division round
    to binary64, so its value can differ in the last place. *)
Definition mean_score (l : list Scored) : Q :=
  total_score l / inject_Z (Z.of_nat (List.length l)).

Definition separator : string := blank_line ++ "---" ++ blank_line.

Definition clears (threshold : Q) (c : Scored) : bool := geq (s_score c) threshold.

Definition has_embedding (c : IDocChunk) : bool :=
  negb (List.length (embedding c) =? 0)%nat.

(** One turn of the loop of [splitIntoChunks]; the state is the list of
    chunks pushed so far and [current]. *)
Definition add_paragraph (maxLen : nat) (st : list string * string) (para : string)
  : list string * string :=
  let '(chunks, current) := st in
  if (maxLen <? String.length current + String.length para)%nat
     && (0 <? String.length current)%nat
  then (List.app chunks [trim current], para)
  else (chunks, current ++ (if String.eqb current "" then "" else blank_line) ++ para).

Definition splitIntoChunks (content : string) (maxLen : nat) : list string :=
  let '(chunks, current) := fold_left (add_paragraph maxLen) (paragraphs content) ([], "") in
  if String.eqb (trim current) "" then chunks else List.app chunks [trim current].

Definition url_hash (sha256_hex : string -> string) (url : string) : string :=
  sha256_hex (trim (toLowerCase url)).

(** The query of strategy 1. *)
Definition cache_query (sha256_hex : string -> string) (o : Options) : Query :=
  {| by_docId := keep_given (docId o);
     by_urlHash :=
       if given (docId o) then None
       else match docUrl o with
            | Some u => if given (docUrl o) then Some (url_hash sha256_hex u) else None
            | None => None
            end;
     by_version := keep_given (version o) |}.

Section Retrieve.

Context `{Gateway.Sqrt}.
Variable sha256_hex : string -> string.
(** The gateway's [createEmbedding]: the outcome it has for the task
    description, and the outcome it has for each chunk of text. *)
Variable taskEmbedding : outcome (list Q).
Variable createEmbedding : string -> outcome (list Q).
Variable db : Collection.

(** Strategy 1, once cached chunks were found. *)
Definition from_cache (o : Options) (cachedChunks : list IDocChunk) : outcome Retrieved :=
  match taskEmbedding with
  | Throw e => Throw e
  | Ok taskEmbedding =>
      let scored :=
        firstn (maxChunks o)
          (sort_by_score
             (filter (clears (similarityThreshold o))
                (map (fun chunk =>
                        {| s_text := text chunk;
                           s_score := Gateway.cosineSimilarity taskEmbedding (embedding chunk) |})
                     (filter has_embedding cachedChunks)))) in
      if (0 <? List.length scored)%nat
      then Ok {| context := join separator (map s_text scored);
                 similarity := mean_score scored |}
      else
        (* All chunks below threshold — use top ones anyway *)
        let fallbackChunks := firstn (maxChunks o) cachedChunks in
        Ok {| context := join separator (map text fallbackChunks);
              similarity := 1 # 2 |}
  end.

Definition score_chunk (taskEmbedding : list Q) (chunk : string) : Scored :=
  match createEmbedding chunk with
  | Ok chunkEmbedding =>
      {| s_text := chunk; s_score := Gateway.cosineSimilarity taskEmbedding chunkEmbedding |}
  | Throw _ => {| s_text := chunk; s_score := 0 |}
  end.

(** Strategy 2: chunk and embed the supplied text in memory. *)
Definition in_memory (docContent : string) (o : Options) : outcome Retrieved :=
  if String.eqb docContent "" || (String.length (trim docContent) <? 50)%nat
  then
    Ok {| context :=
            "Documentation URL: "
            ++ (match keep_given (docUrl o) with Some u => u | None => "N/A" end) ++ nl
            ++ "Please implement based on standard "
            ++ (if given (docUrl o) then "the provided" else "")
            ++ " documentation and best practices.";
          similarity := 3 # 10 |}
  else
    let chunks := splitIntoChunks docContent 500 in
    if (List.length chunks <=? 2)%nat
    then Ok {| context := docContent; similarity := 1 |}
    else
      match taskEmbedding with
      | Throw e => Throw e
      | Ok taskEmbedding =>
          let scoredChunks := sort_by_score (map (score_chunk taskEmbedding) chunks) in
          let topChunks :=
            firstn (maxChunks o) (filter (clears (similarityThreshold o)) scoredChunks) in
          (* If nothing passes threshold, take top chunks anyway *)
          let selected :=
            if (0 <? List.length topChunks)%nat then topChunks
            else firstn (maxChunks o) scoredChunks in
          Ok {| context := join separator (map s_text selected);
                similarity := mean_score selected |}
      end.

(** The body of the [try]. *)
Definition retrieve_try (docContent : string) (o : Options) : outcome Retrieved :=
  let cachedChunks :=
    if given (docUrl o) || given (docId o)
    then sort_by_index (find (cache_query sha256_hex o) db)
    else [] in
  if (0 <? List.length cachedChunks)%nat
  then from_cache o cachedChunks
  else in_memory docContent o.

Definition retrieveRelevantDocs (docContent : string) (o : Options) : Retrieved :=
  match retrieve_try docContent o with
  | Ok r => r
  | Throw _ => {| context := docContent; similarity := 1 # 2 |}
  end.

End Retrieve.

End Retrieval.

(** ** Document ingestion service (engine/services/documentIngestionService.ts) *)

Module Ingestion.
Import Text Split DocChunk.

Record IngestionResult := {
  r_docId : string;
  r_url : string;
  r_urlHash : string;
  r_version : string;
  chunkCount : nat;
  cached : bool
}.

Record IngestionOptions := { forceRefresh : bool }.

(** [Math.ceil(text.length / 4)]. *)
Definition estimateTokens (t : string) : nat := (String.length t + 3) / 4.

Definition hashUrl (sha256_hex : string -> string) (url : string) : string :=
  sha256_hex (trim (toLowerCase url)).

Definition detectVersion `{RegExp} (url content : string) : string :=
  match capture1 "\/v?(\d+\.\d+(?:\.\d+)?)\/" "" url with
  | Some v => v
  | None =>
      match capture1 "[@\-]v?(\d+\.\d+(?:\.\d+)?)" "" url with
      | Some v => v
      | None =>
          match capture1 "(?:version|v)\s*[:\s]?\s*(\d+\.\d+(?:\.\d+)?)" "i" content with
          | Some v => v
          | None => "latest"
          end
      end
  end.

(** [chunks] and the string being accumulated. *)
Record Chunking := { chunks : list string; current : string }.

Definition nonempty (s : string) : bool := negb (String.eqb s "").

(** One turn of the sentence loop for an oversized paragraph. *)
Definition add_sentence (maxTokens : nat) (st : Chunking) (sentence : string) : Chunking :=
  let sentChunk := current st in
  let sentCombined := if nonempty sentChunk then sentChunk ++ " " ++ sentence else sentence in
  if (maxTokens <? estimateTokens sentCombined)%nat && nonempty sentChunk
  then {| chunks := List.app (chunks st) [trim sentChunk]; current := sentence |}
  else {| chunks := chunks st; current := sentCombined |}.

(** One turn of the paragraph loop. *)
Definition add_paragraph (maxTokens : nat) (st : Chunking) (para : string) : Chunking :=
  let combined :=
    if nonempty (current st) then current st ++ blank_line ++ para else para in
  let tokens := estimateTokens combined in
  if (maxTokens <? tokens)%nat && nonempty (current st)
  then {| chunks := List.app (chunks st) [trim (current st)]; current := para |}
  else if (maxTokens <? tokens)%nat
  then
    let split :=
      fold_left (add_sentence maxTokens) (sentences para)
                {| chunks := chunks st; current := "" |} in
    {| chunks := chunks split;
       current := if nonempty (trim (current split)) then current split else current st |}
  else {| chunks := chunks st; current := combined |}.

Definition merge_into_last (l : list string) (tail : string) : list string :=
  match rev l with
  | last :: before => rev ((last ++ blank_line ++ tail) :: before)
  | [] => l
  end.

Definition chunkContent (content : string) (minTokens maxTokens : nat) : list string :=
  let st := fold_left (add_paragraph maxTokens) (paragraphs content)
                      {| chunks := []; current := "" |} in
  let rest := trim (current st) in
  if nonempty rest && (minTokens <=? 2 * estimateTokens (current st))%nat
  then List.app (chunks st) [rest]
  else if nonempty rest && (0 <? List.length (chunks st))%nat
  then merge_into_last (chunks st) rest
  else if nonempty rest then List.app (chunks st) [rest]
  else chunks st.

(** Everything [ingestDocument] reaches outside itself. *)
Record Env := {
  sha256_hex : string -> string;
  fetchContent : string -> outcome string;
      (* [fetchContent(url)]: URL rewriting, HTTP GET and HTML extraction *)
  createEmbedding : string -> outcome (list Q);
  accepts : IDocChunk -> bool;
      (* whether [DocChunk.create] validates and writes the document *)
  randomUUID : string
}.

(** Work observable from outside. *)
Inductive Effect :=
| FetchContent (url : string)
| CreateEmbedding (chunk : string)
| Create (row : IDocChunk)
| DeleteMany (hash : string).

Record World := { db : Collection; effects : list Effect }.

Definition record (e : Effect) (w : World) : World :=
  {| db := db w; effects := List.app (effects w) [e] |}.

Definition create (env : Env) (row : IDocChunk) (w : World) : outcome unit * World :=
  if accepts env row
  then (Ok tt, record (Create row) {| db := List.app (db w) [row]; effects := effects w |})
  else (Throw "DocChunk validation failed", w).

Section Store.

Variable env : Env.
Variables (docId url urlHash version : string).

Definition row (i : nat) (chunk : string) (e : list Q) : IDocChunk :=
  {| DocChunk.docId := docId; DocChunk.url := url; DocChunk.urlHash := urlHash;
     DocChunk.version := version; chunkIndex := i; text := chunk;
     embedding := e; tokenCount := estimateTokens chunk |}.

(** The [try] inside the loop: embed, then create. *)
Definition embed_and_create (i : nat) (chunk : string) (w : World) : outcome unit * World :=
  let w1 := record (CreateEmbedding chunk) w in
  match createEmbedding env chunk with
  | Throw e => (Throw e, w1)
  | Ok e => create env (row i chunk e) w1
  end.

(** [for (let i = 0; i < chunks.length; i++)]. *)
Fixpoint store_chunks (i : nat) (rest : list string) (w : World) : outcome unit * World :=
  match rest with
  | [] => (Ok tt, w)
  | chunk :: rest' =>
      match embed_and_create i chunk w with
      | (Ok _, w1) => store_chunks (S i) rest' w1
      | (Throw _, w1) =>
          (* Store chunk without embedding so we don't lose the text *)
          match create env (row i chunk []) w1 with
          | (Ok _, w2) => store_chunks (S i) rest' w2
          | (Throw e, w2) => (Throw e, w2)
          end
      end
  end.

End Store.

Definition or_default (s fallback : string) : string :=
  if nonempty s then s else fallback.

Definition ingestDocument `{RegExp} (env : Env) (url : string) (options : IngestionOptions)
    (w : World) : outcome IngestionResult * World :=
  let urlHash := hashUrl (sha256_hex env) url in
  let q := hash_query urlHash in
  let existingCount := countDocuments q (db w) in
  if negb (forceRefresh options) && (0 <? existingCount)%nat
  then
    let first := findOne q (db w) in
    (Ok {| r_docId := match first with Some c => or_default (docId c) urlHash | None => urlHash end;
           r_url := url;
           r_urlHash := urlHash;
           r_version := match first with Some c => or_default (version c) "unknown" | None => "unknown" end;
           chunkCount := existingCount;
           cached := true |}, w)
  else
    let w0 :=
      if forceRefresh options
      then record (DeleteMany urlHash) {| db := deleteMany q (db w); effects := effects w |}
      else w in
    let w1 := record (FetchContent url) w0 in
    match fetchContent env url with
    | Throw e => (Throw e, w1)
    | Ok rawContent =>
        if String.eqb rawContent "" || (String.length (trim rawContent) <? 50)%nat
        then (Throw "Failed to extract meaningful content from URL", w1)
        else
          let version := detectVersion url rawContent in
          let docId := randomUUID env in
          let chunks := chunkContent rawContent 800 1200 in
          match store_chunks env docId url urlHash version 0 chunks w1 with
          | (Throw e, w2) => (Throw e, w2)
          | (Ok _, w2) =>
              (Ok {| r_docId := docId; r_url := url; r_urlHash := urlHash;
                     r_version := version;
                     chunkCount := List.length chunks;
                     cached := false |}, w2)
          end
    end.

End Ingestion.

(** ** Enhancement service (engine/services/enhancementService.ts) *)

Module Enhancement.
Import Text.

(** The body of the [try] in [enhanceTask], after [JSON.parse].  A
    non-empty string passes the length test and has [slice]; it is
    returned as its first three one-character strings, which is what
    indexing it yields. *)
Definition tasks_of (parsed : json) : outcome (list json) :=
  let sliced (items : list json) : outcome (list json) :=
    if (List.length items =? 0)%nat then Throw "No enhanced tasks returned"
    else Ok (firstn 3 items) in
  match parsed with
  | JArr items => sliced items
  | JNull => Throw "Cannot read properties of null (reading 'variations')"
  | _ =>
      match or_else (or_else (get_opt (Some parsed) "variations")
                             (get_opt (Some parsed) "tasks"))
                    (Some (JArr [])) with
      | Some (JArr items) => sliced items
      | Some (JStr s) => Ok (map (fun c => JStr (String c "")) (firstn 3 (chars s)))
      | Some (JObj fields) =>
          match lookup "length" fields with
          | Some (JNum q) =>
              if Qeq_bool q 0 then Throw "No enhanced tasks returned"
              else Throw "tasks.slice is not a function"
          | _ => Throw "tasks.slice is not a function"
          end
      | _ => Throw "tasks.slice is not a function"
      end
  end.

(** [enhanceTask]: the model call is awaited before the [try]; the
    [catch] rethrows. *)
Definition enhanceTask (r : reply) : outcome (list json) :=
  match r with
  | CallFailed e => Throw e
  | Unparseable e => Throw ("Enhancement parsing failed: " ++ e)
  | Parsed parsed =>
      match tasks_of parsed with
      | Ok tasks => Ok tasks
      | Throw e => Throw ("Enhancement parsing failed: " ++ e)
      end
  end.

End Enhancement.

(** ** Orchestrator (engine/orchestrator.ts) *)

Module Orchestrator.
Import Text Split.

Record GenerateRequest := {
  userId : string;
  taskDescription : string;
  docUrl : string;
  docContent : string;
  language : string;
  selectedTaskIndex : option Q
}.

Record StageRecord := {
  name : string;
  status : string;
  startedAt : Z;
  completedAt : option Z;
  durationMs : option Z
}.

(** What [startStage] hands to [endStage]. *)
Record Started := { s_name : string; s_startedAt : Z }.

Record LineMapping := {
  startLine : nat; endLine : nat; docChunkId : string; similarityScore : Q
}.

Record SecurityAuditResult := {
  overallRisk : string;
  findings : list json;
  performanceNotes : list string;
  audit_score : Q
}.

(** Socket events sent to the user. *)
Inductive Emit :=
| EmitStage (stage message : string)
| EmitComplete (confidence : option Confidence.ConfidenceResult)
| EmitError (error : string).

(** Services the pipeline calls, in call order (bookkeeping of the model
    only; the source keeps no such list). *)
Inductive Call :=
| CallEnhance | CallRetrieve | CallGenerate | CallJudge
| CallValidate | CallFix | CallAudit | CallTrace | CallConfidence.

(** Everything one run receives from outside. *)
Record Script := {
  time : nat -> Z;                        (* the k-th reading of the clock *)
  hash : string -> string;                (* SHA-256, hex encoded *)
  collection : DocChunk.Collection;       (* the stored document chunks *)
  enhance_reply : reply;
  task_embedding : outcome (list Q);
  chunk_embedding : string -> outcome (list Q);
  primary_reply : completion;
  alternative_reply : completion;
  judge_reply : reply;
  validate_reply : nat -> reply;          (* for the k-th call of [validateCode] *)
  fix_reply : nat -> completion;          (* for the k-th call of [fixCode] *)
  audit_result : SecurityAuditResult;     (* [auditCode] catches its own failures *)
  trace_result : list LineMapping         (* [buildTraceMappings] likewise *)
}.

(** The mutable state of one run. *)
Record Run := {
  readings : nat;                 (* clock readings taken so far *)
  stages : list StageRecord;      (* the [stages] array *)
  emitted : list Emit;
  begun : list string;            (* names given to [startStage] *)
  calls : list Call
}.

Definition fresh : Run :=
  {| readings := 0; stages := []; emitted := []; begun := []; calls := [] |}.

(** State and exceptions: a thrown error keeps the state reached. *)
Definition M (A : Type) : Type := Run -> outcome A * Run.

Definition ret {A : Type} (a : A) : M A := fun r => (Ok a, r).

Definition bind {A B : Type} (m : M A) (k : A -> M B) : M B :=
  fun r =>
    match m r with
    | (Ok a, r') => k a r'
    | (Throw e, r') => (Throw e, r')
    end.

Definition lift {A : Type} (o : outcome A) : M A := fun r => (o, r).

Declare Scope run_scope.
Delimit Scope run_scope with run.
Notation "x <- m ;; k" := (bind m (fun x => k))
  (at level 61, m at next level, right associativity) : run_scope.
Notation "m ;;; k" := (bind m (fun _ => k))
  (at level 61, right associativity) : run_scope.
Open Scope run_scope.

Definition now (s : Script) : M Z :=
  fun r => (Ok (time s (readings r)),
            {| readings := S (readings r); stages := stages r; emitted := emitted r;
               begun := begun r; calls := calls r |}).

Definition emit (e : Emit) : M unit :=
  fun r => (Ok tt,
            {| readings := readings r; stages := stages r;
               emitted := List.app (emitted r) [e];
               begun := begun r; calls := calls r |}).

Definition note (c : Call) : M unit :=
  fun r => (Ok tt,
            {| readings := readings r; stages := stages r; emitted := emitted r;
               begun := begun r; calls := List.app (calls r) [c] |}).

Definition startStage (s : Script) (name : string) : M Started :=
  t <- now s ;;
  fun r => (Ok {| s_name := name; s_startedAt := t |},
            {| readings := readings r; stages := stages r; emitted := emitted r;
               begun := List.app (begun r) [name]; calls := calls r |}).

Definition endStage (s : Script) (stage : Started) : M unit :=
  completed <- now s ;;
  fun r => (Ok tt,
            {| readings := readings r;
               stages := List.app (stages r)
                 [ {| name := s_name stage;
                      status := "completed";
                      startedAt := s_startedAt stage;
                      completedAt := Some completed;
                      durationMs := Some (completed - s_startedAt stage)%Z |} ];
               emitted := emitted r; begun := begun r; calls := calls r |}).

Definition emitStage (stage message : string) : M unit := emit (EmitStage stage message).

(** [enhancedTasks[selectedTaskIndex] || enhancedTasks[0]], then
    [.description]. *)
Definition select_description (tasks : list json) (i : Q) : outcome value :=
  get (or_else (index tasks i) (index tasks 0)) "description".

(** [candidates[selectedIndex]?.code || candidates[0].code]. *)
Definition select_code (candidates : list Generation.CodeCandidate) (i : Q)
  : outcome string :=
  match index candidates i with
  | Some c =>
      if negb (String.eqb (Generation.code c) "") then Ok (Generation.code c)
      else match candidates with
           | c0 :: _ => Ok (Generation.code c0)
           | [] => Throw "Cannot read properties of undefined (reading 'code')"
           end
  | None =>
      match candidates with
      | c0 :: _ => Ok (Generation.code c0)
      | [] => Throw "Cannot read properties of undefined (reading 'code')"
      end
  end.

(** [scores[selectedIndex]?.total || 70] as the number handed to
    [calculateConfidence]; [None] where that argument is a truthy value
    that is not a number (the implicit conversion is not modelled). *)
Definition judge_score (j : Judge.JudgeResult) : option Q :=
  match index (Judge.scores j) (Judge.selectedIndex j) with
  | None => Some 70
  | Some entry =>
      match Judge.total entry with
      | Judge.Given (JNum q) => Some q
      | Judge.Given _ => None
      | Judge.Rounded n => Some (if (n =? 0)%Z then 70 else inject_Z n)
      | Judge.NotANumber => Some 70
      | Judge.Concatenated _ _ _ _ => None
      end
  end.

Section Pipeline.

Context `{RegExp} `{Gateway.Sqrt}.
Variable s : Script.

(** The stamps [generateCode] puts on the candidates. *)
Definition stamp : M Z := now s.

(** [for (let attempt = 0; attempt < maxFixAttempts; attempt++)], with
    [left] turns still to run. *)
Fixpoint fix_loop (language : string) (left attempt : nat)
    (selectedCode : string) (validationResult : Validation.ValidationResult)
  : M (string * Validation.ValidationResult) :=
  match left with
  | O => ret (selectedCode, validationResult)
  | S left' =>
      fixStage <- startStage s ("runtime_fix_" ++ Validation.decimal (attempt + 1)) ;;
      emitStage "fixing_code"
                ("Fixing code (attempt " ++ Validation.decimal (attempt + 1) ++ ")...") ;;;
      note CallFix ;;;
      fixed <- lift (Validation.fixCode (fix_reply s attempt)) ;;
      note CallValidate ;;;
      let revalidated := Validation.validateCode fixed language (validate_reply s (S attempt)) in
      endStage s fixStage ;;;
      if Validation.passed revalidated then ret (fixed, revalidated)
      else fix_loop language left' (S attempt) fixed revalidated
  end.

(** Stage 5b. *)
Definition repair (language selectedCode : string)
    (validationResult : Validation.ValidationResult)
  : M (string * Validation.ValidationResult) :=
  if negb (Validation.passed validationResult)
     && truthy (Some (Validation.runtimeError validationResult))
  then fix_loop language (maxFixAttempts ENGINE_CONFIG) 0 selectedCode validationResult
  else ret (selectedCode, validationResult).

Record GenerateResponse := {
  selectedCode : string;
  res_language : string;
  candidates : list Generation.CodeCandidate;
  judgeResult : Judge.JudgeResult;
  validationResult : Validation.ValidationResult;
  securityAudit : SecurityAuditResult;
  confidence : option Confidence.ConfidenceResult;
  res_stages : list StageRecord
}.

(** What the run adds to the [Generation] document beyond the response. *)
Record Extras := {
  enhancedTask : value;
  docContext : string;
  lineMappings : list LineMapping
}.

(** The body of the [try] in [runPipeline], up to the point where the
    document is saved. *)
Definition stages_of_try (request : GenerateRequest) : M (GenerateResponse * Extras) :=
  (* Stage 1: Enhancement *)
  enhanceStage <- startStage s "enhancing_task" ;;
  emitStage "enhancing_task" "Enhancing your task..." ;;;
  note CallEnhance ;;;
  enhancedTasks <- lift (Enhancement.enhanceTask (enhance_reply s)) ;;
  enhancedDescription <-
    lift (select_description enhancedTasks
            (match selectedTaskIndex request with Some i => i | None => 0 end)) ;;
  endStage s enhanceStage ;;;
  (* Stage 2: Document Retrieval (RAG) *)
  ragStage <- startStage s "retrieving_docs" ;;
  emitStage "retrieving_docs" "Retrieving documentation context..." ;;;
  rag <-
    (if negb (String.eqb (docContent request) "")
        && (0 <? String.length (trim (docContent request)))%nat
     then
       note CallRetrieve ;;;
       ret (Retrieval.retrieveRelevantDocs (hash s) (task_embedding s)
              (chunk_embedding s) (collection s) (docContent request)
              Retrieval.default_options)
     else
       ret {| Retrieval.context :=
                "Documentation URL: " ++ docUrl request ++ nl
                ++ "Please implement based on the standard " ++ language request
                ++ " documentation and best practices.";
              Retrieval.similarity := 1 # 2 |}) ;;
  endStage s ragStage ;;;
  (* Stage 3: Code Generation (Parallel) *)
  genStage <- startStage s "generating_code" ;;
  emitStage "generating_code" "Generating code from multiple models..." ;;;
  note CallGenerate ;;;
  generatedAt <- stamp ;;
  genResult <- lift (Generation.generateCode (primary_reply s) (alternative_reply s) generatedAt) ;;
  endStage s genStage ;;;
  (* Stage 4: Judging *)
  judgeStage <- startStage s "judging" ;;
  emitStage "judging" "Comparing and scoring solutions..." ;;;
  note CallJudge ;;;
  judged <- lift (Judge.judgeCode (Generation.candidates genResult) (judge_reply s)) ;;
  endStage s judgeStage ;;;
  (* Stage 5: Validation *)
  validStage <- startStage s "validating" ;;
  emitStage "validating" "Validating generated code..." ;;;
  chosen <- lift (select_code (Generation.candidates genResult) (Judge.selectedIndex judged)) ;;
  note CallValidate ;;;
  let validated := Validation.validateCode chosen (language request) (validate_reply s 0) in
  endStage s validStage ;;;
  (* Stage 5b: Runtime Fix Loop *)
  repaired <- repair (language request) chosen validated ;;
  (* Stage 6: Security Audit *)
  secStage <- startStage s "security_audit" ;;
  emitStage "security_audit" "Running security audit..." ;;;
  note CallAudit ;;;
  endStage s secStage ;;;
  (* Stage 7b: Trace Mapping *)
  traceStage <- startStage s "trace_mapping" ;;
  emitStage "trace_mapping" "Mapping code to documentation..." ;;;
  note CallTrace ;;;
  endStage s traceStage ;;;
  (* Stage 8: Confidence Score *)
  confStage <- startStage s "scoring" ;;
  emitStage "scoring" "Calculating confidence score..." ;;;
  note CallConfidence ;;;
  let scored :=
    option_map (fun j => Confidence.calculateConfidence j
                           (Validation.runtimeScore (snd repaired))
                           (Validation.staticScore (snd repaired))
                           (Retrieval.similarity rag))
               (judge_score judged) in
  endStage s confStage ;;;
  (* Stage 8: Finalize *)
  emitStage "finalizing" "Saving results..." ;;;
  fun r =>
    (Ok ({| selectedCode := fst repaired;
            res_language := language request;
            candidates := Generation.candidates genResult;
            judgeResult := judged;
            validationResult := snd repaired;
            securityAudit := audit_result s;
            confidence := scored;
            res_stages := stages r |},
         {| enhancedTask := enhancedDescription;
            docContext := substring 0 (100 * 100) (Retrieval.context rag);
            lineMappings := trace_result s |}), r).

(** The [Generation] document as the run leaves it. *)
Record Generation := {
  g_status : string;
  g_errorMessage : option string;
  g_stages : list StageRecord;
  g_response : option (GenerateResponse * Extras)
}.

(** [runPipeline]: the outcome for the caller, the saved document, and
    the final state of the run.  The document store is assumed to accept
    every write. *)
Definition runPipeline (request : GenerateRequest)
  : outcome GenerateResponse * Generation * Run :=
  match (done <- stages_of_try request ;;
         emit (EmitComplete (confidence (fst done))) ;;;
         ret done) fresh with
  | (Ok done, r) =>
      (Ok (fst done),
       {| g_status := "completed"; g_errorMessage := None;
          g_stages := res_stages (fst done); g_response := Some done |},
       r)
  | (Throw error, r) =>
      (Throw error,
       {| g_status := "failed"; g_errorMessage := Some error;
          g_stages := stages r; g_response := None |},
       snd (emit (EmitError error) r))
  end.

End Pipeline.

End Orchestrator.

(** ** Trace mapping service (engine/services/traceMappingService.ts) *)

Module TraceMapping.
Import Text Split.

Record CodeBlock := { startLine : nat; endLine : nat; text : string }.

(** [code.split("\n")]; [piece] is the current line, reversed. *)
Fixpoint lines_from (piece l : list ascii) : list (list ascii) :=
  match l with
  | [] => [rev piece]
  | c :: rest =>
      if is_nl c then rev piece :: lines_from [] rest
      else lines_from (c :: piece) rest
  end.

Definition lines (code : string) : list string :=
  map Text.text (lines_from [] (chars code)).

(** [line.trim() === ""]. *)
Definition is_blank (line : string) : bool := String.eqb (trim line) "".

(** The variables of the loop of [splitCodeIntoBlocks]. *)
Record Scan := {
  blocks : list CodeBlock;
  currentLines : list string;
  blockStart : nat
}.

(** One turn of the loop, for the line with number [lineNum]. *)
Definition scan_line (st : Scan) (lineNum : nat) (line : string) : Scan :=
  if is_blank line && (0 <? List.length (currentLines st))%nat
  then {| blocks := List.app (blocks st)
                      [ {| startLine := blockStart st;
                           endLine := lineNum - 1;
                           text := join nl (currentLines st) |} ];
          currentLines := [];
          blockStart := lineNum + 1 |}
  else if negb (is_blank line)
  then {| blocks := blocks st;
          currentLines := List.app (currentLines st) [line];
          blockStart := if (List.length (currentLines st) =? 0)%nat then lineNum
                        else blockStart st |}
  else {| blocks := blocks st;
          currentLines := currentLines st;
          blockStart := lineNum + 1 |}.

(** [for (let i = 0; i < lines.length; i++)], at line number [lineNum]
    with the lines [rest] still to read. *)
Fixpoint scan (lineNum : nat) (rest : list string) (st : Scan) : Scan :=
  match rest with
  | [] => st
  | line :: rest' => scan (S lineNum) rest' (scan_line st lineNum line)
  end.

Definition splitCodeIntoBlocks (code : string) : list CodeBlock :=
  let ls := lines code in
  let st := scan 1 ls {| blocks := []; currentLines := []; blockStart := 1 |} in
  if (0 <? List.length (currentLines st))%nat
  then List.app (blocks st)
         [ {| startLine := blockStart st;
              endLine := List.length ls;
              text := join nl (currentLines st) |} ]
  else blocks st.

(** A stored chunk document with its [_id]. *)
Record Stored := { _id : string; chunk : DocChunk.IDocChunk }.

Fixpoint insert_stored (c : Stored) (sorted : list Stored) : list Stored :=
  match sorted with
  | [] => [c]
  | d :: rest =>
      if (DocChunk.chunkIndex (chunk c) <=? DocChunk.chunkIndex (chunk d))%nat
      then c :: sorted
      else d :: insert_stored c rest
  end.

(** [DocChunk.find({ urlHash }).sort({ chunkIndex: 1 })]. *)
Definition find_sorted (urlHash : string) (db : list Stored) : list Stored :=
  fold_right insert_stored []
    (filter (fun c => String.eqb urlHash (DocChunk.urlHash (chunk c))) db).

Definition embedded (c : Stored) : bool :=
  negb (List.length (DocChunk.embedding (chunk c)) =? 0)%nat.

(** [bestChunk] and [bestScore]. *)
Definition Best : Type := option Stored * Q.

Section Mapping.

Context `{Gateway.Sqrt}.
Variable sha256_hex : string -> string.
Variable createEmbedding : string -> outcome (list Q).
Variable db : list Stored.

(** One turn of [for (const chunk of chunksWithEmbeddings)]. *)
Definition better (blockEmbedding : list Q) (best : Best) (c : Stored) : Best :=
  let score := Gateway.cosineSimilarity blockEmbedding (DocChunk.embedding (chunk c)) in
  if Qle_bool score (snd best) then best else (Some c, score).

Definition best_match (blockEmbedding : list Q) (candidates : list Stored) : Best :=
  fold_left (better blockEmbedding) candidates (None, - (1)).

(** The body of [for (const block of codeBlocks)]: the mapping pushed for
    a block, if any.  A failed embedding call is caught and skips the
    block. *)
Definition map_block (similarityThreshold : Q) (candidates : list Stored)
    (block : CodeBlock) : option Orchestrator.LineMapping :=
  if (String.length (trim (text block)) <? 15)%nat then None
  else
    match createEmbedding (text block) with
    | Throw _ => None
    | Ok blockEmbedding =>
        match best_match blockEmbedding candidates with
        | (Some bestChunk, bestScore) =>
            if geq bestScore similarityThreshold
            then Some {| Orchestrator.startLine := startLine block;
                         Orchestrator.endLine := endLine block;
                         Orchestrator.docChunkId := _id bestChunk;
                         Orchestrator.similarityScore :=
                           inject_Z (Math_round (bestScore * 1000)) / 1000 |}
            else None
        | (None, _) => None
        end
    end.

Fixpoint map_blocks (similarityThreshold : Q) (candidates : list Stored)
    (codeBlocks : list CodeBlock) : list Orchestrator.LineMapping :=
  match codeBlocks with
  | [] => []
  | block :: rest =>
      match map_block similarityThreshold candidates block with
      | Some m => m :: map_blocks similarityThreshold candidates rest
      | None => map_blocks similarityThreshold candidates rest
      end
  end.

(** [buildTraceMappings]; reads of the collection are assumed to
    succeed. *)
Definition buildTraceMappings (code docUrl : string) (similarityThreshold : Q)
  : list Orchestrator.LineMapping :=
  let urlHash := sha256_hex (trim (toLowerCase docUrl)) in
  let docChunks := find_sorted urlHash db in
  if (List.length docChunks =? 0)%nat then []
  else
    let chunksWithEmbeddings := filter embedded docChunks in
    if (List.length chunksWithEmbeddings =? 0)%nat then []
    else map_blocks similarityThreshold chunksWithEmbeddings (splitCodeIntoBlocks code).

End Mapping.

(** The default of the [similarityThreshold] parameter. *)
Definition default_threshold : Q := 3 # 10.

End TraceMapping.

(** ** Security audit service (engine/services/securityService.ts) *)

Module Security.

Record SecurityAuditResult := {
  overallRisk : json;
  findings : list json;
  performanceNotes : list json;
  score : Q                      (* 0-100 (100 = perfectly secure) *)
}.

Definition degraded : SecurityAuditResult :=
  {| overallRisk := JStr "medium";
     findings := [];
     performanceNotes := [JStr "Audit could not be completed"];
     score := 50 |}.

Definition list_or_empty (v : value) : list json :=
  match as_array v with Some items => items | None => [] end.

(** "Validate and normalize", for a parsed value whose properties can be
    written: an object, or an array (which has none of the four). *)
Definition normalize (fields : list (string * json)) : SecurityAuditResult :=
  {| score :=
       match as_number (lookup "score" fields) with
       | Some q => Math_max 0 (Math_min 100 q)
       | None => 75
       end;
     findings := list_or_empty (lookup "findings" fields);
     performanceNotes := list_or_empty (lookup "performanceNotes" fields);
     overallRisk :=
       match or_else (lookup "overallRisk" fields) (Some (JStr "low")) with
       | Some v => v
       | None => JStr "low"
       end |}.

(** [auditCode]: call and parsing sit inside the [try].  For [null]
    reading [parsed.score] throws; for a number, string or boolean the
    property writes are refused or lost and reading [parsed.findings.length]
    for the log entry throws; either way the [catch] answers. *)
Definition auditCode (r : reply) : SecurityAuditResult :=
  match r with
  | CallFailed _ => degraded
  | Unparseable _ => degraded
  | Parsed (JObj fields) => normalize fields
  | Parsed (JArr _) => normalize []
  | Parsed _ => degraded
  end.

End Security.

(** ** JavaScript numbers as IEEE binary64 values *)

Module Binary64.
Import Floats.
Local Open Scope float_scope.
Set Warnings "-inexact-float".

(** A whole number below 2^53 in magnitude as a binary64 value. *)
Definition of_Z (n : Z) : float :=
  match n with
  | Z0 => 0
  | Zpos _ => PrimFloat.of_uint63 (Uint63.of_Z n)
  | Zneg _ => - PrimFloat.of_uint63 (Uint63.of_Z (Z.opp n))
  end.

(** [Math.round]: NaN, the infinities and whole numbers are returned as
    they are; any other value [x = v * 2^e] (with [e < 0]) gives the whole
    number nearest to it, the larger one at a tie, computed on the exact
    value; a result of zero keeps the sign of [x]. *)
Definition Math_round (x : float) : float :=
  match Prim2SF x with
  | S754_finite negative m e =>
      if (0 <=? e)%Z then x
      else
        let v := if negative then Zneg m else Zpos m in
        let unit := (2 ^ (- e))%Z in
        if (v mod unit =? 0)%Z then x
        else
          let n := ((2 * v + unit) / (2 * unit))%Z in
          if (n =? 0)%Z then (if negative then -0 else 0) else of_Z n
  | _ => x
  end.

(** [a >= b]: false when either side is NaN. *)
Definition geq (a b : float) : bool := PrimFloat.leb b a.

End Binary64.

(** ** Confidence scoring service over binary64 (engine/services/confidenceService.ts) *)

Module Confidence64.
Import Floats Binary64.
Local Open Scope float_scope.
Set Warnings "-inexact-float".

(** [ENGINE_CONFIG.confidenceWeights], as the literals of config.ts
    denote them. *)
Record Weights := {
  w_judge : float; w_runtime : float; w_static : float; w_docSimilarity : float
}.

Definition confidenceWeights : Weights :=
  {| w_judge := 0.4; w_runtime := 0.3; w_static := 0.2; w_docSimilarity := 0.1 |}.

Record Breakdown := {
  judgeScore : float; runtimeScore : float; staticScore : float; docSimilarity : float
}.

Record ConfidenceResult := {
  confidenceScore : float;
  verificationStatus : Confidence.VerificationStatus;
  breakdown : Breakdown
}.

(** Every operation rounds to the nearest binary64 value; the sum is
    evaluated from left to right. *)
Definition calculateConfidence
    (judgeScore runtimeScore staticScore docSimilarity : float) : ConfidenceResult :=
  let w := confidenceWeights in
  let normalizedDocSim := Math_round (docSimilarity * 100) in
  let confidenceScore :=
    Math_round (judgeScore * w_judge w
                + runtimeScore * w_runtime w
                + staticScore * w_static w
                + normalizedDocSim * w_docSimilarity w) in
  let verificationStatus :=
    if geq confidenceScore 75 && geq runtimeScore 70 && geq staticScore 60
    then Confidence.verified
    else if geq confidenceScore 50 then Confidence.partial
    else Confidence.unverified in
  {| confidenceScore := confidenceScore;
     verificationStatus := verificationStatus;
     breakdown := {| judgeScore := judgeScore;
                     runtimeScore := runtimeScore;
                     staticScore := staticScore;
                     docSimilarity := normalizedDocSim |} |}.

(** The formula as the specification words it: no rounding of the
    document similarity before it is weighted. *)
Definition spec_confidence
    (judgeTotal runtimeScore staticScore docSimilarity : float) : float :=
  Math_round (judgeTotal * 0.4 + runtimeScore * 0.3
              + staticScore * 0.2 + (docSimilarity * 100) * 0.1).

End Confidence64.

(** * Properties *)

(** ** Stand-ins for the platform, used in the worked examples *)

Module Samples.

(** A regular-expression engine whose patterns never match. *)
Definition no_match : RegExp :=
  {| test := fun _ _ _ => false;
     replace := fun _ _ subject _ => subject;
     capture1 := fun _ _ _ => None |}.

(** A square root that is exact on squares of rationals written in
    lowest terms; the examples take roots of such numbers only. *)
Definition sqrt_of_squares : Gateway.Sqrt :=
  fun q => (Z.sqrt (Qnum q) # Pos.sqrt (Qden q)).

End Samples.

(** ** Numbers *)

Module NumberFacts.

Lemma Math_round_nearest (x : Q) :
  x - (1 # 2) < inject_Z (Math_round x) /\ inject_Z (Math_round x) <= x + (1 # 2).
Proof.
  unfold Math_round.
  pose proof (Qfloor_le (x + (1 # 2))) as Hle.
  pose proof (Qlt_floor (x + (1 # 2))) as Hlt.
  rewrite inject_Z_plus in Hlt. change (inject_Z 1) with 1 in Hlt.
  split; lra.
Qed.

Lemma Math_round_integer (n : Z) : Math_round (inject_Z n) = n.
Proof.
  destruct (Math_round_nearest (inject_Z n)) as [Hlo Hhi].
  set (c := Math_round (inject_Z n)) in *.
  assert (H1 : inject_Z (n + -1) < inject_Z c).
  { rewrite inject_Z_plus. change (inject_Z (-1)) with (-1). lra. }
  assert (H2 : inject_Z c < inject_Z (n + 1)).
  { rewrite inject_Z_plus. change (inject_Z 1) with 1. lra. }
  rewrite <- Zlt_Qlt in H1, H2. lia.
Qed.

Lemma geq_iff (a b : Q) : geq a b = true <-> b <= a.
Proof. unfold geq. apply Qle_bool_iff. Qed.

Lemma geq_false_iff (a b : Q) : geq a b = false <-> a < b.
Proof.
  unfold geq. split; intro Hf.
  - apply Qnot_le_lt. intro Hle. apply Qle_bool_iff in Hle. congruence.
  - destruct (Qle_bool b a) eqn:E; [|reflexivity].
    apply Qle_bool_iff in E. lra.
Qed.

Lemma clamp_range (lo hi x : Q) :
  lo <= hi -> lo <= Math_max lo (Math_min hi x) /\ Math_max lo (Math_min hi x) <= hi.
Proof.
  intro Hb. unfold Math_max, Math_min.
  destruct (Qle_bool hi x) eqn:E1.
  - destruct (Qle_bool lo hi) eqn:E2.
    + split; lra.
    + apply geq_false_iff in E2. lra.
  - apply geq_false_iff in E1.
    destruct (Qle_bool lo x) eqn:E2.
    + apply Qle_bool_iff in E2. split; lra.
    + split; lra.
Qed.

Lemma clamp_index_range (lo hi x : Q) :
  lo <= hi -> lo <= Math_max lo (Math_min x hi) /\ Math_max lo (Math_min x hi) <= hi.
Proof.
  intro Hb. unfold Math_max, Math_min.
  destruct (Qle_bool x hi) eqn:E1.
  - apply Qle_bool_iff in E1.
    destruct (Qle_bool lo x) eqn:E2.
    + apply Qle_bool_iff in E2. split; lra.
    + split; lra.
  - destruct (Qle_bool lo hi) eqn:E2.
    + split; lra.
    + apply geq_false_iff in E2. lra.
Qed.

End NumberFacts.

(** ** Confidence scoring *)

Module ConfidenceFacts.
Import Confidence NumberFacts.

(** The worked example of the specification, in exact arithmetic. *)
Example confidence_80 :
  confidenceScore (calculateConfidence 80 80 80 (8 # 10)) = 80%Z
  /\ verificationStatus (calculateConfidence 80 80 80 (8 # 10)) = verified.
Proof. split; reflexivity. Qed.

End ConfidenceFacts.

(** ** Validation *)

Module ValidationFacts.
Import Validation NumberFacts.

Section WithEngine.
Context `{RegExp}.

Lemma staticAnalysis_range (code language : string) :
  0 <= score (staticAnalysis code language) /\ score (staticAnalysis code language) <= 100.
Proof.
  unfold staticAnalysis.
  destruct (String.eqb code "" || (String.length (Text.trim code) <? 10)%nat).
  - cbn. split; lra.
  - cbn [score]. apply clamp_range. lra.
Qed.

Lemma validate_passed_iff (code language : string) (r : reply) :
  let v := validateCode code language r in
  passed v = true <-> 50 <= staticScore v /\ 50 <= runtimeScore v.
Proof.
  cbn. rewrite andb_true_iff, !geq_iff. reflexivity.
Qed.

(** The error description is [null] or a truthy value, so testing it for
    truth and testing it against [null] agree. *)
Lemma runtimeError_null_or_truthy (code language : string) (r : reply) :
  let e := runtimeError (validateCode code language r) in
  e = JNull \/ truthy (Some e) = true.
Proof.
  cbn. unfold runtimeValidation.
  destruct r as [m | m | parsed]; try (left; reflexivity).
  unfold runtime_of_parsed.
  destruct (get (Some parsed) "score") as [sc | e]; [|left; reflexivity].
  cbn [r_error]. unfold or_null.
  destruct (get_opt (Some parsed) "error") as [j |] eqn:E; [|left; reflexivity].
  destruct (truthy (Some j)) eqn:T; [right; exact T | left; reflexivity].
Qed.

(** [validateCode] hands on whatever number the model reports. *)
Lemma runtime_score_passed_through (code language : string) (q : Q) (rest : list (string * json)) :
  runtimeScore (validateCode code language (Parsed (JObj (("score", JNum q) :: rest)))) = q.
Proof. reflexivity. Qed.

(** C2 at the failing input: the model answers
    [{ wouldPass: true, score: 150, error: null }].  The runtime score of
    the validation result is then 150, outside [0,100]; the static score
    and the [passed] rule are as claimed ([staticAnalysis_range],
    [validate_passed_iff]). *)
Theorem runtime_score_out_of_range (code language : string) :
  let v := validateCode code language
             (Parsed (JObj [("wouldPass", JBool true); ("score", JNum 150);
                            ("error", JNull)])) in
  runtimeScore v = 150 /\ ~ (0 <= runtimeScore v /\ runtimeScore v <= 100).
Proof.
  cbn. split; [reflexivity|]. intros [_ Hhi]. revert Hhi. apply Qlt_not_le. reflexivity.
Qed.

End WithEngine.

End ValidationFacts.

(** ** Code generation *)

Module GenerationFacts.
Import Generation.

(** C5: [generateCode] throws only when both calls are rejected, and
    then with a message that joins both reasons; when exactly one call is
    fulfilled it returns exactly one candidate, with that call's role, and
    an [errors] list whose single entry ends with the other call's
    reason. *)
Theorem generate_candidate_fallback `{RegExp} (now : Z) :
  (forall p a msg, generateCode p a now = Throw msg ->
     exists rp ra, p = Rejected rp /\ a = Rejected ra)
  /\ (forall rp ra,
        generateCode (Rejected rp) (Rejected ra) now =
        Throw ("Both code generation models failed: "
               ++ "Primary (gpt-4.1-mini): " ++ rp ++ "; "
               ++ "Alternative (gpt-4o-mini): " ++ ra))
  /\ (forall v ra,
        generateCode (Fulfilled v) (Rejected ra) now =
        Ok {| candidates := [ {| code := Validation.stripCodeFences v;
                                 model := "gpt-4.1-mini"; role := primary;
                                 generatedAt := now |} ];
              errors := [ "Alternative (gpt-4o-mini): " ++ ra ] |})
  /\ (forall rp v,
        generateCode (Rejected rp) (Fulfilled v) now =
        Ok {| candidates := [ {| code := Validation.stripCodeFences v;
                                 model := "gpt-4o-mini"; role := alternative;
                                 generatedAt := now |} ];
              errors := [ "Primary (gpt-4.1-mini): " ++ rp ] |})
  /\ (forall v1 v2,
        generateCode (Fulfilled v1) (Fulfilled v2) now =
        Ok {| candidates := [ {| code := Validation.stripCodeFences v1;
                                 model := "gpt-4.1-mini"; role := primary;
                                 generatedAt := now |};
                              {| code := Validation.stripCodeFences v2;
                                 model := "gpt-4o-mini"; role := alternative;
                                 generatedAt := now |} ];
              errors := [] |}).
Proof.
  repeat split; try reflexivity.
  - intros p a msg Hthrow.
    destruct p as [rp | v1]; destruct a as [ra | v2]; try discriminate Hthrow.
    exists rp, ra. split; reflexivity.
Qed.

End GenerationFacts.

(** ** Judge *)

Module JudgeFacts.
Import Judge NumberFacts.

Definition is_null (j : json) : bool :=
  match j with JNull => true | _ => false end.

(** A parsed judge response has the expected structure when it is an
    object whose [selectedIndex] is a number and whose [scores] is an array
    without [null] entries. *)
Definition structured (parsed : json) : bool :=
  match parsed with
  | JObj fields =>
      match lookup "selectedIndex" fields, lookup "scores" fields with
      | Some (JNum _), Some (JArr items) => forallb (fun s => negb (is_null s)) items
      | _, _ => false
      end
  | _ => false
  end.

(** The response could not be parsed, or it parsed to something without
    that structure. *)
Definition malformed (r : reply) : Prop :=
  match r with
  | CallFailed _ => False
  | Unparseable _ => True
  | Parsed parsed => structured parsed = false
  end.

Lemma with_total_null_throws (items : list json) :
  forallb (fun s => negb (is_null s)) items = false ->
  exists e, map_outcome with_total items = Throw e.
Proof.
  induction items as [| s items IH]; cbn [forallb]; intro Hf; [discriminate|].
  destruct s; cbn [is_null negb andb] in Hf;
    try (cbn [map_outcome];
         match goal with
         | |- context [with_total ?x] => destruct (with_total x) as [y | e]
         end;
         [ destruct (IH Hf) as [e He]; rewrite He; eauto | eauto ]).
  cbn. eauto.
Qed.

Lemma malformed_parsed_throws (n : nat) (parsed : json) :
  structured parsed = false -> exists e, judge_parsed n parsed = Throw e.
Proof.
  intro Hs. unfold judge_parsed.
  destruct parsed as [| b | q | str | items | fields]; cbn; eauto.
  cbn in Hs.
  destruct (lookup "selectedIndex" fields) as [[| b | q | str | items | fs] |]; cbn; eauto.
  destruct (lookup "scores" fields) as [[| b | q' | str | items | fs] |]; cbn; eauto.
  destruct (with_total_null_throws items Hs) as [e He]. rewrite He. eauto.
Qed.

Lemma judge_parsed_in_bounds (n : nat) (parsed : json) (j : JudgeResult) :
  (1 <= n)%nat -> judge_parsed n parsed = Ok j ->
  0 <= selectedIndex j /\ selectedIndex j <= inject_Z (Z.of_nat n) - 1.
Proof.
  intros Hn. unfold judge_parsed.
  destruct (get (Some parsed) "selectedIndex") as [sel | e]; [|discriminate].
  destruct (as_number sel) as [i |]; [|discriminate].
  destruct (as_array (get_opt (Some parsed) "scores")) as [items |]; [|discriminate].
  destruct (map_outcome with_total items) as [scored | e]; [|discriminate].
  intro Hj. injection Hj as <-. cbn [selectedIndex].
  apply clamp_index_range.
  assert (inject_Z 1 <= inject_Z (Z.of_nat n)) by (rewrite <- Zle_Qle; lia).
  change (inject_Z 1) with 1 in *. lra.
Qed.

Lemma fallback_shape (n : nat) :
  selectedIndex (fallback n) = 0
  /\ List.length (scores (fallback n)) = n
  /\ (forall sc, In sc (scores (fallback n)) -> sc = flat 70).
Proof.
  repeat split.
  - cbn. apply repeat_length.
  - cbn. intros sc Hin. now apply repeat_spec in Hin.
Qed.

(** When the model's index is a whole number, the index returned is a
    position of the candidate list. *)
Lemma judge_integer_index_selects (candidates : list Generation.CodeCandidate)
    (fields : list (string * json)) (z : Z) (j : JudgeResult) :
  (1 <= List.length candidates)%nat ->
  lookup "selectedIndex" fields = Some (JNum (inject_Z z)) ->
  judgeCode candidates (Parsed (JObj fields)) = Ok j ->
  exists c, index candidates (selectedIndex j) = Some c.
Proof.
  intros Hn Hsel Hj.
  assert (Hint : exists k : nat, (k < List.length candidates)%nat
                   /\ selectedIndex j == inject_Z (Z.of_nat k)).
  { revert Hj. unfold judgeCode.
    destruct (List.length candidates =? 1)%nat eqn:E1.
    - intro Hj. injection Hj as <-. exists 0%nat. split; [lia | reflexivity].
    - unfold judge_parsed. cbn [get]. rewrite Hsel. cbn [as_number].
      destruct (as_array _) as [items |];
        [|intro Hj; injection Hj as <-; exists 0%nat; split; [lia | reflexivity]].
      destruct (map_outcome with_total items) as [scored | e];
        [|intro Hj; injection Hj as <-; exists 0%nat; split; [lia | reflexivity]].
      intro Hj. injection Hj as <-. cbn [selectedIndex].
      set (n := List.length candidates) in *.
      assert (Hn1 : inject_Z (Z.of_nat n) - 1 == inject_Z (Z.of_nat (n - 1))).
      { rewrite Nat2Z.inj_sub by lia. unfold Z.sub. rewrite inject_Z_plus.
        reflexivity. }
      unfold Math_max, Math_min.
      destruct (Qle_bool (inject_Z z) (inject_Z (Z.of_nat n) - 1)) eqn:Ehi.
      + destruct (Qle_bool 0 (inject_Z z)) eqn:Elo.
        * apply Qle_bool_iff in Ehi, Elo. rewrite Hn1 in Ehi.
          change 0 with (inject_Z 0) in Elo. rewrite <- Zle_Qle in Ehi, Elo.
          exists (Z.to_nat z). split; [lia|]. rewrite Z2Nat.id by lia. reflexivity.
        * exists 0%nat. split; [lia | reflexivity].
      + destruct (Qle_bool 0 (inject_Z (Z.of_nat n) - 1)).
        * exists (n - 1)%nat. split; [lia | exact Hn1].
        * exists 0%nat. split; [lia | reflexivity]. }
  destruct Hint as (k & Hk & Heq).
  unfold index. rewrite (Qfloor_comp _ _ Heq), Qfloor_Z.
  assert (Hb : Qeq_bool (inject_Z (Z.of_nat k)) (selectedIndex j) = true).
  { apply Qeq_bool_iff. now symmetry. }
  rewrite Hb. assert (Hz : (0 <=? Z.of_nat k)%Z = true) by (apply Z.leb_le; lia).
  rewrite Hz. cbn [andb]. rewrite Nat2Z.id.
  destruct (nth_error candidates k) as [c |] eqn:En; [eauto|].
  apply nth_error_None in En. lia.
Qed.

(** Whatever response the judge model gives, the index returned lies,
    as a number, between 0 and N-1; with two or more candidates a
    malformed response yields exactly the fallback. *)
Lemma judge_numeric_bound (candidates : list Generation.CodeCandidate) (r : reply) :
  let n := List.length candidates in
  (1 <= n)%nat ->
  (forall j, judgeCode candidates r = Ok j ->
     0 <= selectedIndex j /\ selectedIndex j <= inject_Z (Z.of_nat n) - 1)
  /\ ((forall e, r <> CallFailed e) -> exists j, judgeCode candidates r = Ok j)
  /\ (malformed r -> (2 <= n)%nat ->
      judgeCode candidates r = Ok (fallback n)
      /\ selectedIndex (fallback n) = 0
      /\ scores (fallback n) = repeat (flat 70) n).
Proof.
  cbv zeta. unfold judgeCode. generalize (List.length candidates) as n. intros n Hn.
  assert (Hzero : 0 <= selectedIndex (fallback n)
                  /\ selectedIndex (fallback n) <= inject_Z (Z.of_nat n) - 1).
  { assert (inject_Z 1 <= inject_Z (Z.of_nat n)) by (rewrite <- Zle_Qle; lia).
    change (inject_Z 1) with 1 in *. cbn. split; lra. }
  destruct (n =? 1)%nat eqn:E1.
  - apply Nat.eqb_eq in E1. split; [|split].
    + intros j Hj. injection Hj as <-. exact Hzero.
    + eauto.
    + intros _ Hn2. lia.
  - split; [|split].
    + intros j Hj.
      destruct r as [e | e | parsed]; [discriminate Hj | injection Hj as <-; exact Hzero |].
      destruct (judge_parsed n parsed) as [res | e] eqn:Ep.
      * injection Hj as <-. eapply judge_parsed_in_bounds; eauto.
      * injection Hj as <-. exact Hzero.
    + intro Hcall.
      destruct r as [e | e | parsed]; [exfalso; eapply Hcall; reflexivity | eauto |].
      destruct (judge_parsed n parsed); eauto.
    + intros Hbad _.
      destruct r as [e | e | parsed]; [contradiction | repeat split |].
      cbn in Hbad. destruct (malformed_parsed_throws n parsed Hbad) as [e He].
      rewrite He. repeat split.
Qed.

(** A number is whole when it equals its integer part. *)
Definition whole (q : Q) : bool := Qeq_bool (inject_Z (Qfloor q)) q.

Lemma whole_of_Z (q : Q) (z : Z) : q == inject_Z z -> whole q = true.
Proof.
  intro Hq. unfold whole. apply Qeq_bool_iff.
  rewrite (Qfloor_comp _ _ Hq), Qfloor_Z. now symmetry.
Qed.

(** A whole number between 0 and the last position reads an element. *)
Lemma index_of_whole {A : Type} (xs : list A) (q : Q) :
  whole q = true -> 0 <= q -> q <= inject_Z (Z.of_nat (List.length xs)) - 1 ->
  exists x, index xs q = Some x.
Proof.
  intros Hw Hlo Hhi. unfold index. unfold whole in Hw. rewrite Hw.
  apply Qeq_bool_iff in Hw.
  assert (Hz : (0 <= Qfloor q)%Z).
  { change 0%Z with (Qfloor 0). now apply Qfloor_resp_le. }
  assert (Hb : (0 <=? Qfloor q)%Z = true) by now apply Z.leb_le.
  rewrite Hb. cbn [andb].
  assert (Hlt : (Qfloor q < Z.of_nat (List.length xs))%Z).
  { assert (Hq : inject_Z (Qfloor q) <= inject_Z (Z.of_nat (List.length xs) - 1)).
    { rewrite Hw. unfold Z.sub. rewrite inject_Z_plus. exact Hhi. }
    rewrite <- Zle_Qle in Hq. lia. }
  destruct (nth_error xs (Z.to_nat (Qfloor q))) as [x |] eqn:En; [eauto|].
  apply nth_error_None in En. lia.
Qed.

(** A number with a fractional part reads nothing. *)
Lemma index_of_fraction {A : Type} (xs : list A) (q : Q) :
  whole q = false -> index xs q = None.
Proof. intro Hw. unfold index. unfold whole in Hw. now rewrite Hw. Qed.

(** The index of a parsed response is 0, the last position, or the
    model's own number. *)
Lemma judge_parsed_index (n : nat) (parsed : json) (j : JudgeResult) :
  judge_parsed n parsed = Ok j ->
  exists fields i,
    parsed = JObj fields /\ lookup "selectedIndex" fields = Some (JNum i)
    /\ (selectedIndex j = 0 \/ selectedIndex j = inject_Z (Z.of_nat n) - 1
        \/ selectedIndex j = i).
Proof.
  unfold judge_parsed.
  destruct parsed as [| b | q | str | items | fields]; cbn [get as_number];
    try discriminate.
  destruct (lookup "selectedIndex" fields) as [[| b | i | str | items | fs] |] eqn:El;
    cbn [as_number]; try discriminate.
  destruct (as_array _) as [items |]; [|discriminate].
  destruct (map_outcome with_total items) as [scored | e]; [|discriminate].
  intro Hj. injection Hj as <-. cbn [selectedIndex].
  exists fields, i. split; [reflexivity|]. split; [exact El|].
  unfold Math_max, Math_min.
  destruct (Qle_bool i _); destruct (Qle_bool 0 _); tauto.
Qed.

(** Response samples for two candidates: an index out of range, and an
    index that is in range but not whole. *)
Definition two_candidates : list Generation.CodeCandidate :=
  [ {| Generation.code := "a = 1"; Generation.model := "gpt-4.1-mini";
       Generation.role := Generation.primary; Generation.generatedAt := 0 |};
    {| Generation.code := "b = 2"; Generation.model := "gpt-4o-mini";
       Generation.role := Generation.alternative; Generation.generatedAt := 0 |} ].

Definition index_seven : reply :=
  Parsed (JObj [("selectedIndex", JNum 7); ("scores", JArr []); ("reasoning", JStr "ok")]).

Definition index_half : reply :=
  Parsed (JObj [("selectedIndex", JNum (1 # 2)); ("scores", JArr []);
                ("reasoning", JStr "ok")]).

Example index_seven_is_clamped :
  exists j, judgeCode two_candidates index_seven = Ok j /\ selectedIndex j = 1.
Proof. eexists. split; reflexivity. Qed.




(** C4 at the failing input: with two (or more) candidates the judge
    model call is made, and when that call throws [judgeCode] throws the
    same error instead of returning its fallback. *)
Theorem judge_call_failure_propagates
    (c1 c2 : Generation.CodeCandidate) (more : list Generation.CodeCandidate) (e : string) :
  judgeCode (c1 :: c2 :: more) (CallFailed e) = Throw e.
Proof. reflexivity. Qed.

(** Whatever the model call does, [judgeCode] stays silent on parse and
    structure failures: a throw can only be the model call's own. *)
Lemma judge_throws_only_on_call_failure
    (candidates : list Generation.CodeCandidate) (r : reply) (e : string) :
  judgeCode candidates r = Throw e -> r = CallFailed e.
Proof.
  unfold judgeCode.
  destruct (List.length candidates =? 1)%nat; [discriminate|].
  destruct r as [e' | e' | parsed]; try discriminate.
  - intro Ht. now injection Ht as ->.
  - destruct (judge_parsed (List.length candidates) parsed); discriminate.
Qed.

End JudgeFacts.

(** ** Model gateway *)

Module GatewayFacts.
Import Gateway.
Local Open Scope nat_scope.

Definition is_request (e : Effect) : bool :=
  match e with Request _ => true | Sleep _ => false end.

Definition requests (l : list Effect) : nat := List.length (filter is_request l).

(** The effects of a call that made [k] attempts starting at attempt
    [from]: a request per attempt, and the back-off delay between two
    attempts. *)
Fixpoint schedule (cfg : Retry) (from k : nat) : list Effect :=
  match k with
  | O => []
  | S O => [Request from]
  | S k' => Request from :: Sleep (backoff cfg from) :: schedule cfg (S from) k'
  end.

Lemma schedule_requests (cfg : Retry) (k from : nat) : requests (schedule cfg from k) = k.
Proof.
  revert from. induction k as [| k IH]; intro from; [reflexivity|].
  destruct k as [| k]; [reflexivity|].
  change (requests (schedule cfg from (S (S k))))
    with (S (requests (schedule cfg (S from) (S k)))).
  now rewrite IH.
Qed.

Lemma chat_loop_schedule (cfg : Retry) (model : string) (api : nat -> ChatAttempt)
    (left attempt : nat) :
  1 <= left -> attempt + left = S (maxAttempts cfg) ->
  exists k, (1 <= k <= left)%nat
    /\ fst (chat_loop cfg model api left attempt) = schedule cfg attempt k
    /\ (forall i, (attempt <= i < attempt + k - 1)%nat ->
          exists e, chat_try (api i) = inl e /\ isRetryable e = true)
    /\ match snd (chat_loop cfg model api left attempt) with
       | Ok content => chat_try (api (attempt + k - 1)) = inr content
       | Throw msg =>
           exists e, chat_try (api (attempt + k - 1)) = inl e
             /\ msg = "Azure API error (" ++ model ++ "): " ++ message e
             /\ (isRetryable e = false \/ attempt + k - 1 = maxAttempts cfg)
       end.
Proof.
  revert attempt. induction left as [| left IH]; intros attempt Hl Hsum; [lia|].
  cbn [chat_loop].
  destruct (chat_try (api attempt)) as [e | content] eqn:Etry.
  - destruct ((attempt =? maxAttempts cfg)%nat || negb (isRetryable e)) eqn:Estop.
    + exists 1. cbn [fst snd schedule].
      replace (attempt + 1 - 1) with attempt by lia.
      split; [lia|]. split; [reflexivity|]. split; [intros i Hi; lia|].
      exists e. split; [exact Etry|]. split; [reflexivity|].
      apply orb_true_iff in Estop as [Hm | Hr].
      * right. now apply Nat.eqb_eq in Hm.
      * left. now apply negb_true_iff in Hr.
    + apply orb_false_iff in Estop as [Hm Hr].
      apply Nat.eqb_neq in Hm. apply negb_false_iff in Hr.
      assert (Hleft : 1 <= left) by lia.
      assert (Hsum' : S attempt + left = S (maxAttempts cfg)) by lia.
      destruct (IH (S attempt) Hleft Hsum') as (k & Hk & Heff & Hretry & Hres).
      exists (S k).
      destruct (chat_loop cfg model api left (S attempt)) as [effects result].
      cbn [fst snd] in *.
      replace (attempt + S k - 1) with (S attempt + k - 1) by lia.
      split; [lia|]. split; [|split].
      * rewrite Heff. destruct k as [| k]; [lia|]. reflexivity.
      * intros i Hi. destruct (Nat.eq_dec i attempt) as [-> | Hne].
        -- exists e. split; assumption.
        -- apply Hretry. lia.
      * exact Hres.
  - exists 1. cbn [fst snd schedule].
    replace (attempt + 1 - 1) with attempt by lia.
    split; [lia|]. split; [reflexivity|]. split; [intros i Hi; lia|]. exact Etry.
Qed.

(** What C8 says of [chatCompletion] holds: at most [maxAttempts]
    requests, a retry only after a retryable error, the back-off delay
    between attempts, and an explicit error at the end. *)
Lemma chatCompletion_retry_policy (cfg : Retry) (model : string) (api : nat -> ChatAttempt) :
  (1 <= maxAttempts cfg)%nat ->
  exists k, (1 <= k <= maxAttempts cfg)%nat
    /\ fst (chatCompletionWith cfg model api) = schedule cfg 1 k
    /\ requests (fst (chatCompletionWith cfg model api)) = k
    /\ (forall i, (1 <= i < k)%nat ->
          exists e, chat_try (api i) = inl e /\ isRetryable e = true)
    /\ match snd (chatCompletionWith cfg model api) with
       | Ok content => chat_try (api k) = inr content
       | Throw msg =>
           exists e, chat_try (api k) = inl e
             /\ msg = "Azure API error (" ++ model ++ "): " ++ message e
             /\ (isRetryable e = false \/ k = maxAttempts cfg)
       end.
Proof.
  intro Hmax. unfold chatCompletionWith.
  assert (Hsum : 1 + maxAttempts cfg = S (maxAttempts cfg)) by reflexivity.
  destruct (chat_loop_schedule cfg model api (maxAttempts cfg) 1 Hmax Hsum)
    as (k & Hk & Heff & Hretry & Hres).
  exists k. replace (1 + k - 1) with k in * by lia.
  split; [lia|]. split; [exact Heff|]. split; [rewrite Heff; apply schedule_requests|].
  split; [|exact Hres].
  intros i Hi. apply Hretry. lia.
Qed.

Lemma backoff_values :
  map (backoff (retry ENGINE_CONFIG)) [1; 2; 3; 4; 5; 6]%nat
  = [1000; 2000; 4000; 8000; 10000; 10000]%Z.
Proof. reflexivity. Qed.

Definition unauthorized : ApiError :=
  {| status := Some 401%Z; code := None; message := "401 Unauthorized" |}.

(** The two gateway calls on the same non-retryable error. *)
Example chatCompletion_gives_up_on_401 :
  chatCompletion "gpt-4o-mini" (fun _ => ChatFailed unauthorized)
  = ([Request 1], Throw "Azure API error (gpt-4o-mini): 401 Unauthorized").
Proof. reflexivity. Qed.

(** [createEmbedding] asks again after any failed first attempt, whatever
    the error, as long as the budget allows a second attempt. *)
Lemma createEmbedding_retries_first_failure (cfg : Retry) (api : nat -> EmbeddingAttempt)
    (e : ApiError) :
  2 <= maxAttempts cfg ->
  embedding_try (api 1) = inl e ->
  exists rest,
    fst (createEmbeddingWith cfg api)
    = Request 1 :: Sleep (backoff cfg 1) :: Request 2 :: rest.
Proof.
  intros Hmax Hfail. unfold createEmbeddingWith.
  destruct (maxAttempts cfg) as [| [| n]] eqn:Em; [lia | lia |].
  cbn [embedding_loop]. rewrite Hfail, Em. cbn [Nat.eqb].
  destruct (embedding_try (api 2)) as [e2 | v].
  - destruct n as [| n].
    + exists []. reflexivity.
    + cbn [Nat.eqb]. destruct (embedding_loop cfg api (S n) 3) as [effects result].
      exists (Sleep (backoff cfg 2) :: effects). reflexivity.
  - exists []. reflexivity.
Qed.

(** C8 at the failing input: the embedding endpoint rejects the first
    attempt with HTTP 401, an error that is not in the retryable set, and
    answers the second.  [createEmbedding] sleeps and retries instead of
    propagating the error; when the endpoint keeps answering 401 it uses
    the whole attempt budget. *)
Theorem createEmbedding_retries_any_error (v : list Q) :
  isRetryable unauthorized = false
  /\ createEmbedding (fun attempt => match attempt with
                                     | 1%nat => EmbeddingFailed unauthorized
                                     | _ => EmbeddingAnswered [v]
                                     end)
     = ([Request 1; Sleep 1000; Request 2], Ok v)
  /\ createEmbedding (fun _ => EmbeddingFailed unauthorized)
     = ([Request 1; Sleep 1000; Request 2; Sleep 2000; Request 3],
        Throw "Embedding API error: 401 Unauthorized").
Proof. repeat split. Qed.

End GatewayFacts.

(** ** Retrieval *)

Module RetrievalFacts.
Import Retrieval DocChunk NumberFacts Samples.

(** The specification's fallback: the top-K chunks by raw cosine
    similarity, whatever the threshold. *)
Definition ranked_by_similarity `{Gateway.Sqrt}
    (taskEmbedding : list Q) (k : nat) (cachedChunks : list IDocChunk) : list string :=
  map s_text
    (firstn k
       (sort_by_score
          (map (fun chunk =>
                  {| s_text := text chunk;
                     s_score := Gateway.cosineSimilarity taskEmbedding (embedding chunk) |})
               (filter has_embedding cachedChunks)))).

Section Cached.
Context `{Gateway.Sqrt}.
Variable createEmbedding : string -> outcome (list Q).

(** On the cached path, when no chunk clears the threshold the result is
    the first [maxChunks] chunks in stored order with the fixed similarity
    0.5; the scores play no part. *)
Lemma from_cache_below_threshold (taskEmbedding : list Q) (o : Options)
    (cachedChunks : list IDocChunk) :
  (forall c, In c cachedChunks ->
     Gateway.cosineSimilarity taskEmbedding (embedding c) < similarityThreshold o) ->
  from_cache (Ok taskEmbedding) o cachedChunks
  = Ok {| context := Text.join separator (map text (firstn (maxChunks o) cachedChunks));
          similarity := 1 # 2 |}.
Proof.
  intro Hlow. unfold from_cache.
  assert (Hnone :
    filter (clears (similarityThreshold o))
      (map (fun chunk =>
              {| s_text := text chunk;
                 s_score := Gateway.cosineSimilarity taskEmbedding (embedding chunk) |})
           (filter has_embedding cachedChunks)) = []).
  { induction cachedChunks as [| c rest IH]; [reflexivity|].
    cbn [filter]. destruct (has_embedding c).
    - cbn [map filter]. unfold clears at 1. cbn [s_score].
      assert (Hc : geq (Gateway.cosineSimilarity taskEmbedding (embedding c))
                       (similarityThreshold o) = false).
      { apply geq_false_iff. apply Hlow. now left. }
      rewrite Hc. apply IH. intros c' Hin. apply Hlow. now right.
    - apply IH. intros c' Hin. apply Hlow. now right. }
  rewrite Hnone. cbn. destruct (maxChunks o); reflexivity.
Qed.

(** When some chunk clears the threshold, the similarity returned is the
    arithmetic mean of the selected chunks' scores. *)
Lemma from_cache_mean (taskEmbedding : list Q) (o : Options)
    (cachedChunks : list IDocChunk) (r : Retrieved) (selected : list Scored) :
  selected =
    firstn (maxChunks o)
      (sort_by_score
         (filter (clears (similarityThreshold o))
            (map (fun chunk =>
                    {| s_text := text chunk;
                       s_score := Gateway.cosineSimilarity taskEmbedding (embedding chunk) |})
                 (filter has_embedding cachedChunks)))) ->
  selected <> [] ->
  from_cache (Ok taskEmbedding) o cachedChunks
  = Ok {| context := Text.join separator (map s_text selected);
          similarity := total_score selected / inject_Z (Z.of_nat (List.length selected)) |}.
Proof.
  intros -> Hne. unfold from_cache.
  match goal with |- context [(0 <? List.length ?l)%nat] => destruct l as [| x l'] eqn:E end;
    [contradiction|].
  reflexivity.
Qed.

End Cached.

(** Six stored chunks of one document.  Against the task embedding
    (1, 0) the first five score 0 and the last one 5/13; all are below the
    default threshold 0.4. *)
Definition stored (i : nat) (body : string) (e : list Q) : IDocChunk :=
  {| DocChunk.docId := "doc-1"; url := "https://example.org/api"; urlHash := "h";
     DocChunk.version := "latest"; chunkIndex := i; text := body; embedding := e;
     tokenCount := 1 |}.

Definition six_chunks : Collection :=
  [ stored 0 "intro" [0; 1]; stored 1 "install" [0; 1]; stored 2 "licence" [0; 1];
    stored 3 "changelog" [0; 1]; stored 4 "credits" [0; 1];
    stored 5 "listdir reference" [5; 12] ].

Definition by_document : Options :=
  {| docUrl := None; Retrieval.docId := Some "doc-1"; Retrieval.version := None;
     maxChunks := 5; similarityThreshold := 4 # 10 |}.

(** C7 at the failing input: stored chunks exist and none clears the
    threshold.  [retrieveRelevantDocs] returns the first five chunks in
    stored order and leaves out the only chunk with a positive score,
    which ranking by raw cosine similarity puts first. *)
Theorem cached_fallback_ignores_similarity :
  let r := @retrieveRelevantDocs sqrt_of_squares (fun u => u) (Ok [1; 0])
             (fun _ => Throw "unused") six_chunks "" by_document in
  context r
  = Text.join separator ["intro"; "install"; "licence"; "changelog"; "credits"]
  /\ similarity r = 1 # 2
  /\ @ranked_by_similarity sqrt_of_squares [1; 0] 5 six_chunks
     = ["listdir reference"; "intro"; "install"; "licence"; "changelog"]
  /\ context r
     <> Text.join separator
          (@ranked_by_similarity sqrt_of_squares [1; 0] 5 six_chunks).
Proof.
  cbv zeta. repeat split; try (vm_compute; reflexivity).
  vm_compute. discriminate.
Qed.

End RetrievalFacts.

(** ** Text and chunking *)

Module TextFacts.
Import Text Split.

(** A text without visible characters. *)
Definition blank (l : list ascii) : bool := forallb is_space l.

Lemma chars_text (l : list ascii) : chars (text l) = l.
Proof. apply list_ascii_of_string_of_list_ascii. Qed.

Lemma text_chars (s : string) : text (chars s) = s.
Proof. apply string_of_list_ascii_of_string. Qed.

Lemma chars_append (a b : string) : chars (a ++ b) = (chars a ++ chars b)%list.
Proof.
  unfold chars. induction a as [| c a IH]; [reflexivity|].
  cbn. now rewrite IH.
Qed.

Lemma blank_cons (c : ascii) (l : list ascii) : blank (c :: l) = is_space c && blank l.
Proof. reflexivity. Qed.

Lemma blank_app (a b : list ascii) : blank (a ++ b) = blank a && blank b.
Proof. apply forallb_app. Qed.

Lemma blank_rev (l : list ascii) : blank (rev l) = blank l.
Proof.
  induction l as [| c l IH]; [reflexivity|].
  cbn [rev]. rewrite blank_app, IH. cbn. rewrite andb_true_r. apply andb_comm.
Qed.

Lemma drop_space_nil (l : list ascii) : blank l = true -> drop_space l = [].
Proof.
  induction l as [| c l IH]; [reflexivity|].
  cbn. destruct (is_space c); [exact IH | discriminate].
Qed.

Lemma drop_space_keeps (l : list ascii) : blank l = false -> blank (drop_space l) = false.
Proof.
  induction l as [| c l IH]; [discriminate|].
  cbn. destruct (is_space c) eqn:E; [exact IH|].
  intros _. cbn. now rewrite E.
Qed.

Lemma trim_chars_blank (l : list ascii) : blank l = true -> trim_chars l = [].
Proof.
  intro Hb. unfold trim_chars. now rewrite (drop_space_nil l Hb).
Qed.

Lemma trim_chars_keeps (l : list ascii) : blank l = false -> blank (trim_chars l) = false.
Proof.
  intro Hb. unfold trim_chars. rewrite blank_rev.
  apply drop_space_keeps. rewrite blank_rev. now apply drop_space_keeps.
Qed.

Lemma eqb_empty_chars (s : string) : String.eqb s "" = true <-> chars s = [].
Proof.
  rewrite String.eqb_eq. destruct s; cbn; split; congruence.
Qed.

Lemma trim_empty_iff (s : string) : String.eqb (trim s) "" = true <-> blank (chars s) = true.
Proof.
  rewrite eqb_empty_chars. unfold trim. rewrite chars_text. split.
  - intro Ht. destruct (blank (chars s)) eqn:E; [reflexivity|].
    apply trim_chars_keeps in E. rewrite Ht in E. discriminate.
  - apply trim_chars_blank.
Qed.

Lemma long_after_trim_visible (s : string) (n : nat) :
  (String.length (trim s) <? S n)%nat = false -> blank (chars s) = false.
Proof.
  intro Hlen. destruct (blank (chars s)) eqn:E; [|reflexivity].
  apply trim_empty_iff in E. apply String.eqb_eq in E. rewrite E in Hlen. discriminate.
Qed.

Lemma is_nl_space (c : ascii) : is_nl c = true -> is_space c = true.
Proof.
  unfold is_nl, is_space. intro Hc. apply Nat.eqb_eq in Hc. now rewrite Hc.
Qed.

(** Splitting loses only white space: a text with a visible character
    has a paragraph with one. *)
Lemma paragraphs_from_keep (n : nat) :
  forall (l piece : list ascii) (skipping : bool),
    (List.length l <= n)%nat ->
    blank piece = false \/ blank l = false ->
    exists p, In p (paragraphs_from skipping piece l) /\ blank p = false.
Proof.
  induction n as [| n IH]; intros l piece skipping Hlen Hvis.
  - destruct l; [|cbn in Hlen; lia].
    destruct Hvis as [Hp | Hl]; [|discriminate].
    exists (rev piece). split; [now left | now rewrite blank_rev].
  - destruct l as [| c rest].
    + destruct Hvis as [Hp | Hl]; [|discriminate].
      exists (rev piece). split; [now left | now rewrite blank_rev].
    + cbn [List.length] in Hlen. cbn [paragraphs_from].
      rewrite blank_cons in Hvis.
      destruct (is_nl c) eqn:Enl; cbn [negb].
      * pose proof (is_nl_space c Enl) as Hsp. rewrite Hsp in Hvis. cbn [andb] in Hvis.
        destruct skipping.
        -- apply IH; [lia | exact Hvis].
        -- destruct rest as [| c2 rest2].
           ++ apply IH; [cbn; lia|]. left. rewrite blank_cons, Hsp. cbn [andb].
              destruct Hvis as [Hp | Hr]; [exact Hp | discriminate].
           ++ destruct (is_nl c2) eqn:Enl2.
              ** destruct (blank piece) eqn:Ep.
                 --- destruct Hvis as [Hp | Hr]; [discriminate|].
                     rewrite blank_cons, (is_nl_space c2 Enl2) in Hr. cbn [andb] in Hr.
                     destruct (IH rest2 [] true) as (p & Hin & Hp).
                     { cbn [List.length] in Hlen. lia. }
                     { now right. }
                     exists p. split; [now right | exact Hp].
                 --- exists (rev piece). split; [now left | now rewrite blank_rev].
              ** apply IH; [lia|].
                 destruct Hvis as [Hp | Hr]; [|now right].
                 left. rewrite blank_cons, Hsp. exact Hp.
      * apply IH; [lia|].
        destruct (is_space c) eqn:Esp; cbn [andb] in Hvis.
        -- destruct Hvis as [Hp | Hl]; [|now right].
           left. rewrite blank_cons, Esp. exact Hp.
        -- left. rewrite blank_cons, Esp. reflexivity.
Qed.

Lemma sentences_from_keep :
  forall (l piece : list ascii) (after_mark skipping : bool),
    blank piece = false \/ blank l = false ->
    exists p, In p (sentences_from after_mark skipping piece l) /\ blank p = false.
Proof.
  induction l as [| c rest IH]; intros piece after_mark skipping Hvis.
  - destruct Hvis as [Hp | Hl]; [|discriminate].
    exists (rev piece). split; [now left | now rewrite blank_rev].
  - cbn [sentences_from]. rewrite blank_cons in Hvis.
    destruct (is_space c) eqn:Esp; cbn [andb] in Hvis.
    + destruct skipping.
      * apply IH. exact Hvis.
      * destruct after_mark.
        -- destruct (blank piece) eqn:Ep.
           ++ destruct Hvis as [Hp | Hr]; [discriminate|].
              destruct (IH [] false true) as (p & Hin & Hp); [now right|].
              exists p. split; [now right | exact Hp].
           ++ exists (rev piece). split; [now left | now rewrite blank_rev].
        -- apply IH. destruct Hvis as [Hp | Hr]; [|now right].
           left. rewrite blank_cons, Esp. exact Hp.
    + apply IH. left. rewrite blank_cons, Esp. reflexivity.
Qed.

Lemma paragraphs_keep (s : string) :
  blank (chars s) = false ->
  exists p, In p (paragraphs s) /\ blank (chars p) = false.
Proof.
  intro Hvis.
  destruct (paragraphs_from_keep (List.length (chars s)) (chars s) [] false) as (p & Hin & Hp);
    [lia | now right |].
  exists (text p). split.
  - unfold paragraphs. now apply in_map.
  - now rewrite chars_text.
Qed.

Lemma sentences_keep (s : string) :
  blank (chars s) = false ->
  exists p, In p (sentences s) /\ blank (chars p) = false.
Proof.
  intro Hvis.
  destruct (sentences_from_keep (chars s) [] false false) as (p & Hin & Hp); [now right|].
  exists (text p). split.
  - unfold sentences. now apply in_map.
  - now rewrite chars_text.
Qed.

End TextFacts.

(** ** Document ingestion *)

Module IngestionFacts.
Import Text Split TextFacts DocChunk Ingestion Samples.

(** Something visible has been kept: a chunk was pushed, or the text
    being accumulated has a visible character. *)
Definition keeps (st : Chunking) : Prop :=
  chunks st <> [] \/ blank (chars (current st)) = false.

Lemma nonempty_visible (s : string) : blank (chars s) = false -> nonempty s = true.
Proof.
  intro Hvis. unfold nonempty. destruct (String.eqb s "") eqn:E; [|reflexivity].
  apply String.eqb_eq in E. subst s. discriminate.
Qed.

Lemma visible_append_l (a b : string) :
  blank (chars a) = false -> blank (chars (a ++ b)) = false.
Proof. intro Ha. now rewrite chars_append, blank_app, Ha. Qed.

Lemma visible_append_r (a b : string) :
  blank (chars b) = false -> blank (chars (a ++ b)) = false.
Proof. intro Hb. rewrite chars_append, blank_app, Hb. apply andb_false_r. Qed.

Lemma app_not_nil {A : Type} (l : list A) (x : A) : List.app l [x] <> [].
Proof. destruct l; discriminate. Qed.

Lemma fold_keeps (step : Chunking -> string -> Chunking) :
  (forall st p, keeps st -> keeps (step st p)) ->
  (forall st p, blank (chars p) = false -> keeps (step st p)) ->
  forall ps st,
    keeps st \/ (exists p, In p ps /\ blank (chars p) = false) ->
    keeps (fold_left step ps st).
Proof.
  intros Hpres Hnew. induction ps as [| q ps IH]; intros st Hst; cbn [fold_left].
  - destruct Hst as [Hk | (p & [] & _)]. exact Hk.
  - apply IH. destruct Hst as [Hk | (p & [-> | Hin] & Hp)].
    + left. now apply Hpres.
    + left. now apply Hnew.
    + right. eauto.
Qed.

Lemma add_sentence_keeps (maxTokens : nat) (st : Chunking) (sentence : string) :
  keeps st \/ blank (chars sentence) = false -> keeps (add_sentence maxTokens st sentence).
Proof.
  intro Hk. unfold add_sentence.
  destruct ((maxTokens <? _)%nat && nonempty (current st)) eqn:Epush.
  - left. cbn [chunks]. apply app_not_nil.
  - unfold keeps. cbn [chunks current].
    destruct Hk as [[Hc | Hcur] | Hs].
    + now left.
    + right. rewrite (nonempty_visible _ Hcur). now apply visible_append_l.
    + right. destruct (nonempty (current st)); [|exact Hs].
      apply visible_append_r. now apply visible_append_r.
Qed.

Lemma add_paragraph_keeps (maxTokens : nat) (st : Chunking) (para : string) :
  keeps st \/ blank (chars para) = false -> keeps (add_paragraph maxTokens st para).
Proof.
  intro Hk. unfold add_paragraph.
  set (combined := if nonempty (current st) then current st ++ blank_line ++ para else para).
  destruct ((maxTokens <? estimateTokens combined)%nat) eqn:Ebig; cbn [andb].
  - destruct (nonempty (current st)) eqn:Ecur.
    + left. cbn [chunks]. apply app_not_nil.
    + set (split := fold_left (add_sentence maxTokens) (sentences para)
                              {| chunks := chunks st; current := "" |}).
      assert (Hsplit : keeps split).
      { apply fold_keeps.
        - intros st' p Hst'. apply add_sentence_keeps. now left.
        - intros st' p Hp. apply add_sentence_keeps. now right.
        - destruct Hk as [[Hc | Hcur] | Hp].
          + left. now left.
          + rewrite (nonempty_visible _ Hcur) in Ecur. discriminate.
          + right. now apply sentences_keep. }
      unfold keeps. cbn [chunks current].
      destruct (nonempty (trim (current split))) eqn:Etrim.
      * exact Hsplit.
      * destruct Hsplit as [Hc | Hcur]; [now left|].
        unfold nonempty in Etrim. apply negb_false_iff in Etrim.
        apply trim_empty_iff in Etrim. congruence.
  - unfold keeps. cbn [chunks current]. subst combined.
    destruct Hk as [[Hc | Hcur] | Hp].
    + now left.
    + right. rewrite (nonempty_visible _ Hcur). now apply visible_append_l.
    + right. destruct (nonempty (current st)); [|exact Hp].
      apply visible_append_r. now apply visible_append_r.
Qed.

Lemma merge_into_last_not_nil (l : list string) (tail : string) :
  l <> [] -> merge_into_last l tail <> [].
Proof.
  intro Hl. unfold merge_into_last.
  destruct (rev l) as [| last before] eqn:E.
  - exact Hl.
  - cbn [rev]. apply app_not_nil.
Qed.

(** A document with a visible character yields at least one chunk. *)
Lemma chunkContent_not_nil (content : string) (minTokens maxTokens : nat) :
  blank (chars content) = false -> chunkContent content minTokens maxTokens <> [].
Proof.
  intro Hvis. unfold chunkContent.
  set (st := fold_left (add_paragraph maxTokens) (paragraphs content)
                       {| chunks := []; current := "" |}).
  assert (Hst : keeps st).
  { apply fold_keeps.
    - intros st' p Hst'. apply add_paragraph_keeps. now left.
    - intros st' p Hp. apply add_paragraph_keeps. now right.
    - right. now apply paragraphs_keep. }
  destruct (nonempty (trim (current st))) eqn:Erest; cbn [andb].
  - destruct (minTokens <=? 2 * estimateTokens (current st))%nat; [apply app_not_nil|].
    destruct (0 <? List.length (chunks st))%nat eqn:Elen; [|apply app_not_nil].
    apply merge_into_last_not_nil. destruct (chunks st); [discriminate Elen | discriminate].
  - destruct Hst as [Hc | Hcur]; [exact Hc|].
    unfold nonempty in Erest. apply negb_false_iff in Erest.
    apply trim_empty_iff in Erest. congruence.
Qed.

Lemma create_db (env : Env) (r : IDocChunk) (w w' : World) (o : outcome unit) :
  create env r w = (o, w') ->
  match o with
  | Ok _ => db w' = List.app (db w) [r]
  | Throw _ => w' = w
  end.
Proof.
  unfold create. destruct (accepts env r); intro Hc; injection Hc as <- <-; reflexivity.
Qed.

Lemma store_chunks_db (env : Env) (docId url h version : string) :
  forall (rest : list string) (i : nat) (w w' : World),
    store_chunks env docId url h version i rest w = (Ok tt, w') ->
    exists rows, db w' = List.app (db w) rows
      /\ List.length rows = List.length rest
      /\ Forall (fun r => urlHash r = h) rows.
Proof.
  induction rest as [| chunk rest IH]; intros i w w' Hs; cbn [store_chunks] in Hs.
  - injection Hs as <-. exists []. rewrite app_nil_r. repeat split. constructor.
  - unfold embed_and_create in Hs.
    set (w1 := record (CreateEmbedding chunk) w) in Hs.
    assert (Hdb1 : db w1 = db w) by reflexivity.
    assert (Hstep : forall w2 w3 e,
              create env (row docId url h version i chunk e) w2 = (Ok tt, w3) ->
              db w2 = db w ->
              store_chunks env docId url h version (S i) rest w3 = (Ok tt, w') ->
              exists rows, db w' = List.app (db w) rows
                /\ List.length rows = S (List.length rest)
                /\ Forall (fun r => urlHash r = h) rows).
    { intros w2 w3 e Hc Hdb2 Hrest.
      apply create_db in Hc. destruct (IH _ _ _ Hrest) as (rows & Hrows & Hlen & Hall).
      exists (row docId url h version i chunk e :: rows).
      split; [|split].
      - rewrite Hrows, Hc, Hdb2, <- app_assoc. reflexivity.
      - cbn. now rewrite Hlen.
      - constructor; [reflexivity | exact Hall]. }
    destruct (createEmbedding env chunk) as [e | err].
    + destruct (create env (row docId url h version i chunk e) w1) as [[[] | err] w2] eqn:Ec.
      * eapply Hstep; eauto.
      * pose proof (create_db _ _ _ _ _ Ec) as Hsame. cbn in Hsame. subst w2.
        destruct (create env (row docId url h version i chunk []) w1) as [[[] | err'] w3] eqn:Ec2;
          [eapply Hstep; eauto | discriminate Hs].
    + destruct (create env (row docId url h version i chunk []) w1) as [[[] | err'] w3] eqn:Ec2;
        [eapply Hstep; eauto | discriminate Hs].
Qed.

Lemma count_app (h : string) (stored rows : list IDocChunk) :
  Forall (fun r => urlHash r = h) rows ->
  countDocuments (hash_query h) (List.app stored rows)
  = (countDocuments (hash_query h) stored + List.length rows)%nat.
Proof.
  intro Hall. unfold countDocuments, find. rewrite filter_app, length_app. f_equal.
  induction Hall as [| r rows Hr Hall IH]; [reflexivity|].
  cbn [filter]. unfold matches at 1. cbn. rewrite Hr, String.eqb_refl. cbn. now rewrite IH.
Qed.

(** C9: when a call of [ingestDocument] for a URL without forced refresh
    has returned, a second such call for the same URL returns
    [cached = true], leaves the world as it was (no fetch, no embedding,
    no write: the effect log and the collection are unchanged) and reports
    the chunk count the first call reported, which is the number of chunks
    stored under that URL's hash. *)
Theorem ingest_twice_cached `{RegExp} (env : Env) (url : string)
    (w w1 : World) (r1 : IngestionResult) :
  ingestDocument env url {| forceRefresh := false |} w = (Ok r1, w1) ->
  exists r2,
    ingestDocument env url {| forceRefresh := false |} w1 = (Ok r2, w1)
    /\ cached r2 = true
    /\ chunkCount r2 = chunkCount r1
    /\ chunkCount r2
       = countDocuments (hash_query (hashUrl (sha256_hex env) url)) (db w1).
Proof.
  intro Hfirst.
  set (h := hashUrl (sha256_hex env) url) in *.
  assert (Hcached : forall w0, (0 <? countDocuments (hash_query h) (db w0))%nat = true ->
            exists r2, ingestDocument env url {| forceRefresh := false |} w0 = (Ok r2, w0)
              /\ cached r2 = true
              /\ chunkCount r2 = countDocuments (hash_query h) (db w0)).
  { intros w0 Hpos. unfold ingestDocument. fold h. cbn [forceRefresh negb andb].
    rewrite Hpos. eexists. split; [reflexivity|]. split; reflexivity. }
  unfold ingestDocument in Hfirst. fold h in Hfirst. cbn [forceRefresh negb andb] in Hfirst.
  destruct (0 <? countDocuments (hash_query h) (db w))%nat eqn:Epos.
  - injection Hfirst as <- <-.
    destruct (Hcached w Epos) as (r2 & Hrun & Hc & Hn).
    exists r2. repeat split; assumption.
  - set (w0 := record (FetchContent url) w) in Hfirst.
    destruct (fetchContent env url) as [raw | err]; [|discriminate Hfirst].
    destruct (String.eqb raw "" || (String.length (trim raw) <? 50)%nat) eqn:Eshort;
      [discriminate Hfirst|].
    apply orb_false_iff in Eshort as [_ Hlong].
    apply long_after_trim_visible in Hlong.
    destruct (store_chunks env (randomUUID env) url h (detectVersion url raw) 0
                (chunkContent raw 800 1200) w0) as [[[] | err] w2] eqn:Estore;
      [|discriminate Hfirst].
    injection Hfirst as <- <-.
    destruct (store_chunks_db _ _ _ _ _ _ _ _ _ Estore) as (rows & Hdb & Hlen & Hall).
    assert (Hcount : countDocuments (hash_query h) (db w2)
                     = List.length (chunkContent raw 800 1200)).
    { rewrite Hdb, count_app by exact Hall.
      change (db w0) with (db w).
      apply Nat.ltb_ge in Epos. rewrite Hlen. lia. }
    assert (Hpos : (0 <? countDocuments (hash_query h) (db w2))%nat = true).
    { rewrite Hcount. apply Nat.ltb_lt.
      pose proof (chunkContent_not_nil raw 800 1200 Hlong) as Hne.
      destruct (chunkContent raw 800 1200); [contradiction | cbn; lia]. }
    destruct (Hcached w2 Hpos) as (r2 & Hrun & Hc & Hn).
    exists r2. cbn [chunkCount]. rewrite Hn, Hcount. repeat split; assumption.
Qed.

(** A sample run: a page of plain text and an embedding service that
    always answers. *)
Definition sample_env : Env :=
  {| sha256_hex := fun u => "sha256:" ++ u;
     fetchContent := fun _ =>
       Ok "os.listdir(path) returns a list with the names of the entries in the directory.";
     createEmbedding := fun _ => Ok [1; 0];
     accepts := fun _ => true;
     randomUUID := "3f6c1a52-0000-4000-8000-000000000001" |}.

Definition empty_world : World := {| db := []; effects := [] |}.

Definition sample_url : string := "https://docs.python.org/3/library/os.html".

Definition first_result : IngestionResult :=
  Eval vm_compute in
    match fst (@ingestDocument no_match sample_env sample_url
                 {| forceRefresh := false |} empty_world) with
    | Ok r => r
    | Throw _ => {| r_docId := ""; r_url := ""; r_urlHash := ""; r_version := "";
                    chunkCount := 0; cached := false |}
    end.

Definition world_after_first : World :=
  Eval vm_compute in
    snd (@ingestDocument no_match sample_env sample_url
           {| forceRefresh := false |} empty_world).

Lemma ingest_twice_cached_witness :
  @ingestDocument no_match sample_env sample_url {| forceRefresh := false |} empty_world
  = (Ok first_result, world_after_first)
  /\ cached first_result = false
  /\ chunkCount first_result = 1%nat
  /\ exists r2,
       @ingestDocument no_match sample_env sample_url {| forceRefresh := false |}
         world_after_first = (Ok r2, world_after_first)
       /\ cached r2 = true
       /\ chunkCount r2 = chunkCount first_result
       /\ chunkCount r2
          = countDocuments (hash_query (hashUrl (sha256_hex sample_env) sample_url))
              (db world_after_first).
Proof.
  split; [vm_compute; reflexivity|].
  split; [reflexivity|]. split; [reflexivity|].
  apply (@ingest_twice_cached no_match sample_env sample_url empty_world
           world_after_first first_result).
  vm_compute. reflexivity.
Defined.

End IngestionFacts.

(** ** Orchestrator: stage records *)

Module StageFacts.
Import Orchestrator.

(** A record as [endStage] writes it. *)
Definition timed (x : StageRecord) : Prop :=
  status x = "completed"
  /\ exists t, completedAt x = Some t /\ durationMs x = Some (t - startedAt x)%Z.

(** Every stage begun so far has been ended. *)
Definition closed (r : Run) : Prop :=
  begun r = map name (stages r) /\ Forall timed (stages r).

(** Every stage begun so far has been ended, except [x], the last one. *)
Definition opened (x : string) (r : Run) : Prop :=
  begun r = List.app (map name (stages r)) [x] /\ Forall timed (stages r).

Definition interrupted (r : Run) : Prop := exists x, opened x r.

(** [m], started in a state with [P], returns in a state with [Q] or
    throws in a state with [interrupted]. *)
Definition triple {A : Type} (P : Run -> Prop) (m : M A) (Q : A -> Run -> Prop) : Prop :=
  forall r, P r ->
    match m r with
    | (Ok a, r') => Q a r'
    | (Throw _, r') => interrupted r'
    end.

Lemma triple_bind {A B : Type} (P : Run -> Prop) (m : M A) (Q : A -> Run -> Prop)
    (k : A -> M B) (R : B -> Run -> Prop) :
  triple P m Q -> (forall a, triple (Q a) (k a) R) -> triple P (bind m k) R.
Proof.
  intros Hm Hk r HP. unfold bind. specialize (Hm r HP).
  destruct (m r) as [[a | e] r']; [now apply Hk | exact Hm].
Qed.

Lemma triple_ret {A : Type} (P : Run -> Prop) (a : A) : triple P (ret a) (fun _ => P).
Proof. intros r HP. exact HP. Qed.

Lemma triple_weaken {A : Type} (P : Run -> Prop) (m : M A) (Q Q' : A -> Run -> Prop) :
  triple P m Q -> (forall a r, Q a r -> Q' a r) -> triple P m Q'.
Proof.
  intros Hm Hq r HP. specialize (Hm r HP).
  destruct (m r) as [[a | e] r']; [now apply Hq | exact Hm].
Qed.

Lemma triple_lift {A : Type} (x : string) (o : outcome A) :
  triple (opened x) (lift o) (fun _ => opened x).
Proof. intros r HP. unfold lift. destruct o; [exact HP | now exists x]. Qed.

Lemma triple_emit (P : Run -> Prop) (e : Emit) :
  (forall r r', stages r' = stages r -> begun r' = begun r -> P r -> P r') ->
  triple P (emit e) (fun _ => P).
Proof. intros Hf r HP. cbn. apply (Hf r); [reflexivity | reflexivity | exact HP]. Qed.

Lemma triple_note (P : Run -> Prop) (c : Call) :
  (forall r r', stages r' = stages r -> begun r' = begun r -> P r -> P r') ->
  triple P (note c) (fun _ => P).
Proof. intros Hf r HP. cbn. apply (Hf r); [reflexivity | reflexivity | exact HP]. Qed.

Lemma triple_now (P : Run -> Prop) (s : Script) :
  (forall r r', stages r' = stages r -> begun r' = begun r -> P r -> P r') ->
  triple P (now s) (fun _ => P).
Proof. intros Hf r HP. cbn. apply (Hf r); [reflexivity | reflexivity | exact HP]. Qed.

Lemma closed_frame (r r' : Run) :
  stages r' = stages r -> begun r' = begun r -> closed r -> closed r'.
Proof. unfold closed. intros -> ->. auto. Qed.

Lemma opened_frame (x : string) (r r' : Run) :
  stages r' = stages r -> begun r' = begun r -> opened x r -> opened x r'.
Proof. unfold opened. intros -> ->. auto. Qed.

Lemma triple_startStage (s : Script) (n : string) :
  triple closed (startStage s n) (fun st => opened (s_name st)).
Proof.
  intros r [Hb Ht]. unfold startStage, bind, now, opened. cbn.
  split; [now rewrite Hb | exact Ht].
Qed.

Lemma triple_endStage (s : Script) (st : Started) :
  triple (opened (s_name st)) (endStage s st) (fun _ => closed).
Proof.
  intros r [Hb Ht]. unfold endStage, bind, now, closed. cbn. split.
  - rewrite Hb, map_app. reflexivity.
  - apply Forall_app. split; [exact Ht|].
    constructor; [|constructor]. split; [reflexivity|]. eexists. split; reflexivity.
Qed.

Create HintDb stage discriminated.
#[local] Hint Resolve closed_frame opened_frame : stage.
#[local] Hint Resolve triple_startStage triple_endStage triple_lift triple_ret : stage.

(** One step of a run: split off the first action and discharge it with
    the rule that fits. *)
Ltac step :=
  lazymatch goal with
  | |- triple _ (bind _ _) _ =>
      eapply triple_bind;
      [ first [ apply triple_startStage
              | apply triple_endStage
              | apply triple_lift
              | apply triple_emit; eauto with stage
              | apply triple_note; eauto with stage
              | apply triple_now; eauto with stage ]
      | intro ]
  end.

Section Stages.
Context `{RegExp} `{Gateway.Sqrt}.
Variable s : Script.

Lemma triple_fix_loop (language : string) :
  forall (left attempt : nat) (code : string) (vr : Validation.ValidationResult),
    triple closed (fix_loop s language left attempt code vr) (fun _ => closed).
Proof.
  induction left as [| left IH]; intros attempt code vr.
  - apply triple_ret.
  - cbn [fix_loop]. unfold emitStage. repeat step.
    destruct (Validation.passed _); [apply triple_ret | apply IH].
Qed.

Lemma triple_repair (language code : string) (vr : Validation.ValidationResult) :
  triple closed (repair s language code vr) (fun _ => closed).
Proof.
  unfold repair. destruct (_ && _); [apply triple_fix_loop | apply triple_ret].
Qed.

Lemma triple_stages_of_try (request : GenerateRequest) :
  triple closed (stages_of_try s request)
         (fun done r => closed r /\ res_stages (fst done) = stages r).
Proof.
  unfold stages_of_try, emitStage, stamp. repeat step.
  eapply triple_bind.
  { destruct (_ && _).
    - eapply triple_bind; [apply triple_note; eauto with stage | intro; apply triple_ret].
    - apply triple_ret. }
  intro rag. repeat step.
  eapply triple_bind; [apply triple_repair | intro repaired].
  repeat step.
  intros r Hc. cbn. split; [exact Hc | reflexivity].
Qed.

(** In every run of [runPipeline], successful or failed, each entry of
    the saved [stages] list is a record as [endStage] writes it; after a
    successful run the entries are, in order, the stages that were
    started; after a failed run they are the stages started before the
    one whose execution threw. *)
Lemma finished_stages_recorded (request : GenerateRequest) :
  let '(result, generation, r) := runPipeline s request in
  Forall timed (g_stages generation)
  /\ match result with
     | Ok response =>
         begun r = map name (g_stages generation)
         /\ res_stages response = g_stages generation
         /\ g_status generation = "completed"
     | Throw e =>
         (exists failing, begun r = List.app (map name (g_stages generation)) [failing])
         /\ g_status generation = "failed"
         /\ g_errorMessage generation = Some e
     end.
Proof.
  unfold runPipeline.
  assert (Hrun : triple closed
            (bind (stages_of_try s request)
                  (fun done => bind (emit (EmitComplete (confidence (fst done))))
                                    (fun _ => ret done)))
            (fun done r => closed r /\ res_stages (fst done) = stages r)).
  { eapply triple_bind; [apply triple_stages_of_try | intro done].
    eapply triple_bind
      with (Q := fun _ r => closed r /\ res_stages (fst done) = stages r);
      [|intro; exact (triple_ret (fun r => closed r /\ res_stages (fst done) = stages r) done)].
    apply triple_emit. intros r r' Hs Hb [Hc Hr]. split; [eauto with stage | congruence]. }
  assert (Hfresh : closed fresh) by (split; [reflexivity | constructor]).
  specialize (Hrun fresh Hfresh).
  destruct (bind (stages_of_try s request) _ fresh) as [[done | e] r].
  - destruct Hrun as [[Hb Ht] Hres]. cbn [g_stages g_status].
    rewrite Hres. repeat split; assumption.
  - destruct Hrun as [x [Hb Ht]]. cbn [g_stages g_status g_errorMessage].
    repeat split; [exact Ht | exists x; exact Hb].
Qed.

End Stages.

End StageFacts.

(** ** Orchestrator: the repair loop *)

Module RepairFacts.
Import Orchestrator.
Local Open Scope nat_scope.

(** The calls of [k] complete repair attempts. *)
Fixpoint cycles (k : nat) : list Call :=
  match k with
  | O => []
  | S k' => CallFix :: CallValidate :: cycles k'
  end.

Definition is_fix (c : Call) : bool :=
  match c with CallFix => true | _ => false end.

Definition is_validate (c : Call) : bool :=
  match c with CallValidate => true | _ => false end.

Lemma cycles_fixes (k : nat) : List.length (filter is_fix (cycles k)) = k.
Proof. induction k as [| k IH]; [reflexivity|]. cbn. now rewrite IH. Qed.

Lemma cycles_validations (k : nat) : List.length (filter is_validate (cycles k)) = k.
Proof. induction k as [| k IH]; [reflexivity|]. cbn. now rewrite IH. Qed.

Section Repair.
Context `{RegExp}.
Variable s : Script.
Variable language : string.

(** The code that the [k]-th call of [fixCode] returns (counting from
    0), and its validation. *)
Definition fixed (k : nat) : string :=
  match fix_reply s k with
  | Fulfilled raw => Validation.stripCodeFences raw
  | Rejected _ => ""
  end.

Definition revalidated (k : nat) : Validation.ValidationResult :=
  Validation.validateCode (fixed k) language (validate_reply s (S k)).

(** The state once [fixCode] has been called in a turn, and the state
    at the end of the turn. *)
Definition entered (attempt : nat) (r : Run) : Run :=
  snd ((startStage s ("runtime_fix_" ++ Validation.decimal (attempt + 1)) ;;;
        emitStage "fixing_code"
          ("Fixing code (attempt " ++ Validation.decimal (attempt + 1) ++ ")...") ;;;
        note CallFix)%run r).

Definition finished (attempt : nat) (r : Run) : Run :=
  snd ((note CallValidate ;;;
        endStage s {| s_name := "runtime_fix_" ++ Validation.decimal (attempt + 1);
                      s_startedAt := time s (readings r) |})%run (entered attempt r)).

Lemma entered_calls (attempt : nat) (r : Run) :
  calls (entered attempt r) = List.app (calls r) [CallFix].
Proof. reflexivity. Qed.

Lemma finished_calls (attempt : nat) (r : Run) :
  calls (finished attempt r) = List.app (calls r) [CallFix; CallValidate].
Proof. unfold finished, entered. cbn. now rewrite <- app_assoc. Qed.

(** One turn of the loop, spelled out. *)
Lemma fix_loop_turn (left attempt : nat) (code : string)
    (vr : Validation.ValidationResult) (r : Run) :
  fix_loop s language (S left) attempt code vr r =
  match fix_reply s attempt with
  | Rejected e => (Throw e, entered attempt r)
  | Fulfilled _ =>
      if Validation.passed (revalidated attempt)
      then (Ok (fixed attempt, revalidated attempt), finished attempt r)
      else fix_loop s language left (S attempt) (fixed attempt) (revalidated attempt)
                    (finished attempt r)
  end.
Proof.
  unfold revalidated, fixed, finished, entered.
  cbn [fix_loop].
  generalize ("runtime_fix_" ++ Validation.decimal (attempt + 1)).
  generalize ("Fixing code (attempt " ++ Validation.decimal (attempt + 1) ++ ")...").
  intros message stage.
  cbv beta iota delta [bind startStage emitStage emit note endStage now lift ret
                       Validation.fixCode fst snd
                       readings stages emitted begun calls s_name s_startedAt].
  destruct (fix_reply s attempt) as [e | raw]; [reflexivity|].
  generalize (Validation.validateCode (Validation.stripCodeFences raw) language
                (validate_reply s (S attempt))).
  generalize (Validation.stripCodeFences raw). intros c v.
  destruct (Validation.passed v); reflexivity.
Qed.

(** The loop started at attempt [attempt] with [left] turns to go makes
    [f] calls of [fixCode]. *)
Lemma fix_loop_spec :
  forall (left attempt : nat) (code : string) (vr : Validation.ValidationResult) (r : Run),
  exists f, f <= left
    /\ (forall j, j + 1 < f -> Validation.passed (revalidated (attempt + j)) = false)
    /\ (forall j, j + 1 < f \/ (j < f /\ exists x, fst (fix_loop s language left attempt code vr r) = Ok x) ->
          exists raw, fix_reply s (attempt + j) = Fulfilled raw)
    /\ match fix_loop s language left attempt code vr r with
       | (Ok (code', vr'), r') =>
           calls r' = List.app (calls r) (cycles f)
           /\ (f = 0 -> left = 0 /\ code' = code /\ vr' = vr)
           /\ (0 < f ->
               code' = fixed (attempt + f - 1) /\ vr' = revalidated (attempt + f - 1)
               /\ (Validation.passed vr' = true \/ f = left))
       | (Throw e, r') =>
           0 < f /\ fix_reply s (attempt + f - 1) = Rejected e
           /\ calls r' = List.app (calls r) (List.app (cycles (f - 1)) [CallFix])
       end.
Proof.
  induction left as [| left IH]; intros attempt code vr r.
  - exists 0. cbn. rewrite app_nil_r.
    split; [lia|]. split; [intros; lia|]. split; [intros j [Hj | [Hj _]]; lia|].
    repeat split; intros; lia.
  - rewrite fix_loop_turn.
    pose proof (entered_calls attempt r) as Hc1.
    pose proof (finished_calls attempt r) as Hc2.
    set (r1 := entered attempt r) in *. set (r2 := finished attempt r) in *.
    clearbody r1 r2.
    destruct (fix_reply s attempt) as [e | raw] eqn:Efix.
    + exists 1. split; [lia|]. split; [intros; lia|].
      split; [intros j [Hj | [_ [x Hx]]]; [lia | discriminate Hx]|].
      replace (attempt + 1 - 1) with attempt by lia.
      split; [lia|]. split; [exact Efix|]. exact Hc1.
    + destruct (Validation.passed (revalidated attempt)) eqn:Epass.
      * exists 1. split; [lia|]. split; [intros; lia|].
        split.
        { intros j Hj. assert (j = 0) as -> by lia.
          rewrite Nat.add_0_r. eauto. }
        replace (attempt + 1 - 1) with attempt by lia.
        split; [exact Hc2|]. split; [intros; lia|].
        intros _. split; [reflexivity|]. split; [reflexivity|]. now left.
      * destruct (IH (S attempt) (fixed attempt) (revalidated attempt) r2)
          as (f & Hf & Hfail & Hok & Hres).
        exists (S f). split; [lia|].
        split.
        { intros j Hj. destruct j as [| j].
          - now rewrite Nat.add_0_r.
          - replace (attempt + S j) with (S attempt + j) by lia. apply Hfail. lia. }
        split.
        { intros j Hj. destruct j as [| j].
          - rewrite Nat.add_0_r. eauto.
          - replace (attempt + S j) with (S attempt + j) by lia. apply Hok.
            destruct Hj as [Hj | [Hj Hx]]; [left; lia | right; split; [lia | exact Hx]]. }
        destruct (fix_loop s language left (S attempt) (fixed attempt)
                           (revalidated attempt) r2) as [[[code' vr'] | e] r'].
        -- destruct Hres as (Hcalls & Hzero & Hpos).
           split; [|split].
           ++ rewrite Hcalls, Hc2, <- app_assoc. reflexivity.
           ++ intros Hz. lia.
           ++ intros _. destruct f as [| f].
              ** destruct (Hzero eq_refl) as (Hl & -> & ->).
                 replace (attempt + 1 - 1) with attempt by lia.
                 split; [reflexivity|]. split; [reflexivity|]. right. lia.
              ** destruct (Hpos ltac:(lia)) as (-> & -> & Hstop).
                 replace (attempt + S (S f) - 1) with (S attempt + S f - 1) by lia.
                 split; [reflexivity|]. split; [reflexivity|].
                 destruct Hstop as [Hp | Hl]; [now left | right; lia].
        -- destruct Hres as (Hpos & Hrej & Hcalls).
           split; [lia|]. split.
           ++ replace (attempt + S f - 1) with (S attempt + f - 1) by lia. exact Hrej.
           ++ rewrite Hcalls, Hc2, <- app_assoc.
              destruct f as [| f]; [lia|].
              replace (S (S f) - 1) with (S f) by lia.
              replace (S f - 1) with f by lia. reflexivity.
Qed.

Lemma gate_closed_iff (code : string) (reply0 : reply) :
  let vr := Validation.validateCode code language reply0 in
  negb (Validation.passed vr) && truthy (Some (Validation.runtimeError vr)) = false
  <-> Validation.passed vr = true \/ Validation.runtimeError vr = JNull.
Proof.
  cbv zeta. set (vr := Validation.validateCode code language reply0).
  pose proof (ValidationFacts.runtimeError_null_or_truthy code language reply0) as Herr.
  cbv zeta in Herr. fold vr in Herr.
  rewrite andb_false_iff, negb_false_iff. split.
  - intros [Hp | Ht]; [now left|]. right.
    destruct Herr as [Hn | Htrue]; [exact Hn | congruence].
  - intros [Hp | Hn]; [now left|]. right. now rewrite Hn.
Qed.

(** C6: stage 5b of [runPipeline] on a validation result [vr].  The loop
    makes [f] calls of [fixCode], with [f] at most [maxFixAttempts] (2);
    [f] is 0 exactly when [vr] passed or carries no runtime error, and
    then code, result and state are untouched.  Every call of [fixCode]
    that returns is followed by one full [validateCode]; the loop goes on
    only after a failed validation and stops at the first that passes or
    at the ceiling, and the code and result it leaves are those of the last
    attempt, passed or not.  A rejected [fixCode] call ends the loop with
    that error.  With a validator that always fails (and [fixCode] calls
    that return) the loop makes exactly [maxFixAttempts] attempts and
    returns the last attempt's code. *)
Theorem repair_loop_bounded (code : string) (reply0 : reply) (r : Run) :
  let vr := Validation.validateCode code language reply0 in
  let ceiling := maxFixAttempts ENGINE_CONFIG in
  exists f,
    f <= ceiling
    /\ (f = 0 <-> Validation.passed vr = true \/ Validation.runtimeError vr = JNull)
    /\ (forall j, j + 1 < f -> Validation.passed (revalidated j) = false)
    /\ match repair s language code vr r with
       | (Ok (code', vr'), r') =>
           calls r' = List.app (calls r) (cycles f)
           /\ (f = 0 -> code' = code /\ vr' = vr /\ r' = r)
           /\ (0 < f ->
               code' = fixed (f - 1) /\ vr' = revalidated (f - 1)
               /\ (Validation.passed vr' = true \/ f = ceiling))
       | (Throw e, r') =>
           0 < f /\ fix_reply s (f - 1) = Rejected e
           /\ calls r' = List.app (calls r) (List.app (cycles (f - 1)) [CallFix])
       end
    /\ ((forall j, exists raw, fix_reply s j = Fulfilled raw) ->
        (forall j, Validation.passed (revalidated j) = false) ->
        Validation.passed vr = false -> Validation.runtimeError vr <> JNull ->
        f = ceiling
        /\ fst (repair s language code vr r)
           = Ok (fixed (ceiling - 1), revalidated (ceiling - 1))).
Proof.
  cbv zeta. set (vr := Validation.validateCode code language reply0).
  pose proof (gate_closed_iff code reply0) as Hgate. cbv zeta in Hgate. fold vr in Hgate.
  unfold repair.
  destruct (negb (Validation.passed vr) && truthy (Some (Validation.runtimeError vr)))
    eqn:Egate.
  - assert (Hopen : ~ (Validation.passed vr = true \/ Validation.runtimeError vr = JNull)).
    { intro Hc. apply Hgate in Hc. discriminate. }
    destruct (fix_loop_spec (maxFixAttempts ENGINE_CONFIG) 0 code vr r)
      as (f & Hf & Hfail & Hok & Hres).
    exists f. split; [exact Hf|].
    assert (Hpos : 0 < f).
    { destruct (fix_loop s language (maxFixAttempts ENGINE_CONFIG) 0 code vr r)
        as [[[code' vr'] | e] r'].
      - destruct Hres as (_ & Hzero & _). destruct f; [|lia].
        destruct (Hzero eq_refl) as (Hmax & _). discriminate Hmax.
      - tauto. }
    split; [split; [intro; lia | intro; contradiction]|].
    split; [exact Hfail|].
    split.
    + destruct (fix_loop s language (maxFixAttempts ENGINE_CONFIG) 0 code vr r)
        as [[[code' vr'] | e] r'].
      * destruct Hres as (Hcalls & _ & Hlast).
        split; [exact Hcalls|]. split; [intro; lia|]. exact Hlast.
      * exact Hres.
    + intros Hfix Hnever _ _.
      destruct (fix_loop s language (maxFixAttempts ENGINE_CONFIG) 0 code vr r)
        as [[[code' vr'] | e] r'].
      * destruct Hres as (_ & _ & Hlast).
        destruct (Hlast Hpos) as (-> & -> & Hstop). cbn [Nat.add] in Hstop.
        destruct Hstop as [Hp | ->]; [rewrite Hnever in Hp; discriminate|].
        split; reflexivity.
      * destruct Hres as (_ & Hrej & _). cbn [Nat.add] in Hrej.
        destruct (Hfix (f - 1)) as [raw Hraw]. congruence.
  - exists 0. split; [lia|].
    pose proof (proj1 Hgate eq_refl) as Hclosed.
    split; [split; [intros _; exact Hclosed | reflexivity]|].
    split; [intros; lia|].
    split.
    + cbn. rewrite app_nil_r. repeat split; intros; lia.
    + intros _ _ Hp Hn. destruct Hclosed as [Hc | Hc]; congruence.
Qed.

End Repair.

(** A run in which both repair attempts fail validation. *)
Definition stubborn : Script :=
  {| time := fun k => Z.of_nat (k * 10);
     hash := fun u => "sha256:" ++ u;
     collection := [];
     enhance_reply :=
       Parsed (JArr [JObj [("title", JStr "List files");
                           ("description", JStr "List the files of a directory")]]);
     task_embedding := Ok [1%Q; 0%Q];
     chunk_embedding := fun _ => Ok [1%Q; 0%Q];
     primary_reply := Fulfilled "import os; print(os.listdir(path))";
     alternative_reply := Rejected "Azure API error (gpt-4o-mini): 429 Too Many Requests";
     judge_reply := Unparseable "Unexpected end of JSON input";
     validate_reply := fun _ =>
       Parsed (JObj [("wouldPass", JBool false); ("score", JNum 20%Q);
                     ("error", JStr "NameError: name 'path' is not defined")]);
     fix_reply := fun k =>
       Fulfilled (if (k =? 0) then "import os; path = '.'; print(os.listdir(path))"
                  else "import os; print(os.listdir('.'))");
     audit_result := {| overallRisk := "low"; findings := []; performanceNotes := [];
                        audit_score := 90%Q |};
     trace_result := [] |}.

Example stubborn_repair :
  let vr := @Validation.validateCode Samples.no_match
              "import os; print(os.listdir(path))" "python" (validate_reply stubborn 0) in
  Validation.passed vr = false
  /\ fst (@repair Samples.no_match stubborn "python"
            "import os; print(os.listdir(path))" vr fresh)
     = Ok ("import os; print(os.listdir('.'))",
           @Validation.validateCode Samples.no_match "import os; print(os.listdir('.'))"
             "python" (validate_reply stubborn 2))
  /\ calls (snd (@repair Samples.no_match stubborn "python"
                   "import os; print(os.listdir(path))" vr fresh))
     = [CallFix; CallValidate; CallFix; CallValidate].
Proof. vm_compute. repeat split; reflexivity. Qed.

(** The loop on [stubborn]: both attempts run, and the second attempt's
    code is what the loop returns. *)
Lemma repair_loop_bounded_witness :
  let code := "import os; print(os.listdir(path))" in
  let vr := @Validation.validateCode Samples.no_match code "python"
              (validate_reply stubborn 0) in
  Validation.passed vr = false
  /\ Validation.runtimeError vr <> JNull
  /\ fst (@repair Samples.no_match stubborn "python" code vr fresh)
     = Ok (@fixed Samples.no_match stubborn 1,
           @revalidated Samples.no_match stubborn "python" 1).
Proof.
  cbv zeta.
  assert (Hp : Validation.passed
                 (@Validation.validateCode Samples.no_match
                    "import os; print(os.listdir(path))" "python"
                    (validate_reply stubborn 0)) = false) by (vm_compute; reflexivity).
  assert (Hn : Validation.runtimeError
                 (@Validation.validateCode Samples.no_match
                    "import os; print(os.listdir(path))" "python"
                    (validate_reply stubborn 0)) <> JNull) by (vm_compute; discriminate).
  split; [exact Hp|]. split; [exact Hn|].
  destruct (@repair_loop_bounded Samples.no_match stubborn "python"
              "import os; print(os.listdir(path))" (validate_reply stubborn 0) fresh)
    as (f & _ & _ & _ & _ & Hlast).
  apply Hlast.
  - intro j. eexists. reflexivity.
  - intro j. unfold revalidated, Validation.validateCode. cbn [Validation.passed].
    apply andb_false_r.
  - exact Hp.
  - exact Hn.
Defined.

End RepairFacts.

(** ** Orchestrator: how often a run calls [fixCode] and [validateCode] *)

Module BudgetFacts.
Import Orchestrator RepairFacts.
Local Open Scope nat_scope.

Definition count (p : Call -> bool) (r : Run) : nat := List.length (filter p (calls r)).

(** [m] makes at most [k] calls that satisfy [p], whether it returns or
    throws. *)
Definition adds {A : Type} (p : Call -> bool) (k : nat) (m : M A) : Prop :=
  forall r, count p (snd (m r)) <= count p r + k.

Lemma adds_bind {A B : Type} (p : Call -> bool) (k1 k2 : nat) (m : M A) (f : A -> M B) :
  adds p k1 m -> (forall a, adds p k2 (f a)) -> adds p (k1 + k2) (bind m f).
Proof.
  intros Hm Hf r. unfold bind. specialize (Hm r).
  destruct (m r) as [[a | e] r']; cbn [snd] in *.
  - specialize (Hf a r'). lia.
  - lia.
Qed.

Lemma adds_weaken {A : Type} (p : Call -> bool) (k k' : nat) (m : M A) :
  adds p k m -> k <= k' -> adds p k' m.
Proof. intros Hm Hk r. specialize (Hm r). lia. Qed.

Lemma adds_ret {A : Type} (p : Call -> bool) (a : A) : adds p 0 (ret a).
Proof. intro r. unfold count. cbn. lia. Qed.

Lemma adds_lift {A : Type} (p : Call -> bool) (o : outcome A) : adds p 0 (lift o).
Proof. intro r. unfold count. cbn. lia. Qed.

Lemma adds_emit (p : Call -> bool) (e : Emit) : adds p 0 (emit e).
Proof. intro r. unfold count. cbn. lia. Qed.

Lemma adds_now (p : Call -> bool) (s : Script) : adds p 0 (now s).
Proof. intro r. unfold count. cbn. lia. Qed.

Lemma adds_startStage (p : Call -> bool) (s : Script) (n : string) :
  adds p 0 (startStage s n).
Proof. intro r. unfold count. cbn. lia. Qed.

Lemma adds_endStage (p : Call -> bool) (s : Script) (st : Started) :
  adds p 0 (endStage s st).
Proof. intro r. unfold count. cbn. lia. Qed.

Lemma adds_note (p : Call -> bool) (c : Call) :
  adds p (if p c then 1 else 0) (note c).
Proof.
  intro r. unfold count, note. cbn [snd calls]. rewrite filter_app, length_app. cbn [filter].
  destruct (p c); cbn; lia.
Qed.

Lemma adds_pure {A : Type} (p : Call -> bool) (f : Run -> A) :
  adds p 0 (fun r => (Ok (f r), r)).
Proof. intro r. cbn. lia. Qed.

Section Budget.
Context `{RegExp} `{Gateway.Sqrt}.
Variable s : Script.

Lemma count_app_calls (p : Call -> bool) (r r' : Run) (l : list Call) :
  calls r' = List.app (calls r) l -> count p r' = count p r + List.length (filter p l).
Proof. intro Hc. unfold count. now rewrite Hc, filter_app, length_app. Qed.

Lemma fix_loop_fixes (language : string) (left attempt : nat) (code : string)
    (vr : Validation.ValidationResult) :
  adds is_fix left (fix_loop s language left attempt code vr)
  /\ adds is_validate left (fix_loop s language left attempt code vr).
Proof.
  split; intro r;
    destruct (fix_loop_spec s language left attempt code vr r) as (f & Hf & _ & _ & Hres);
    destruct (fix_loop s language left attempt code vr r) as [[[code' vr'] | e] r'];
    cbn [snd].
  - destruct Hres as (Hc & _). rewrite (count_app_calls _ _ _ _ Hc), cycles_fixes. lia.
  - destruct Hres as (Hpos & _ & Hc).
    rewrite (count_app_calls _ _ _ _ Hc), filter_app, length_app, cycles_fixes. cbn. lia.
  - destruct Hres as (Hc & _). rewrite (count_app_calls _ _ _ _ Hc), cycles_validations. lia.
  - destruct Hres as (Hpos & _ & Hc).
    rewrite (count_app_calls _ _ _ _ Hc), filter_app, length_app, cycles_validations.
    cbn. lia.
Qed.

Lemma repair_adds (p : Call -> bool) (language code : string)
    (vr : Validation.ValidationResult) :
  p = is_fix \/ p = is_validate ->
  adds p (maxFixAttempts ENGINE_CONFIG) (repair s language code vr).
Proof.
  intro Hp. unfold repair. destruct (_ && _).
  - destruct Hp as [-> | ->]; apply fix_loop_fixes.
  - eapply adds_weaken; [apply adds_ret | lia].
Qed.

Ltac tally :=
  lazymatch goal with
  | |- adds _ _ (bind (repair _ _ _ _) _) =>
      eapply adds_bind; [apply repair_adds; auto | intro; tally]
  | |- adds _ _ (bind (if ?c then _ else _) _) =>
      eapply (adds_bind _ 0);
      [ destruct c; (eapply adds_weaken; [tally | cbn; lia]) | intro; tally ]
  | |- adds _ _ (bind _ _) => eapply adds_bind; [tally | intro; tally]
  | |- adds _ _ (let _ := _ in _) => cbv zeta; tally
  | |- adds _ _ (ret _) => apply adds_ret
  | |- adds _ _ (lift _) => apply adds_lift
  | |- adds _ _ (emit _) => apply adds_emit
  | |- adds _ _ (now _) => apply adds_now
  | |- adds _ _ (startStage _ _) => apply adds_startStage
  | |- adds _ _ (endStage _ _) => apply adds_endStage
  | |- adds _ _ (note _) => apply adds_note
  | |- adds _ _ (fun r => _) => apply adds_pure
  end.

Lemma run_adds (p : Call -> bool) (request : GenerateRequest) :
  p = is_fix \/ p = is_validate ->
  adds p ((if p CallValidate then 1 else 0) + maxFixAttempts ENGINE_CONFIG)
       (bind (stages_of_try s request)
             (fun done => bind (emit (EmitComplete (confidence (fst done))))
                               (fun _ => ret done))).
Proof.
  intro Hp. unfold stages_of_try, emitStage, stamp.
  destruct Hp as [-> | ->]; (eapply adds_weaken; [tally | cbn; lia]).
Qed.

(** In every run of the pipeline, returning or failing, [fixCode] is
    called at most [maxFixAttempts] times and [validateCode] at most once
    more than that. *)
Lemma pipeline_call_budget (request : GenerateRequest) :
  let r := snd (runPipeline s request) in
  count is_fix r <= maxFixAttempts ENGINE_CONFIG
  /\ count is_validate r <= 1 + maxFixAttempts ENGINE_CONFIG.
Proof.
  cbv zeta. unfold runPipeline.
  pose proof (run_adds is_fix request (or_introl eq_refl) fresh) as Hfix.
  pose proof (run_adds is_validate request (or_intror eq_refl) fresh) as Hval.
  destruct (bind (stages_of_try s request) _ fresh) as [[done | e] r];
    cbn [snd fst] in *; unfold count in *; cbn in Hfix, Hval |- *; lia.
Qed.

End Budget.

End BudgetFacts.

(** ** Orchestrator: worked runs *)

Module PipelineExamples.
Import Orchestrator Samples.

Definition request : GenerateRequest :=
  {| userId := "user-1";
     taskDescription := "list files in a directory";
     docUrl := "https://docs.python.org/3/library/os.html";
     docContent := "";
     language := "python";
     selectedTaskIndex := None |}.

(** [RepairFacts.stubborn] with other replies for enhancement, for the
    alternative generation and for the judge. *)
Definition variant (enhance : reply) (alt : completion) (judge : reply) : Script :=
  let base := RepairFacts.stubborn in
  {| time := time base;
     hash := hash base;
     collection := collection base;
     enhance_reply := enhance;
     task_embedding := task_embedding base;
     chunk_embedding := chunk_embedding base;
     primary_reply := primary_reply base;
     alternative_reply := alt;
     judge_reply := judge;
     validate_reply := validate_reply base;
     fix_reply := fix_reply base;
     audit_result := audit_result base;
     trace_result := trace_result base |}.

Definition run (s : Script) : outcome GenerateResponse * Generation * Run :=
  @runPipeline no_match sqrt_of_squares s request.

Definition status_of (out : outcome GenerateResponse * Generation * Run) : string :=
  g_status (snd (fst out)).

Definition recorded (out : outcome GenerateResponse * Generation * Run) : list string :=
  map name (g_stages (snd (fst out))).

Definition started (out : outcome GenerateResponse * Generation * Run) : list string :=
  begun (snd out).

(** Two failed repair attempts: the run completes, each attempt has its
    record, and the code of the second attempt is selected although it did
    not pass. *)
Example run_with_failed_repairs :
  status_of (run RepairFacts.stubborn) = "completed"
  /\ recorded (run RepairFacts.stubborn)
     = ["enhancing_task"; "retrieving_docs"; "generating_code"; "judging"; "validating";
        "runtime_fix_1"; "runtime_fix_2"; "security_audit"; "trace_mapping"; "scoring"]
  /\ started (run RepairFacts.stubborn) = recorded (run RepairFacts.stubborn)
  /\ match fst (fst (run RepairFacts.stubborn)) with
     | Ok response =>
         selectedCode response = "import os; print(os.listdir('.'))"
         /\ Validation.passed (validationResult response) = false
     | Throw _ => False
     end.
Proof. vm_compute. repeat split; reflexivity. Qed.

(** The enhancement model call is rejected. *)
Definition enhancement_down : Script :=
  variant (CallFailed "Azure API error (gpt-4o-mini): 401 Unauthorized")
          (alternative_reply RepairFacts.stubborn) (judge_reply RepairFacts.stubborn).

(** Both generation calls succeed and the judge model call is rejected. *)
Definition judge_down : Script :=
  variant (enhance_reply RepairFacts.stubborn)
          (Fulfilled "from pathlib import Path; print(list(Path('.').iterdir()))")
          (CallFailed "Azure API error (gpt-4o-mini): 401 Unauthorized").

(** The failed judge call fails the whole run, with two candidates at
    hand. *)
Example run_with_judge_down :
  status_of (run judge_down) = "failed"
  /\ g_errorMessage (snd (fst (run judge_down)))
     = Some "Azure API error (gpt-4o-mini): 401 Unauthorized"
  /\ recorded (run judge_down) = ["enhancing_task"; "retrieving_docs"; "generating_code"]
  /\ started (run judge_down)
     = ["enhancing_task"; "retrieving_docs"; "generating_code"; "judging"].
Proof. vm_compute. repeat split; reflexivity. Qed.

(** C10 as stated: every stage that was started has an entry in the
    Generation's [stages] list. *)
Definition every_started_stage_recorded
    (out : outcome GenerateResponse * Generation * Run) : Prop :=
  forall n, In n (started out) -> In n (recorded out).


End PipelineExamples.

(** * Further properties of the engine *)

(** ** Static analysis *)

Module StaticFacts.
Import Validation NumberFacts.

Section WithEngine.
Context `{RegExp}.
Variable code : string.

Definition matched (cs : list Check) : list Check :=
  filter (fun c => test (pattern c) (flags c) code) cs.

Definition total (cs : list Check) : Q :=
  fold_right (fun c sum => penalty c + sum) 0 cs.

Lemma fold_checks (cs : list Check) :
  forall acc,
    score (fold_left (apply_check code) cs acc) == score acc - total (matched cs)
    /\ issues (fold_left (apply_check code) cs acc)
       = List.app (issues acc) (map message (matched cs)).
Proof.
  induction cs as [| c cs IH]; intro acc; cbn [fold_left matched filter].
  - cbn [total fold_right map]. split; [lra | now rewrite app_nil_r].
  - unfold apply_check at 2 4. fold (matched cs).
    destruct (test (pattern c) (flags c) code).
    + destruct (IH {| score := score acc - penalty c;
                      issues := List.app (issues acc) [message c] |}) as [Hs Hi].
      split.
      * rewrite Hs. cbn [score total fold_right]. fold (total (matched cs)). lra.
      * rewrite Hi. cbn [issues map]. now rewrite <- app_assoc.
    + apply IH.
Qed.

Lemma total_matched_le (cs : list Check) :
  Forall (fun c => 0 < penalty c) cs -> 0 <= total (matched cs) <= total cs.
Proof.
  induction 1 as [| c cs Hc Hcs IH]; cbn [matched filter total fold_right].
  - split; apply Qle_refl.
  - fold (matched cs) (total cs) in *.
    destruct (test (pattern c) (flags c) code); cbn [total fold_right];
      fold (total (matched cs)); lra.
Qed.

Lemma total_matched_zero (cs : list Check) :
  Forall (fun c => 0 < penalty c) cs -> total (matched cs) == 0 -> matched cs = [].
Proof.
  induction 1 as [| c cs Hc Hcs IH]; cbn [matched filter]; [reflexivity|].
  fold (matched cs) in *.
  destruct (test (pattern c) (flags c) code); [|exact IH].
  cbn [total fold_right]. fold (total (matched cs)).
  pose proof (total_matched_le cs Hcs). intro Hz. lra.
Qed.

Lemma checks_positive (language : string) :
  Forall (fun c => 0 < penalty c) (checks_for language).
Proof.
  unfold checks_for. cbv zeta.
  repeat match goal with |- context [if ?b then _ else _] => destruct b end;
    repeat constructor.
Qed.

Lemma checks_total (language : string) : total (checks_for language) <= 73.
Proof.
  unfold checks_for. cbv zeta.
  destruct (String.eqb (Text.toLowerCase language) "python") eqn:Epython.
  - apply String.eqb_eq in Epython. rewrite Epython. vm_compute. discriminate.
  - destruct (_ || _)%bool; vm_compute; discriminate.
Qed.

Lemma clamp_inert (x : Q) : 0 <= x <= 100 -> Math_max 0 (Math_min 100 x) == x.
Proof.
  intros [Hlo Hhi]. unfold Math_max, Math_min.
  destruct (Qle_bool 100 x) eqn:E1.
  - apply Qle_bool_iff in E1. cbn. lra.
  - destruct (Qle_bool 0 x) eqn:E2; [reflexivity|].
    apply geq_false_iff in E2. lra.
Qed.

(** X1: [staticAnalysis] on code whose trimmed text has fewer than 10
    characters returns score 0 with the single issue "Code is empty or too
    short".  On any other code the clamp never bites: the score lies
    between 12 and 100, and it is 100 exactly when no issue is reported. *)
Theorem static_score_profile (language : string) :
  let result := staticAnalysis code language in
  ((String.length (Text.trim code) < 10)%nat ->
     score result = 0 /\ issues result = ["Code is empty or too short"])
  /\ ((10 <= String.length (Text.trim code))%nat ->
      12 <= score result /\ score result <= 100
      /\ (score result == 100 <-> issues result = [])).
Proof.
  cbv zeta. unfold staticAnalysis. split.
  - intro Hshort. apply Nat.ltb_lt in Hshort. rewrite Hshort, orb_true_r.
    split; reflexivity.
  - intro Hlong. apply Nat.ltb_ge in Hlong.
    assert (Hne : String.eqb code "" = false).
    { destruct (String.eqb code "") eqn:E; [|reflexivity].
      apply String.eqb_eq in E. subst code. discriminate Hlong. }
    rewrite Hne, Hlong. cbn [orb].
    destruct (fold_checks (checks_for language) {| score := 100; issues := [] |})
      as [Hscore Hissues].
    set (checked := fold_left (apply_check code) (checks_for language)
                              {| score := 100; issues := [] |}) in *.
    cbn [score issues] in Hscore, Hissues.
    pose proof (total_matched_le _ (checks_positive language)) as [Hlo Hhi].
    pose proof (checks_total language) as Htotal.
    cbn [score issues].
    destruct (count_chars is_open code =? count_chars is_close code)%nat.
    + rewrite (clamp_inert (score checked)) by lra.
      split; [lra|]. split; [lra|]. rewrite Hissues. cbn [List.app]. split.
      * intro H100.
        rewrite (total_matched_zero _ (checks_positive language)) by lra. reflexivity.
      * intro Hnone.
        assert (Hm : matched (checks_for language) = []).
        { destruct (matched (checks_for language)); [reflexivity | discriminate]. }
        rewrite Hm in Hscore. cbn [total fold_right] in Hscore. lra.
    + cbn [score issues]. rewrite (clamp_inert (score checked - 15)) by lra.
      split; [lra|]. split; [lra|]. split.
      * intro H100. lra.
      * intro Hnone. destruct (issues checked); discriminate Hnone.
Qed.

End WithEngine.

Lemma static_score_profile_witness :
  (10 <= String.length (Text.trim "x = eval(input())"))%nat
  /\ 12 <= score (@staticAnalysis Samples.no_match "x = eval(input())" "python")
  /\ score (@staticAnalysis Samples.no_match "x = eval(input())" "python") <= 100.
Proof.
  split; [vm_compute; lia|].
  pose proof (proj2 (@static_score_profile Samples.no_match "x = eval(input())" "python"))
    as Hlong.
  cbv zeta in Hlong.
  assert (Hlen : (10 <= String.length (Text.trim "x = eval(input())"))%nat)
    by (vm_compute; lia).
  destruct (Hlong Hlen) as (Hlo & Hhi & _). split; assumption.
Defined.

End StaticFacts.

(** ** Code returned by the models *)

Module FenceFacts.
Import Text Validation.

Definition starts_visible (l : list ascii) : bool :=
  match l with
  | [] => true
  | c :: _ => negb (is_space c)
  end.

(** Neither the first nor the last character is white space. *)
Definition trimmed (s : string) : bool :=
  starts_visible (chars s) && starts_visible (rev (chars s)).

Lemma drop_space_starts_visible (l : list ascii) : starts_visible (drop_space l) = true.
Proof.
  induction l as [| c l IH]; [reflexivity|].
  cbn [drop_space]. destruct (is_space c) eqn:E; [exact IH|].
  cbn. now rewrite E.
Qed.

Lemma drop_space_suffix (l : list ascii) : exists p, l = (p ++ drop_space l)%list.
Proof.
  induction l as [| c l [p IH]]; [now exists []|].
  cbn [drop_space]. destruct (is_space c).
  - exists (c :: p). cbn. now rewrite <- IH.
  - now exists [].
Qed.

Lemma starts_visible_prefix (a b : list ascii) :
  starts_visible (a ++ b) = true -> starts_visible a = true.
Proof. destruct a; [reflexivity | exact (fun H => H)]. Qed.

Lemma trim_chars_trimmed (l : list ascii) :
  starts_visible (trim_chars l) = true /\ starts_visible (rev (trim_chars l)) = true.
Proof.
  unfold trim_chars. split.
  - destruct (drop_space_suffix (rev (drop_space l))) as [p Hp].
    apply starts_visible_prefix with (b := rev p).
    rewrite <- rev_app_distr, <- Hp, rev_involutive.
    apply drop_space_starts_visible.
  - rewrite rev_involutive. apply drop_space_starts_visible.
Qed.

Lemma trim_trimmed (s : string) : trimmed (trim s) = true.
Proof.
  unfold trimmed, trim. rewrite TextFacts.chars_text.
  destruct (trim_chars_trimmed (chars s)) as [Hhead Hlast].
  now rewrite Hhead, Hlast.
Qed.

Lemma drop_space_visible (l : list ascii) :
  starts_visible l = true -> drop_space l = l.
Proof.
  destruct l as [| c l]; [reflexivity|]. cbn.
  destruct (is_space c); [discriminate | reflexivity].
Qed.

Lemma trim_fixed (s : string) : trimmed s = true -> trim s = s.
Proof.
  unfold trimmed, trim, trim_chars. intro Ht.
  apply andb_true_iff in Ht as [Hhead Hlast].
  rewrite (drop_space_visible _ Hhead), (drop_space_visible _ Hlast), rev_involutive.
  apply TextFacts.text_chars.
Qed.

(** X2: whatever the regular-expression engine does with the two fence
    patterns, the code that comes out of [fixCode] and every candidate that
    comes out of [generateCode] carries no leading and no trailing white
    space, and trimming it again changes nothing. *)
Theorem model_code_is_trimmed `{RegExp} :
  (forall (c : completion) (fixed : string),
      fixCode c = Ok fixed -> trimmed fixed = true /\ trim fixed = fixed)
  /\ (forall (primaryResult altResult : completion) (now : Z)
             (result : Generation.GenerationResult),
        Generation.generateCode primaryResult altResult now = Ok result ->
        Forall (fun c => trimmed (Generation.code c) = true
                         /\ trim (Generation.code c) = Generation.code c)
               (Generation.candidates result)).
Proof.
  assert (Hstrip : forall raw, trimmed (stripCodeFences raw) = true
                               /\ trim (stripCodeFences raw) = stripCodeFences raw).
  { intro raw. assert (Ht : trimmed (stripCodeFences raw) = true) by apply trim_trimmed.
    split; [exact Ht | exact (trim_fixed _ Ht)]. }
  split.
  - intros [e | raw] fixed Hfix; cbn in Hfix; [discriminate|].
    injection Hfix as <-. apply Hstrip.
  - intros [e1 | v1] [e2 | v2] now result Hgen; cbn in Hgen;
      try discriminate; injection Hgen as <-; cbn [Generation.candidates];
      repeat constructor; cbn [Generation.code]; apply Hstrip.
Qed.

Lemma model_code_is_trimmed_witness :
  @fixCode Samples.no_match (Fulfilled "  print(1)  ") = Ok "print(1)"
  /\ trimmed "print(1)" = true.
Proof.
  assert (Hfix : @fixCode Samples.no_match (Fulfilled "  print(1)  ")
                 = Ok "print(1)") by reflexivity.
  split; [exact Hfix|].
  exact (proj1 (proj1 (@model_code_is_trimmed Samples.no_match) _ _ Hfix)).
Defined.

End FenceFacts.

(** ** Validation outage and the repair stage *)

Module OutageFacts.
Import Validation Orchestrator.

Definition outage (r : reply) : bool :=
  match r with
  | CallFailed _ | Unparseable _ => true
  | Parsed _ => false
  end.

(** X3: when the runtime-validation call fails, or answers with text that
    is not JSON, [validateCode] reports the neutral runtime score 50 and no
    runtime error, so the verdict rests on the static score alone; and the
    repair stage then leaves code and verdict as they are without a single
    fix or validation call, also when the code did not pass. *)
Theorem validation_outage_skips_repair `{RegExp} `{Gateway.Sqrt}
    (s : Script) (code language : string) (r : reply) (run : Run) :
  outage r = true ->
  let verdict := validateCode code language r in
  runtimeScore verdict = 50
  /\ runtimeError verdict = JNull
  /\ passed verdict = geq (staticScore verdict) 50
  /\ repair s language code verdict run = (Ok (code, verdict), run).
Proof.
  intro Hout. cbv zeta.
  assert (Hrt : runtimeValidation r = {| r_score := 50; r_error := JNull |}).
  { destruct r; [reflexivity | reflexivity | discriminate Hout]. }
  unfold repair, validateCode. rewrite Hrt. cbn [r_score r_error runtimeScore
    runtimeError passed staticScore truthy].
  rewrite andb_false_r.
  repeat split.
  change (geq 50 50) with true. apply andb_true_r.
Qed.

Lemma validation_outage_skips_repair_witness :
  outage (CallFailed "Azure API error (o4-mini): timeout") = true
  /\ passed (@validateCode Samples.no_match "x" "python"
               (CallFailed "Azure API error (o4-mini): timeout")) = false.
Proof.
  split; [reflexivity|].
  destruct (@validation_outage_skips_repair Samples.no_match Samples.sqrt_of_squares
              RepairFacts.stubborn "x" "python"
              (CallFailed "Azure API error (o4-mini): timeout") fresh eq_refl)
    as (_ & _ & Hpassed & _).
  rewrite Hpassed. reflexivity.
Defined.

End OutageFacts.

(** ** Security audit *)

Module SecurityFacts.
Import Security NumberFacts.

Lemma clamp_score (q : Q) :
  (q <= 0 -> Math_max 0 (Math_min 100 q) == 0)
  /\ (0 <= q -> q <= 100 -> Math_max 0 (Math_min 100 q) == q)
  /\ (100 <= q -> Math_max 0 (Math_min 100 q) == 100).
Proof.
  unfold Math_max, Math_min.
  destruct (Qle_bool 100 q) eqn:E100.
  - apply Qle_bool_iff in E100.
    assert (E0 : Qle_bool 0 100 = true) by reflexivity. rewrite E0.
    repeat split; intros; lra.
  - assert (Hlt : q < 100).
    { apply Qnot_le_lt. intro Hle. apply Qle_bool_iff in Hle. congruence. }
    destruct (Qle_bool 0 q) eqn:E0.
    + apply Qle_bool_iff in E0. repeat split; intros; lra.
    + assert (Hneg : q < 0).
      { apply Qnot_le_lt. intro Hle. apply Qle_bool_iff in Hle. congruence. }
      repeat split; intros; lra.
Qed.

(** What [Array.isArray(v) ? v : []] keeps. *)
Definition kept_list (v : value) : list json :=
  match v with Some (JArr items) => items | _ => [] end.

(** X4: the score of [auditCode] lies between 0 and 100 whatever the
    model answers.  When the reply parses to an object, a numeric [score]
    is clamped to [0, 100] (below 0 it becomes 0, above 100 it becomes 100,
    in between it is kept) and a missing or non-numeric one becomes 75;
    [findings] and [performanceNotes] are kept when they are arrays and
    become empty otherwise; a truthy [overallRisk] is kept and any other
    becomes "low".  A reply that parses to an array gives score 75, empty
    lists and risk "low".  An audit that could not be carried out (failed
    call, text that is not JSON, JSON [null] or a primitive) gives the
    fixed result with risk "medium", score 50 and the note "Audit could not
    be completed". *)
Theorem audit_normalises_the_reply (r : reply) :
  (0 <= score (auditCode r) /\ score (auditCode r) <= 100)
  /\ (match r with
      | Parsed (JObj fields) =>
          match lookup "score" fields with
          | Some (JNum q) =>
              (q <= 0 -> score (auditCode r) == 0)
              /\ (0 <= q -> q <= 100 -> score (auditCode r) == q)
              /\ (100 <= q -> score (auditCode r) == 100)
          | _ => score (auditCode r) = 75
          end
          /\ findings (auditCode r) = kept_list (lookup "findings" fields)
          /\ performanceNotes (auditCode r) = kept_list (lookup "performanceNotes" fields)
          /\ (if truthy (lookup "overallRisk" fields)
              then lookup "overallRisk" fields = Some (overallRisk (auditCode r))
              else overallRisk (auditCode r) = JStr "low")
      | Parsed (JArr _) =>
          auditCode r = {| overallRisk := JStr "low"; findings := [];
                           performanceNotes := []; score := 75 |}
      | _ =>
          auditCode r = degraded
          /\ degraded = {| overallRisk := JStr "medium"; findings := [];
                           performanceNotes := [JStr "Audit could not be completed"];
                           score := 50 |}
      end).
Proof.
  assert (Hnorm : forall fields, 0 <= score (normalize fields)
                                 /\ score (normalize fields) <= 100).
  { intro fields. unfold normalize. cbn [score].
    destruct (as_number (lookup "score" fields)) as [q |].
    - apply clamp_range. lra.
    - split; lra. }
  assert (Hdeg : 0 <= score degraded /\ score degraded <= 100)
    by (cbn; split; lra).
  destruct r as [e | e | [| b | q | str | items | fields]]; cbn [auditCode];
    (split; [first [exact Hdeg | apply Hnorm]|]);
    try (split; reflexivity); try reflexivity.
  unfold normalize. cbn [score findings performanceNotes overallRisk].
  split; [|split; [|split]].
  - destruct (lookup "score" fields) as [[| b | q | str | items | fs] |];
      cbn [as_number]; try reflexivity.
    apply clamp_score.
  - unfold list_or_empty, kept_list.
    now destruct (lookup "findings" fields) as [[| b | q | str | items | fs] |].
  - unfold list_or_empty, kept_list.
    now destruct (lookup "performanceNotes" fields) as [[| b | q | str | items | fs] |].
  - unfold or_else.
    destruct (truthy (lookup "overallRisk" fields)) eqn:Et; [|reflexivity].
    destruct (lookup "overallRisk" fields) as [v |]; [reflexivity | discriminate Et].
Qed.

End SecurityFacts.

(** ** Model gateway: budget of a call *)

Module GatewayBudget.
Import Gateway GatewayFacts.
Local Open Scope nat_scope.

(** The time a call spends asleep, in milliseconds. *)
Definition sleeps (l : list Effect) : Z :=
  fold_right (fun e total => match e with Sleep ms => (ms + total)%Z | Request _ => total end)
             0%Z l.

Lemma backoff_capped (cfg : Retry) (attempt : nat) : (backoff cfg attempt <= maxDelayMs cfg)%Z.
Proof. unfold backoff. apply Z.le_min_r. Qed.

Lemma schedule_sleeps (cfg : Retry) (k from : nat) :
  1 <= k -> (sleeps (schedule cfg from k) <= (Z.of_nat k - 1) * maxDelayMs cfg)%Z.
Proof.
  revert from. induction k as [| k IH]; intros from Hk; [lia|].
  destruct k as [| k]; [cbn; lia|].
  change (sleeps (schedule cfg from (S (S k))))
    with (backoff cfg from + sleeps (schedule cfg (S from) (S k)))%Z.
  pose proof (backoff_capped cfg from).
  specialize (IH (S from) ltac:(lia)). nia.
Qed.

Lemma embedding_loop_schedule (cfg : Retry) (api : nat -> EmbeddingAttempt)
    (left attempt : nat) :
  1 <= left -> attempt + left = S (maxAttempts cfg) ->
  exists k, (1 <= k <= left)%nat
    /\ fst (embedding_loop cfg api left attempt) = schedule cfg attempt k
    /\ (forall i, (attempt <= i < attempt + k - 1)%nat ->
          exists e, embedding_try (api i) = inl e)
    /\ match snd (embedding_loop cfg api left attempt) with
       | Ok v => embedding_try (api (attempt + k - 1)) = inr v
       | Throw msg =>
           exists e, embedding_try (api (attempt + k - 1)) = inl e
             /\ msg = "Embedding API error: " ++ message e
             /\ attempt + k - 1 = maxAttempts cfg
       end.
Proof.
  revert attempt. induction left as [| left IH]; intros attempt Hl Hsum; [lia|].
  cbn [embedding_loop].
  destruct (embedding_try (api attempt)) as [e | v] eqn:Etry.
  - destruct (attempt =? maxAttempts cfg)%nat eqn:Estop.
    + exists 1. cbn [fst snd schedule].
      replace (attempt + 1 - 1) with attempt by lia.
      split; [lia|]. split; [reflexivity|]. split; [intros i Hi; lia|].
      exists e. split; [exact Etry|]. split; [reflexivity|].
      now apply Nat.eqb_eq in Estop.
    + apply Nat.eqb_neq in Estop.
      assert (Hleft : 1 <= left) by lia.
      assert (Hsum' : S attempt + left = S (maxAttempts cfg)) by lia.
      destruct (IH (S attempt) Hleft Hsum') as (k & Hk & Heff & Hretry & Hres).
      exists (S k).
      destruct (embedding_loop cfg api left (S attempt)) as [effects result].
      cbn [fst snd] in *.
      replace (attempt + S k - 1) with (S attempt + k - 1) by lia.
      split; [lia|]. split; [|split].
      * rewrite Heff. destruct k as [| k]; [lia|]. reflexivity.
      * intros i Hi. destruct (Nat.eq_dec i attempt) as [-> | Hne].
        -- exists e. exact Etry.
        -- apply Hretry. lia.
      * exact Hres.
  - exists 1. cbn [fst snd schedule].
    replace (attempt + 1 - 1) with attempt by lia.
    split; [lia|]. split; [reflexivity|]. split; [intros i Hi; lia|]. exact Etry.
Qed.

(** X5: a [chatCompletion] call with a budget of at least one attempt
    makes k requests, 1 <= k <= maxAttempts, numbered from 1, and sleeps
    the back-off delay between two consecutive requests and nowhere else,
    so at most (k-1) * maxDelayMs in all; every attempt before the k-th
    ended in a retryable error; the call returns the content of the k-th
    attempt, or throws "Azure API error (<model>): <message>" for the k-th
    attempt's error, which is then not retryable or the budget is used
    up. *)
Theorem chatCompletion_call_profile (cfg : Retry) (model : string)
    (api : nat -> ChatAttempt) :
  1 <= maxAttempts cfg ->
  exists k, 1 <= k <= maxAttempts cfg
    /\ fst (chatCompletionWith cfg model api) = schedule cfg 1 k
    /\ requests (fst (chatCompletionWith cfg model api)) = k
    /\ (sleeps (fst (chatCompletionWith cfg model api))
        <= (Z.of_nat k - 1) * maxDelayMs cfg)%Z
    /\ (forall i, 1 <= i < k ->
          exists e, chat_try (api i) = inl e /\ isRetryable e = true)
    /\ match snd (chatCompletionWith cfg model api) with
       | Ok content => chat_try (api k) = inr content
       | Throw msg =>
           exists e, chat_try (api k) = inl e
             /\ msg = "Azure API error (" ++ model ++ "): " ++ message e
             /\ (isRetryable e = false \/ k = maxAttempts cfg)
       end.
Proof.
  intro Hmax.
  destruct (chatCompletion_retry_policy cfg model api Hmax)
    as (k & Hk & Heff & Hreq & Hretry & Hres).
  exists k. split; [exact Hk|]. split; [exact Heff|]. split; [exact Hreq|].
  split; [|split; assumption].
  rewrite Heff. apply schedule_sleeps. lia.
Qed.

Lemma chatCompletion_call_profile_witness :
  1 <= maxAttempts (retry ENGINE_CONFIG)
  /\ exists k, 1 <= k <= 3
       /\ fst (chatCompletion "gpt-4o-mini" (fun _ => ChatAnswered (Some "ok")))
          = schedule (retry ENGINE_CONFIG) 1 k.
Proof.
  assert (Hmax : 1 <= maxAttempts (retry ENGINE_CONFIG)) by (cbn; lia).
  split; [exact Hmax|].
  destruct (chatCompletion_call_profile (retry ENGINE_CONFIG) "gpt-4o-mini"
              (fun _ => ChatAnswered (Some "ok")) Hmax) as (k & Hk & Heff & _).
  exists k. split; [exact Hk | exact Heff].
Defined.

(** X6: a [createEmbedding] call with a budget of at least one attempt
    makes k requests, 1 <= k <= maxAttempts, with the back-off delay
    between two consecutive requests, so at most (k-1) * maxDelayMs of
    sleep; every attempt before the k-th failed; the call returns the first
    embedding of the k-th answer, and it throws only when the whole budget
    is used up, with "Embedding API error: <message>" of the last
    attempt. *)
Theorem createEmbedding_call_profile (cfg : Retry) (api : nat -> EmbeddingAttempt) :
  1 <= maxAttempts cfg ->
  exists k, 1 <= k <= maxAttempts cfg
    /\ fst (createEmbeddingWith cfg api) = schedule cfg 1 k
    /\ requests (fst (createEmbeddingWith cfg api)) = k
    /\ (sleeps (fst (createEmbeddingWith cfg api))
        <= (Z.of_nat k - 1) * maxDelayMs cfg)%Z
    /\ (forall i, 1 <= i < k -> exists e, embedding_try (api i) = inl e)
    /\ match snd (createEmbeddingWith cfg api) with
       | Ok v => embedding_try (api k) = inr v
       | Throw msg =>
           exists e, embedding_try (api k) = inl e
             /\ msg = "Embedding API error: " ++ message e
             /\ k = maxAttempts cfg
       end.
Proof.
  intro Hmax. unfold createEmbeddingWith.
  assert (Hsum : 1 + maxAttempts cfg = S (maxAttempts cfg)) by reflexivity.
  destruct (embedding_loop_schedule cfg api (maxAttempts cfg) 1 Hmax Hsum)
    as (k & Hk & Heff & Hretry & Hres).
  exists k. replace (1 + k - 1) with k in * by lia.
  split; [lia|]. split; [exact Heff|].
  split; [rewrite Heff; apply schedule_requests|].
  split; [rewrite Heff; apply schedule_sleeps; lia|].
  split; [|exact Hres].
  intros i Hi. apply Hretry. lia.
Qed.

Lemma createEmbedding_call_profile_witness :
  1 <= maxAttempts (retry ENGINE_CONFIG)
  /\ exists k, 1 <= k <= 3
       /\ fst (createEmbedding (fun _ => EmbeddingAnswered [[1%Q; 0%Q]]))
          = schedule (retry ENGINE_CONFIG) 1 k.
Proof.
  assert (Hmax : 1 <= maxAttempts (retry ENGINE_CONFIG)) by (cbn; lia).
  split; [exact Hmax|].
  destruct (createEmbedding_call_profile (retry ENGINE_CONFIG)
              (fun _ => EmbeddingAnswered [[1%Q; 0%Q]]) Hmax) as (k & Hk & Heff & _).
  exists k. split; [exact Hk | exact Heff].
Defined.

Lemma chat_try_content (a : ChatAttempt) (content : string) :
  chat_try a = inr content ->
  content <> "" /\ exists c, a = ChatAnswered (Some c) /\ content = Text.trim c.
Proof.
  destruct a as [e | [c |]]; cbn; try discriminate.
  destruct (String.eqb (Text.trim c) "") eqn:E; [discriminate|].
  intro Hc. injection Hc as <-. apply String.eqb_neq in E.
  split; [exact E | now exists c].
Qed.

Lemma chat_loop_content (cfg : Retry) (model : string) (api : nat -> ChatAttempt)
    (content : string) :
  forall left attempt,
    snd (chat_loop cfg model api left attempt) = Ok content ->
    exists i, attempt <= i < attempt + left /\ chat_try (api i) = inr content.
Proof.
  induction left as [| left IH]; intros attempt; cbn [chat_loop]; [discriminate|].
  destruct (chat_try (api attempt)) as [e | c] eqn:Etry.
  - destruct (_ || _)%bool; [discriminate|].
    specialize (IH (S attempt)).
    destruct (chat_loop cfg model api left (S attempt)) as [effects result].
    cbn [snd] in *. intro Hok. destruct (IH Hok) as (i & Hi & Hc).
    exists i. split; [lia | exact Hc].
  - cbn [snd]. intro Hok. injection Hok as <-.
    exists attempt. split; [lia | exact Etry].
Qed.

(** X7: the text [chatCompletion] returns is never empty and carries no
    leading or trailing white space: it is the trimmed content of one of
    the attempts within the budget.  An answer without content, or with
    nothing but white space, counts as the error "Empty response from Azure
    OpenAI", which is not retried: when it comes on the first attempt
    the call throws after that single request. *)
Theorem chatCompletion_never_returns_empty (cfg : Retry) (model : string)
    (api : nat -> ChatAttempt) :
  (forall content,
      snd (chatCompletionWith cfg model api) = Ok content ->
      content <> "" /\ FenceFacts.trimmed content = true
      /\ exists i c, 1 <= i <= maxAttempts cfg
           /\ api i = ChatAnswered (Some c) /\ content = Text.trim c)
  /\ (forall c,
        1 <= maxAttempts cfg ->
        api 1 = ChatAnswered c ->
        match c with Some text => Text.trim text = "" | None => True end ->
        chatCompletionWith cfg model api
        = ([Request 1],
           Throw ("Azure API error (" ++ model ++ "): Empty response from Azure OpenAI"))).
Proof.
  split.
  - intros content Hok. unfold chatCompletionWith in Hok.
    destruct (chat_loop_content _ _ _ _ _ _ Hok) as (i & Hi & Htry).
    destruct (chat_try_content _ _ Htry) as (Hne & c & Hc & Htrim).
    split; [exact Hne|]. split; [subst content; apply FenceFacts.trim_trimmed|].
    exists i, c. split; [lia|]. split; assumption.
  - intros c Hmax Hfirst Hblank. unfold chatCompletionWith.
    destruct (maxAttempts cfg) as [| n] eqn:Em; [lia|].
    cbn [chat_loop]. rewrite Hfirst.
    assert (Htry : chat_try (ChatAnswered c)
                   = inl {| status := None; code := None;
                            message := "Empty response from Azure OpenAI" |}).
    { destruct c as [text |]; cbn; [|reflexivity]. now rewrite Hblank. }
    rewrite Htry.
    replace (isRetryable _) with false by reflexivity.
    rewrite orb_true_r. reflexivity.
Qed.

Lemma chatCompletion_never_returns_empty_witness :
  snd (chatCompletion "gpt-4.1-mini" (fun _ => ChatAnswered (Some "  x = 1 "))) = Ok "x = 1"
  /\ FenceFacts.trimmed "x = 1" = true.
Proof.
  assert (Hok : snd (chatCompletion "gpt-4.1-mini" (fun _ => ChatAnswered (Some "  x = 1 ")))
                = Ok "x = 1") by reflexivity.
  split; [exact Hok|].
  exact (proj1 (proj2 (proj1 (chatCompletion_never_returns_empty (retry ENGINE_CONFIG)
                                "gpt-4.1-mini" (fun _ => ChatAnswered (Some "  x = 1 ")))
                             "x = 1" Hok))).
Defined.

End GatewayBudget.

(** ** Cosine similarity *)

Module CosineFacts.
Import Gateway.

Lemma sums_swap (a : list Q) :
  forall (b : list Q) (d d' mA mB : Q),
    d == d' ->
    let '(dot, x, y) := sums a b d mA mB in
    let '(dot', y', x') := sums b a d' mB mA in
    dot == dot' /\ x = x' /\ y = y'.
Proof.
  induction a as [| u a IH]; intros [| v b] d d' mA mB Hd; cbn [sums]; auto.
  apply IH. rewrite Hd. ring.
Qed.

Lemma Qeq_bool_compat (x y z : Q) : x == y -> Qeq_bool x z = Qeq_bool y z.
Proof.
  intro Hxy. destruct (Qeq_bool y z) eqn:E.
  - apply Qeq_bool_iff. apply Qeq_bool_iff in E. now rewrite Hxy.
  - destruct (Qeq_bool x z) eqn:E'; [|reflexivity].
    apply Qeq_bool_iff in E'. rewrite Hxy in E'. apply Qeq_bool_iff in E'. congruence.
Qed.

(** X8: [cosineSimilarity] does not depend on the order of its two
    arguments, whatever the platform's square root returns, and vectors of
    different lengths score 0. *)
Theorem cosineSimilarity_symmetric `{Sqrt} (a b : list Q) :
  cosineSimilarity a b == cosineSimilarity b a
  /\ (List.length a <> List.length b -> cosineSimilarity a b = 0).
Proof.
  unfold cosineSimilarity. split.
  - rewrite (Nat.eqb_sym (List.length b)).
    destruct (List.length a =? List.length b)%nat; cbn [negb]; [|reflexivity].
    pose proof (sums_swap a b 0 0 0 0 (Qeq_refl 0)) as Hswap.
    destruct (sums a b 0 0 0) as [[dot x] y].
    destruct (sums b a 0 0 0) as [[dot' y'] x'].
    destruct Hswap as (Hdot & -> & ->).
    assert (Hden : Math_sqrt x' * Math_sqrt y' == Math_sqrt y' * Math_sqrt x') by ring.
    rewrite (Qeq_bool_compat _ _ 0 Hden).
    destruct (Qeq_bool (Math_sqrt y' * Math_sqrt x') 0); [reflexivity|].
    rewrite Hdot, Hden. reflexivity.
  - intro Hlen. apply Nat.eqb_neq in Hlen. now rewrite Hlen.
Qed.

Lemma cosineSimilarity_symmetric_witness :
  List.length [1; 2] <> List.length [3]
  /\ @cosineSimilarity Samples.sqrt_of_squares [1; 2] [3] = 0.
Proof.
  assert (Hlen : List.length [1; 2] <> List.length [3]) by (cbn; lia).
  split; [exact Hlen|].
  exact (proj2 (@cosineSimilarity_symmetric Samples.sqrt_of_squares [1; 2] [3]) Hlen).
Defined.

End CosineFacts.

(** ** Retrieval: what is selected *)

Module SelectionFacts.
Import Retrieval DocChunk NumberFacts.

(** Scores do not increase along the list. *)
Fixpoint descending (l : list Scored) : Prop :=
  match l with
  | [] => True
  | c :: rest => Forall (fun d => s_score d <= s_score c) rest /\ descending rest
  end.

Lemma insert_by_score_In (c x : Scored) (l : list Scored) :
  In x (insert_by_score c l) <-> x = c \/ In x l.
Proof.
  induction l as [| d l IH]; cbn [insert_by_score].
  - cbn. intuition.
  - destruct (Qle_bool (s_score d) (s_score c)); cbn [In]; [intuition|].
    rewrite IH. intuition.
Qed.

Lemma insert_by_score_length (c : Scored) (l : list Scored) :
  List.length (insert_by_score c l) = S (List.length l).
Proof.
  induction l as [| d l IH]; cbn [insert_by_score]; [reflexivity|].
  destruct (Qle_bool (s_score d) (s_score c)); cbn [List.length]; [reflexivity|].
  now rewrite IH.
Qed.

Lemma insert_by_score_descending (c : Scored) (l : list Scored) :
  descending l -> descending (insert_by_score c l).
Proof.
  induction l as [| d l IH]; cbn [insert_by_score descending].
  - intros _. split; [constructor | exact I].
  - intros [Hd Hl].
    destruct (Qle_bool (s_score d) (s_score c)) eqn:E.
    + apply Qle_bool_iff in E. cbn [descending]. split; [|split; assumption].
      constructor; [exact E|].
      eapply Forall_impl; [|exact Hd]. cbn. intros a Ha. lra.
    + apply geq_false_iff in E. cbn [descending]. split; [|now apply IH].
      apply Forall_forall. intros x Hx. apply insert_by_score_In in Hx as [-> | Hx].
      * lra.
      * rewrite Forall_forall in Hd. now apply Hd.
Qed.

Lemma sort_by_score_descending (l : list Scored) : descending (sort_by_score l).
Proof.
  induction l as [| c l IH]; [exact I|].
  cbn [sort_by_score fold_right]. now apply insert_by_score_descending.
Qed.

Lemma sort_by_score_In (x : Scored) (l : list Scored) :
  In x (sort_by_score l) <-> In x l.
Proof.
  induction l as [| c l IH]; [reflexivity|].
  cbn [sort_by_score fold_right In]. rewrite insert_by_score_In.
  fold (sort_by_score l). rewrite IH. intuition.
Qed.

Lemma sort_by_score_length (l : list Scored) :
  List.length (sort_by_score l) = List.length l.
Proof.
  induction l as [| c l IH]; [reflexivity|].
  cbn [sort_by_score fold_right]. rewrite insert_by_score_length.
  fold (sort_by_score l). now rewrite IH.
Qed.

Lemma filter_descending (f : Scored -> bool) (l : list Scored) :
  descending l -> descending (filter f l).
Proof.
  induction l as [| c l IH]; [auto|]. cbn [descending filter]. intros [Hc Hl].
  destruct (f c); [|now apply IH]. cbn [descending]. split; [|now apply IH].
  rewrite Forall_forall in *. intros x Hx. apply filter_In in Hx as [Hx _]. now apply Hc.
Qed.

Lemma In_firstn {A : Type} (k : nat) (l : list A) (x : A) :
  In x (firstn k l) -> In x l.
Proof.
  revert l. induction k as [| k IH]; intros [| c l]; cbn [firstn In]; auto; try tauto.
  intros [-> | Hx]; [now left | right; now apply IH].
Qed.

Lemma firstn_descending (k : nat) (l : list Scored) :
  descending l -> descending (firstn k l).
Proof.
  revert l. induction k as [| k IH]; intros [| c l]; cbn [firstn descending]; auto.
  intros [Hc Hl]. split; [|now apply IH].
  rewrite Forall_forall in *. intros x Hx. apply Hc. eapply In_firstn; exact Hx.
Qed.

Lemma firstn_nil_inv {A : Type} (k : nat) (l : list A) :
  (1 <= k)%nat -> firstn k l = [] -> l = [].
Proof. destruct k; [lia|]. destruct l; [reflexivity | discriminate]. Qed.

Lemma filter_nil_below (t : Q) (l : list Scored) :
  filter (clears t) l = [] -> forall c, In c l -> s_score c < t.
Proof.
  intros Hf c Hin. apply geq_false_iff.
  destruct (geq (s_score c) t) eqn:E; [|reflexivity].
  assert (Hc : In c (filter (clears t) l)) by (apply filter_In; split; assumption).
  rewrite Hf in Hc. destruct Hc.
Qed.

(** What a retrieval result is made of. *)
Definition made_of (o : Options) (r : Retrieved) (selected : list Scored) : Prop :=
  context r = Text.join separator (map s_text selected)
  /\ (1 <= List.length selected <= maxChunks o)%nat
  /\ descending selected
  /\ ((forall c, In c selected -> similarityThreshold o <= s_score c)
      \/ (forall c, In c selected -> s_score c < similarityThreshold o)).

Section Selected.
Context `{Gateway.Sqrt}.
Variable sha256_hex : string -> string.
Variable taskEmbedding : outcome (list Q).
Variable createEmbedding : string -> outcome (list Q).
Variable db : Collection.

Lemma from_cache_made_of (o : Options) (cachedChunks : list IDocChunk) (r : Retrieved) :
  from_cache taskEmbedding o cachedChunks = Ok r ->
  similarity r = 1 # 2 \/ exists selected, made_of o r selected.
Proof.
  unfold from_cache. destruct taskEmbedding as [te | e]; [|discriminate].
  match goal with |- context [firstn _ ?l] => set (ranked := l) end.
  destruct (0 <? List.length (firstn (maxChunks o) ranked))%nat eqn:Esome;
    intro Hr; injection Hr as <-; [|now left].
  right. exists (firstn (maxChunks o) ranked).
  apply Nat.ltb_lt in Esome.
  assert (Hclear : forall c, In c (firstn (maxChunks o) ranked) ->
                             similarityThreshold o <= s_score c).
  { intros c Hc. apply In_firstn in Hc. unfold ranked in Hc.
    apply (proj1 (sort_by_score_In _ _)) in Hc.
    apply filter_In in Hc as [_ Hc]. now apply geq_iff in Hc. }
  repeat split; try reflexivity.
  - exact Esome.
  - rewrite length_firstn. lia.
  - apply firstn_descending, sort_by_score_descending.
  - left. exact Hclear.
Qed.

Lemma in_memory_made_of (docContent : string) (o : Options) (r : Retrieved) :
  (1 <= maxChunks o)%nat ->
  in_memory taskEmbedding createEmbedding docContent o = Ok r ->
  similarity r = 3 # 10 \/ similarity r = 1 \/ exists selected, made_of o r selected.
Proof.
  intro Hk. unfold in_memory.
  destruct (_ || _); [intro Hr; injection Hr as <-; now left|].
  destruct (List.length (splitIntoChunks docContent 500) <=? 2)%nat eqn:Efew;
    [intro Hr; injection Hr as <-; right; now left|].
  apply Nat.leb_gt in Efew.
  destruct taskEmbedding as [te | e]; [|discriminate].
  cbv zeta.
  set (scoredChunks := sort_by_score (map (score_chunk createEmbedding te)
                                          (splitIntoChunks docContent 500))).
  assert (Hlen : (2 < List.length scoredChunks)%nat).
  { unfold scoredChunks. now rewrite sort_by_score_length, length_map. }
  assert (Hdesc : descending scoredChunks) by apply sort_by_score_descending.
  set (topChunks := firstn (maxChunks o)
                           (filter (clears (similarityThreshold o)) scoredChunks)).
  destruct (0 <? List.length topChunks)%nat eqn:Etop;
    intro Hr; injection Hr as <-; right; right.
  - apply Nat.ltb_lt in Etop. exists topChunks.
    assert (Hclear : forall c, In c topChunks -> similarityThreshold o <= s_score c).
    { intros c Hc. apply In_firstn in Hc.
      apply filter_In in Hc as [_ Hc]. now apply geq_iff in Hc. }
    repeat split; try reflexivity.
    + exact Etop.
    + unfold topChunks. rewrite length_firstn. lia.
    + now apply firstn_descending, filter_descending.
    + left. exact Hclear.
  - apply Nat.ltb_ge in Etop. exists (firstn (maxChunks o) scoredChunks).
    assert (Hnone : filter (clears (similarityThreshold o)) scoredChunks = []).
    { apply (firstn_nil_inv (maxChunks o)); [exact Hk|].
      fold topChunks. destruct topChunks; [reflexivity | cbn in Etop; lia]. }
    repeat split; try reflexivity.
    + rewrite length_firstn. lia.
    + rewrite length_firstn. lia.
    + now apply firstn_descending.
    + right. intros c Hc. apply In_firstn in Hc.
      now apply (filter_nil_below _ scoredChunks).
Qed.


End Selected.


End SelectionFacts.

(** ** Retrieval: the size of in-memory chunks *)

Module ChunkFacts.
Import Text Split Retrieval.
Local Open Scope nat_scope.

Lemma length_text (l : list ascii) : String.length (text l) = List.length l.
Proof. unfold text. induction l as [| c l IH]; [reflexivity|]. cbn. now rewrite IH. Qed.

Lemma length_chars (s : string) : List.length (chars s) = String.length s.
Proof. unfold chars. induction s as [| c s IH]; [reflexivity|]. cbn. now rewrite IH. Qed.

Lemma length_append (a b : string) :
  String.length (a ++ b) = String.length a + String.length b.
Proof. induction a as [| c a IH]; [reflexivity|]. cbn. now rewrite IH. Qed.

Lemma length_drop_space (l : list ascii) : List.length (drop_space l) <= List.length l.
Proof.
  induction l as [| c l IH]; [reflexivity|].
  cbn [drop_space]. destruct (is_space c); cbn [List.length]; lia.
Qed.

Lemma length_trim (s : string) : String.length (trim s) <= String.length s.
Proof.
  unfold trim, trim_chars. rewrite length_text, length_rev, <- length_chars.
  etransitivity; [apply length_drop_space|].
  rewrite length_rev. apply length_drop_space.
Qed.

Lemma length_zero (s : string) : String.length s = 0 -> s = "".
Proof. destruct s; [reflexivity | discriminate]. Qed.

(** A text of at most [maxLen + 2] characters, or a paragraph on its own. *)
Definition sized (maxLen : nat) (paras : list string) (s : string) : Prop :=
  String.length s <= maxLen + 2 \/ In s paras.

Definition pending (current : string) : nat :=
  if String.eqb current "" then 0 else 1.

(** What the loop of [splitIntoChunks] maintains after [n] paragraphs. *)
Definition invariant (maxLen : nat) (paras : list string) (n : nat)
    (st : list string * string) : Prop :=
  sized maxLen paras (snd st)
  /\ Forall (fun c => exists current, sized maxLen paras current /\ c = trim current) (fst st)
  /\ List.length (fst st) + pending (snd st) <= n.

Lemma add_paragraph_invariant (maxLen : nat) (paras : list string) (n : nat)
    (st : list string * string) (para : string) :
  In para paras -> invariant maxLen paras n st ->
  invariant maxLen paras (S n) (add_paragraph maxLen st para).
Proof.
  intros Hin (Hcur & Hchunks & Hcount). destruct st as [chunks current].
  cbn [fst snd] in *. unfold add_paragraph.
  destruct ((maxLen <? String.length current + String.length para)
            && (0 <? String.length current))%bool eqn:Efull.
  - apply andb_true_iff in Efull as [_ Hpos]. apply Nat.ltb_lt in Hpos.
    assert (Hp : pending current = 1).
    { unfold pending. destruct (String.eqb current "") eqn:E; [|reflexivity].
      apply String.eqb_eq in E. subst current. cbn in Hpos. lia. }
    split; [|split]; cbn [fst snd].
    + now right.
    + apply Forall_app. split; [exact Hchunks|].
      constructor; [|constructor]. now exists current.
    + rewrite length_app. cbn [List.length].
      assert (pending para <= 1) by (unfold pending; destruct (String.eqb para ""); lia).
      lia.
  - split; [|split]; cbn [fst snd].
    + destruct (String.eqb current "") eqn:E.
      * apply String.eqb_eq in E. subst current. now right.
      * left. apply andb_false_iff in Efull as [Hfit | Hzero].
        -- apply Nat.ltb_ge in Hfit. rewrite !length_append.
           change (String.length blank_line) with 2. lia.
        -- apply Nat.ltb_ge in Hzero. apply String.eqb_neq in E.
           exfalso. apply E. apply length_zero. lia.
    + exact Hchunks.
    + match goal with |- _ + pending ?s <= _ =>
        assert (pending s <= 1) by (unfold pending; destruct (String.eqb s ""); lia)
      end.
      assert (0 <= pending current) by lia. lia.
Qed.

Lemma fold_invariant (maxLen : nat) (paras : list string) :
  forall (todo : list string) (n : nat) (st : list string * string),
    (forall p, In p todo -> In p paras) ->
    invariant maxLen paras n st ->
    invariant maxLen paras (n + List.length todo) (fold_left (add_paragraph maxLen) todo st).
Proof.
  induction todo as [| para todo IH]; intros n st Hsub Hinv; cbn [fold_left List.length].
  - now rewrite Nat.add_0_r.
  - replace (n + S (List.length todo)) with (S n + List.length todo) by lia.
    apply IH; [intros p Hp; apply Hsub; now right|].
    apply add_paragraph_invariant; [apply Hsub; now left | exact Hinv].
Qed.

(** X10: every chunk that [splitIntoChunks] returns is trimmed, and it is
    the trimmed form of a text of at most [maxLen + 2] characters or of a
    single paragraph of the document, so only a paragraph that is too long
    on its own gives a chunk above that size; and there are never more
    chunks than paragraphs. *)
Theorem splitIntoChunks_sizes (content : string) (maxLen : nat) :
  Forall (fun c => FenceFacts.trimmed c = true
                   /\ (String.length c <= maxLen + 2
                       \/ exists para, In para (paragraphs content) /\ c = trim para))
         (splitIntoChunks content maxLen)
  /\ List.length (splitIntoChunks content maxLen) <= List.length (paragraphs content).
Proof.
  unfold splitIntoChunks.
  assert (Hstart : invariant maxLen (paragraphs content) 0 ([], "")).
  { split; [left; cbn; lia|]. split; [constructor | cbn; lia]. }
  pose proof (fold_invariant maxLen (paragraphs content) (paragraphs content) 0 ([], "")
                (fun p Hp => Hp) Hstart) as Hinv.
  destruct (fold_left (add_paragraph maxLen) (paragraphs content) ([], ""))
    as [chunks current].
  destruct Hinv as (Hcur & Hchunks & Hcount). cbn [fst snd] in *.
  assert (Hshape : forall current', sized maxLen (paragraphs content) current' ->
            FenceFacts.trimmed (trim current') = true
            /\ (String.length (trim current') <= maxLen + 2
                \/ exists para, In para (paragraphs content) /\ trim current' = trim para)).
  { intros current' [Hlen | Hin]; (split; [apply FenceFacts.trim_trimmed|]).
    - left. pose proof (length_trim current'). lia.
    - right. now exists current'. }
  assert (Hall : Forall (fun c => FenceFacts.trimmed c = true
                   /\ (String.length c <= maxLen + 2
                       \/ exists para, In para (paragraphs content) /\ c = trim para))
                        chunks).
  { eapply Forall_impl; [|exact Hchunks]. cbn. intros c (current' & Hs & ->).
    now apply Hshape. }
  destruct (String.eqb (trim current) "") eqn:Eblank.
  - split; [exact Hall | lia].
  - split.
    + apply Forall_app. split; [exact Hall|]. constructor; [|constructor].
      now apply Hshape.
    + rewrite length_app. cbn [List.length].
      assert (Hp : pending current = 1).
      { unfold pending. destruct (String.eqb current "") eqn:E; [|reflexivity].
        apply String.eqb_eq in E. subst current. discriminate Eblank. }
      lia.
Qed.

End ChunkFacts.

(** ** Document ingestion: what a run stores *)

Module StoreFacts.
Import Text Split TextFacts DocChunk Ingestion IngestionFacts.
Local Open Scope nat_scope.

(** The rows of one ingestion, as the loop writes them. *)
Definition written (env : Env) (docId url h version : string) (r : IDocChunk) : Prop :=
  urlHash r = h /\ DocChunk.docId r = docId /\ DocChunk.url r = url
  /\ DocChunk.version r = version
  /\ tokenCount r = estimateTokens (text r)
  /\ (embedding r = [] \/ createEmbedding env (text r) = Ok (embedding r)).

Lemma row_written (env : Env) (docId url h version : string) (i : nat) (chunk : string)
    (e : list Q) :
  e = [] \/ createEmbedding env chunk = Ok e ->
  written env docId url h version (row docId url h version i chunk e).
Proof. intro He. repeat split. exact He. Qed.

Lemma create_trace (env : Env) (r : IDocChunk) (w w' : World) (o : outcome unit) :
  create env r w = (o, w') ->
  match o with
  | Ok _ => accepts env r = true
            /\ db w' = List.app (db w) [r]
            /\ effects w' = List.app (effects w) [Create r]
  | Throw _ => accepts env r = false /\ w' = w
  end.
Proof.
  unfold create. destruct (accepts env r); intro Hc; injection Hc as <- <-;
    repeat split; reflexivity.
Qed.

(** Whatever the outcome, the loop only appends rows of this URL; when
    it completes there is one row per chunk, in order. *)
Lemma store_chunks_trace (env : Env) (docId url h version : string) :
  forall (rest : list string) (i : nat) (w w' : World) (o : outcome unit),
    store_chunks env docId url h version i rest w = (o, w') ->
    exists rows, db w' = List.app (db w) rows
      /\ Forall (written env docId url h version) rows
      /\ (o = Ok tt ->
          map chunkIndex rows = seq i (List.length rest)
          /\ map text rows = rest
          /\ effects w'
             = List.app (effects w)
                        (flat_map (fun r => [CreateEmbedding (text r); Create r]) rows)).
Proof.
  induction rest as [| chunk rest IH]; intros i w w' o Hs; cbn [store_chunks] in Hs.
  - injection Hs as <- <-. exists []. rewrite !app_nil_r.
    split; [reflexivity|]. split; [constructor|]. intros _. repeat split.
  - unfold embed_and_create in Hs.
    set (w1 := record (CreateEmbedding chunk) w) in Hs.
    assert (Hstep : forall w3 e,
              e = [] \/ createEmbedding env chunk = Ok e ->
              create env (row docId url h version i chunk e) w1 = (Ok tt, w3) ->
              store_chunks env docId url h version (S i) rest w3 = (o, w') ->
              exists rows, db w' = List.app (db w) rows
                /\ Forall (written env docId url h version) rows
                /\ (o = Ok tt ->
                    map chunkIndex rows = seq i (S (List.length rest))
                    /\ map text rows = chunk :: rest
                    /\ effects w'
                       = List.app (effects w)
                           (flat_map (fun r => [CreateEmbedding (text r); Create r]) rows))).
    { intros w3 e He Hc Hrest.
      apply create_trace in Hc as (_ & Hdb3 & Heff3).
      destruct (IH _ _ _ _ Hrest) as (rows & Hrows & Hall & Hok).
      exists (row docId url h version i chunk e :: rows).
      split; [|split].
      - rewrite Hrows, Hdb3. change (db w1) with (db w). now rewrite <- app_assoc.
      - constructor; [now apply row_written | exact Hall].
      - intro Ho. destruct (Hok Ho) as (Hidx & Htext & Heff).
        cbn [map chunkIndex text row seq flat_map].
        rewrite Hidx, Htext, Heff, Heff3.
        change (effects w1) with (List.app (effects w) [CreateEmbedding chunk]).
        repeat split. rewrite <- !app_assoc. reflexivity. }
    assert (Hstop : forall e err,
              create env (row docId url h version i chunk e) w1 = (Throw err, w') ->
              o = Throw err ->
              exists rows, db w' = List.app (db w) rows
                /\ Forall (written env docId url h version) rows
                /\ (o = Ok tt ->
                    map chunkIndex rows = seq i (S (List.length rest))
                    /\ map text rows = chunk :: rest
                    /\ effects w'
                       = List.app (effects w)
                           (flat_map (fun r => [CreateEmbedding (text r); Create r]) rows))).
    { intros e err Hc ->. apply create_trace in Hc as (_ & ->).
      exists []. rewrite app_nil_r. split; [reflexivity|]. split; [constructor|].
      discriminate. }
    destruct (createEmbedding env chunk) as [e | err] eqn:Eembed.
    + destruct (create env (row docId url h version i chunk e) w1) as [[[] | err] w2] eqn:Ec.
      * apply (Hstep w2 e); [now right | exact Ec | exact Hs].
      * pose proof (create_trace _ _ _ _ _ Ec) as [_ Hsame]. subst w2.
        destruct (create env (row docId url h version i chunk []) w1)
          as [[[] | err'] w3] eqn:Ec2.
        -- apply (Hstep w3 []); [now left | exact Ec2 | exact Hs].
        -- injection Hs as <- <-. apply (Hstop [] err'); [exact Ec2 | reflexivity].
    + destruct (create env (row docId url h version i chunk []) w1)
        as [[[] | err'] w3] eqn:Ec2.
      * apply (Hstep w3 []); [now left | exact Ec2 | exact Hs].
      * injection Hs as <- <-. apply (Hstop [] err'); [exact Ec2 | reflexivity].
Qed.

Lemma store_chunks_accepted (env : Env) (docId url h version : string) :
  (forall r, accepts env r = true) ->
  forall (rest : list string) (i : nat) (w : World),
    exists w', store_chunks env docId url h version i rest w = (Ok tt, w').
Proof.
  intro Hacc. induction rest as [| chunk rest IH]; intros i w; cbn [store_chunks].
  - now exists w.
  - unfold embed_and_create, create.
    destruct (createEmbedding env chunk) as [e | err]; rewrite !Hacc; apply IH.
Qed.

Lemma find_written (env : Env) (docId url h version : string) (rows : list IDocChunk) :
  Forall (written env docId url h version) rows -> find (hash_query h) rows = rows.
Proof.
  unfold find. induction 1 as [| r rows Hr Hall IH]; [reflexivity|].
  cbn [filter]. unfold matches at 1. cbn. destruct Hr as [-> _].
  rewrite String.eqb_refl. cbn. now rewrite IH.
Qed.

Lemma find_other (env : Env) (docId url h version other : string) (rows : list IDocChunk) :
  other <> h ->
  Forall (written env docId url h version) rows -> find (hash_query other) rows = [].
Proof.
  intro Hne. unfold find. induction 1 as [| r rows Hr Hall IH]; [reflexivity|].
  cbn [filter]. unfold matches at 1. cbn. destruct Hr as [-> _].
  apply String.eqb_neq in Hne. rewrite Hne. cbn. exact IH.
Qed.

Lemma find_deleteMany (h : string) (stored : Collection) :
  find (hash_query h) (deleteMany (hash_query h) stored) = [].
Proof.
  unfold find, deleteMany. induction stored as [| c stored IH]; [reflexivity|].
  cbn [filter]. destruct (matches (hash_query h) c) eqn:E; cbn [negb]; [exact IH|].
  cbn [filter]. now rewrite E.
Qed.

Lemma find_deleteMany_other (h other : string) (stored : Collection) :
  other <> h ->
  find (hash_query other) (deleteMany (hash_query h) stored)
  = find (hash_query other) stored.
Proof.
  intro Hne. unfold find, deleteMany. induction stored as [| c stored IH]; [reflexivity|].
  cbn [filter]. destruct (matches (hash_query h) c) eqn:E; cbn [negb].
  - rewrite IH. unfold matches in E |- *. cbn in E |- *.
    rewrite andb_true_r in E. apply String.eqb_eq in E. rewrite <- E.
    apply String.eqb_neq in Hne. now rewrite Hne.
  - cbn [filter]. now rewrite IH.
Qed.

Lemma find_app (q : Query) (a b : Collection) :
  find q (List.app a b) = List.app (find q a) (find q b).
Proof. apply filter_app. Qed.

Lemma find_nil_of_count (q : Query) (stored : Collection) :
  (0 <? countDocuments q stored) = false -> find q stored = [].
Proof.
  unfold countDocuments. intro Hz. apply Nat.ltb_ge in Hz.
  destruct (find q stored); [reflexivity | cbn in Hz; lia].
Qed.

Definition unusable (fetched : outcome string) : bool :=
  match fetched with
  | Throw _ => true
  | Ok raw => String.eqb raw "" || (String.length (trim raw) <? 50)
  end.

Section Runs.
Context `{RegExp}.
Variable env : Env.
Variable url : string.

(** The rows a run leaves under the URL's hash when it is not a cache
    hit. *)
Lemma fresh_ingest_found (options : IngestionOptions) (w w' : World)
    (res : IngestionResult) :
  ingestDocument env url options w = (Ok res, w') ->
  cached res = false ->
  exists raw rows,
    fetchContent env url = Ok raw
    /\ (String.length (trim raw) <? 50) = false
    /\ res = {| r_docId := randomUUID env; r_url := url;
                r_urlHash := hashUrl (sha256_hex env) url;
                r_version := detectVersion url raw;
                chunkCount := List.length (chunkContent raw 800 1200);
                cached := false |}
    /\ find (hash_query (hashUrl (sha256_hex env) url)) (db w') = rows
    /\ Forall (written env (randomUUID env) url (hashUrl (sha256_hex env) url)
                       (detectVersion url raw)) rows
    /\ map chunkIndex rows = seq 0 (List.length (chunkContent raw 800 1200))
    /\ map text rows = chunkContent raw 800 1200.
Proof.
  intros Hrun Hfresh. unfold ingestDocument in Hrun.
  set (h := hashUrl (sha256_hex env) url) in *.
  destruct (negb (forceRefresh options) && (0 <? countDocuments (hash_query h) (db w)))%bool
    eqn:Ehit.
  { injection Hrun as <- <-. discriminate Hfresh. }
  set (w0 := if forceRefresh options
             then record (DeleteMany h)
                         {| db := deleteMany (hash_query h) (db w); effects := effects w |}
             else w) in Hrun.
  assert (Hempty : find (hash_query h) (db w0) = []).
  { unfold w0. destruct (forceRefresh options); cbn [negb andb] in Ehit.
    - apply find_deleteMany.
    - now apply find_nil_of_count. }
  set (w1 := record (FetchContent url) w0) in Hrun.
  destruct (fetchContent env url) as [raw | err]; [|discriminate Hrun].
  destruct (String.eqb raw "" || (String.length (trim raw) <? 50)) eqn:Eshort;
    [discriminate Hrun|].
  apply orb_false_iff in Eshort as [_ Hlong].
  destruct (store_chunks env (randomUUID env) url h (detectVersion url raw) 0
              (chunkContent raw 800 1200) w1) as [[[] | err] w2] eqn:Estore;
    [|discriminate Hrun].
  injection Hrun as <- <-.
  destruct (store_chunks_trace _ _ _ _ _ _ _ _ _ _ Estore) as (rows & Hdb & Hall & Hok).
  destruct (Hok eq_refl) as (Hidx & Htext & _).
  exists raw, rows. split; [reflexivity|]. split; [exact Hlong|]. split; [reflexivity|].
  split; [|split; [exact Hall | split; [exact Hidx | exact Htext]]].
  rewrite Hdb. change (db w1) with (db w0).
  rewrite find_app, Hempty. cbn [List.app]. exact (find_written _ _ _ _ _ _ Hall).
Qed.

(** X11: when [ingestDocument] returns a result that is not a cache hit
    (a first ingestion or a forced refresh), the chunks stored under the
    URL's hash are exactly the chunks of the fetched content, one row per
    chunk in order, numbered 0, 1, 2, ... without gaps or repeats, all with
    the document id and version of the result; the reported chunk count is
    their number and at least 1; each row carries the embedding the service
    gave for its text, or none. *)
Theorem ingest_stores_the_chunks (options : IngestionOptions) (w w' : World)
    (res : IngestionResult) :
  ingestDocument env url options w = (Ok res, w') ->
  cached res = false ->
  exists raw,
    fetchContent env url = Ok raw
    /\ r_urlHash res = hashUrl (sha256_hex env) url
    /\ map text (find (hash_query (r_urlHash res)) (db w')) = chunkContent raw 800 1200
    /\ map chunkIndex (find (hash_query (r_urlHash res)) (db w')) = seq 0 (chunkCount res)
    /\ 1 <= chunkCount res
    /\ Forall (written env (r_docId res) url (r_urlHash res) (r_version res))
              (find (hash_query (r_urlHash res)) (db w')).
Proof.
  intros Hrun Hfresh.
  destruct (fresh_ingest_found options w w' res Hrun Hfresh)
    as (raw & rows & Hfetch & Hlong & -> & Hfound & Hall & Hidx & Htext).
  cbn [r_urlHash r_docId r_version chunkCount].
  exists raw. rewrite Hfound.
  split; [exact Hfetch|]. split; [reflexivity|]. split; [exact Htext|].
  split; [exact Hidx|]. split; [|exact Hall].
  apply long_after_trim_visible in Hlong.
  pose proof (chunkContent_not_nil raw 800 1200 Hlong) as Hne.
  destruct (chunkContent raw 800 1200); [contradiction | cbn; lia].
Qed.

(** X12: whatever a call of [ingestDocument] does and however it ends,
    the chunks stored under the hash of any other URL are the same after
    the call as before. *)
Theorem ingest_leaves_other_documents (options : IngestionOptions) (w : World)
    (other : string) :
  other <> hashUrl (sha256_hex env) url ->
  find (hash_query other) (db (snd (ingestDocument env url options w)))
  = find (hash_query other) (db w).
Proof.
  intro Hne. unfold ingestDocument.
  set (h := hashUrl (sha256_hex env) url) in *.
  destruct (negb (forceRefresh options) && (0 <? countDocuments (hash_query h) (db w)))%bool;
    [reflexivity|].
  set (w0 := if forceRefresh options
             then record (DeleteMany h)
                         {| db := deleteMany (hash_query h) (db w); effects := effects w |}
             else w).
  assert (Hsame : find (hash_query other) (db w0) = find (hash_query other) (db w)).
  { unfold w0. destruct (forceRefresh options); [|reflexivity].
    now apply find_deleteMany_other. }
  set (w1 := record (FetchContent url) w0).
  destruct (fetchContent env url) as [raw | err]; [|exact Hsame].
  destruct (String.eqb raw "" || (String.length (trim raw) <? 50)); [exact Hsame|].
  destruct (store_chunks env (randomUUID env) url h (detectVersion url raw) 0
              (chunkContent raw 800 1200) w1) as [o w2] eqn:Estore.
  destruct (store_chunks_trace _ _ _ _ _ _ _ _ _ _ Estore) as (rows & Hdb & Hall & _).
  assert (Hgoal : find (hash_query other) (db w2) = find (hash_query other) (db w)).
  { rewrite Hdb. change (db w1) with (db w0).
    rewrite find_app, Hsame.
    rewrite (find_other _ _ _ _ _ _ _ Hne Hall). apply app_nil_r. }
  destruct o as [[] | err]; exact Hgoal.
Qed.

(** X13: a forced refresh deletes the stored chunks of the URL before it
    fetches.  When the fetch then fails, or yields fewer than 50 characters
    after trimming, the call throws, and it leaves no chunk stored for the
    URL: the call did the deletion and one fetch and nothing else. *)
Theorem failed_refresh_loses_the_chunks (options : IngestionOptions) (w : World) :
  forceRefresh options = true ->
  unusable (fetchContent env url) = true ->
  let h := hashUrl (sha256_hex env) url in
  let '(result, w') := ingestDocument env url options w in
  (exists e, result = Throw e)
  /\ countDocuments (hash_query h) (db w') = 0
  /\ effects w' = List.app (effects w) [DeleteMany h; FetchContent url].
Proof.
  intros Hforce Hbad. cbv zeta. unfold ingestDocument.
  set (h := hashUrl (sha256_hex env) url).
  rewrite Hforce. cbn [negb andb].
  assert (Hcount : countDocuments (hash_query h) (deleteMany (hash_query h) (db w)) = 0).
  { unfold countDocuments. now rewrite find_deleteMany. }
  unfold unusable in Hbad.
  destruct (fetchContent env url) as [raw | err].
  - rewrite Hbad. split; [eauto|]. split; [exact Hcount|].
    cbn. now rewrite <- app_assoc.
  - split; [eauto|]. split; [exact Hcount|]. cbn. now rewrite <- app_assoc.
Qed.

(** X14: when the store accepts every row and the fetched content has
    at least 50 characters after trimming, a first ingestion or a forced
    refresh succeeds whatever the embedding service does, also when it fails
    for every chunk: the call fetches once and then, for each chunk in
    turn, asks for one embedding and writes one row. *)
Theorem ingest_survives_embedding_failures (options : IngestionOptions) (w : World)
    (raw : string) :
  (forall r, accepts env r = true) ->
  fetchContent env url = Ok raw ->
  50 <= String.length (trim raw) ->
  forceRefresh options = true
  \/ countDocuments (hash_query (hashUrl (sha256_hex env) url)) (db w) = 0 ->
  exists res w' rows,
    ingestDocument env url options w = (Ok res, w')
    /\ cached res = false
    /\ chunkCount res = List.length rows
    /\ map text rows = chunkContent raw 800 1200
    /\ effects w'
       = List.app (effects w)
           (List.app (if forceRefresh options
                      then [DeleteMany (hashUrl (sha256_hex env) url)] else [])
              (FetchContent url
               :: flat_map (fun r => [CreateEmbedding (text r); Create r]) rows)).
Proof.
  intros Hacc Hfetch Hlong Hfirst. unfold ingestDocument.
  set (h := hashUrl (sha256_hex env) url) in *.
  assert (Hmiss : (negb (forceRefresh options)
                   && (0 <? countDocuments (hash_query h) (db w)))%bool = false).
  { destruct Hfirst as [-> | ->]; [reflexivity | apply andb_false_r]. }
  rewrite Hmiss, Hfetch.
  assert (Hraw : (String.eqb raw "" || (String.length (trim raw) <? 50)) = false).
  { apply orb_false_iff. split.
    - apply String.eqb_neq. intros ->. cbn in Hlong. lia.
    - now apply Nat.ltb_ge. }
  rewrite Hraw.
  set (w0 := if forceRefresh options
             then record (DeleteMany h)
                         {| db := deleteMany (hash_query h) (db w); effects := effects w |}
             else w).
  set (w1 := record (FetchContent url) w0).
  destruct (store_chunks_accepted env (randomUUID env) url h (detectVersion url raw) Hacc
              (chunkContent raw 800 1200) 0 w1) as [w2 Hstore].
  rewrite Hstore.
  destruct (store_chunks_trace _ _ _ _ _ _ _ _ _ _ Hstore) as (rows & _ & _ & Hok).
  destruct (Hok eq_refl) as (_ & Htext & Heff).
  exists {| r_docId := randomUUID env; r_url := url; r_urlHash := h;
            r_version := detectVersion url raw;
            chunkCount := List.length (chunkContent raw 800 1200); cached := false |},
         w2, rows.
  split; [reflexivity|]. split; [reflexivity|].
  split; [cbn [chunkCount]; now rewrite <- Htext, length_map|].
  split; [exact Htext|].
  rewrite Heff. unfold w1, w0, record. cbn [effects].
  destruct (forceRefresh options); cbn [effects]; rewrite <- !app_assoc; reflexivity.
Qed.

End Runs.

(** An embedding service that is down, and a page that cannot be fetched. *)
Definition no_embeddings : Env :=
  {| sha256_hex := sha256_hex sample_env;
     fetchContent := fetchContent sample_env;
     createEmbedding := fun _ => Throw "Embedding API error: 503";
     accepts := fun _ => true;
     randomUUID := randomUUID sample_env |}.

Definition no_page : Env :=
  {| sha256_hex := sha256_hex sample_env;
     fetchContent := fun _ => Throw "Request failed with status code 404";
     createEmbedding := createEmbedding sample_env;
     accepts := fun _ => true;
     randomUUID := randomUUID sample_env |}.

Lemma ingest_stores_the_chunks_witness :
  cached first_result = false
  /\ map chunkIndex (find (hash_query (r_urlHash first_result)) (db world_after_first))
     = seq 0 (chunkCount first_result).
Proof.
  assert (Hrun : @ingestDocument Samples.no_match sample_env sample_url
                   {| forceRefresh := false |} empty_world
                 = (Ok first_result, world_after_first)) by (vm_compute; reflexivity).
  assert (Hfresh : cached first_result = false) by reflexivity.
  split; [exact Hfresh|].
  destruct (@ingest_stores_the_chunks Samples.no_match sample_env sample_url _ _ _ _
              Hrun Hfresh) as (raw & _ & _ & _ & Hidx & _).
  exact Hidx.
Defined.

Lemma ingest_leaves_other_documents_witness :
  "sha256:other" <> hashUrl (sha256_hex sample_env) sample_url
  /\ find (hash_query "sha256:other")
          (db (snd (@ingestDocument Samples.no_match sample_env sample_url
                      {| forceRefresh := true |} world_after_first)))
     = find (hash_query "sha256:other") (db world_after_first).
Proof.
  assert (Hne : "sha256:other" <> hashUrl (sha256_hex sample_env) sample_url)
    by (vm_compute; discriminate).
  split; [exact Hne|].
  exact (@ingest_leaves_other_documents Samples.no_match sample_env sample_url
           {| forceRefresh := true |} world_after_first "sha256:other" Hne).
Defined.

Lemma failed_refresh_loses_the_chunks_witness :
  countDocuments (hash_query (hashUrl (sha256_hex no_page) sample_url))
                 (db world_after_first) = 1
  /\ countDocuments (hash_query (hashUrl (sha256_hex no_page) sample_url))
       (db (snd (@ingestDocument Samples.no_match no_page sample_url
                   {| forceRefresh := true |} world_after_first))) = 0.
Proof.
  split; [vm_compute; reflexivity|].
  pose proof (@failed_refresh_loses_the_chunks Samples.no_match no_page sample_url
                {| forceRefresh := true |} world_after_first eq_refl eq_refl) as Hloss.
  cbv zeta in Hloss.
  destruct (@ingestDocument Samples.no_match no_page sample_url
              {| forceRefresh := true |} world_after_first) as [result w'].
  exact (proj1 (proj2 Hloss)).
Defined.

Lemma ingest_survives_embedding_failures_witness :
  exists res w' (rows : list IDocChunk),
    @ingestDocument Samples.no_match no_embeddings sample_url {| forceRefresh := false |}
      empty_world = (Ok res, w')
    /\ cached res = false
    /\ chunkCount res = List.length rows.
Proof.
  destruct (@ingest_survives_embedding_failures Samples.no_match no_embeddings sample_url
              {| forceRefresh := false |} empty_world
              "os.listdir(path) returns a list with the names of the entries in the directory.")
    as (res & w' & rows & Hrun & Hfresh & Hcount & _).
  - reflexivity.
  - reflexivity.
  - vm_compute. lia.
  - right. reflexivity.
  - exists res, w', rows. repeat split; assumption.
Defined.

End StoreFacts.

(** ** Trace mapping: code blocks *)

Module BlockFacts.
Import Text Split TraceMapping.
Local Open Scope nat_scope.

Definition visible (line : string) : Prop := is_blank line = false.

(** The lines before a block end in a blank line, if there are any. *)
Definition ends_blank (before : list string) : Prop :=
  match rev before with
  | [] => True
  | line :: _ => is_blank line = true
  end.

(** The lines after a block start with a blank line, if there are any. *)
Definition starts_blank (after : list string) : Prop :=
  match after with
  | [] => True
  | line :: _ => is_blank line = true
  end.

(** [b] is a maximal run of non-blank lines of [all]: its line numbers
    are those of the run, counted from 1, and its text is the run joined
    by line feeds. *)
Definition run_of (all : list string) (b : CodeBlock) : Prop :=
  exists before run after,
    all = List.app before (List.app run after)
    /\ startLine b = List.length before + 1
    /\ endLine b = List.length before + List.length run
    /\ run <> []
    /\ Forall visible run
    /\ text b = join nl run
    /\ ends_blank before
    /\ starts_blank after.

(** Blocks in line order, from line [from] on, with at least one line
    between two of them. *)
Fixpoint ordered (from : nat) (bs : list CodeBlock) : Prop :=
  match bs with
  | [] => True
  | b :: rest => from <= startLine b /\ startLine b <= endLine b /\ ordered (endLine b + 2) rest
  end.

(** The first line a further block may start at. *)
Fixpoint next (from : nat) (bs : list CodeBlock) : nat :=
  match bs with
  | [] => from
  | b :: rest => next (endLine b + 2) rest
  end.

Definition covers (b : CodeBlock) (n : nat) : Prop := startLine b <= n <= endLine b.

Lemma ordered_app (bs : list CodeBlock) (b : CodeBlock) :
  forall from,
    ordered from bs -> next from bs <= startLine b -> startLine b <= endLine b ->
    ordered from (List.app bs [b]).
Proof.
  induction bs as [| c bs IH]; intros from Ho Hn Hb; cbn [List.app ordered next] in *.
  - repeat split; assumption.
  - destruct Ho as (H1 & H2 & H3). repeat split; try assumption. now apply IH.
Qed.

Lemma next_app (bs : list CodeBlock) (b : CodeBlock) :
  forall from, next from (List.app bs [b]) = endLine b + 2.
Proof. induction bs as [| c bs IH]; intro from; cbn [List.app next]; auto. Qed.

Lemma ordered_from (bs : list CodeBlock) :
  forall from b, ordered from bs -> In b bs -> from <= startLine b /\ startLine b <= endLine b.
Proof.
  induction bs as [| c bs IH]; intros from b Ho Hin; [destruct Hin|].
  destruct Ho as (H1 & H2 & H3). destruct Hin as [<- | Hin]; [split; assumption|].
  destruct (IH _ _ H3 Hin). split; lia.
Qed.

Lemma ordered_disjoint (bs : list CodeBlock) :
  forall from b1 b2 n,
    ordered from bs -> In b1 bs -> In b2 bs -> covers b1 n -> covers b2 n -> b1 = b2.
Proof.
  unfold covers.
  induction bs as [| c bs IH]; intros from b1 b2 n Ho H1 H2 Hc1 Hc2; [destruct H1|].
  destruct Ho as (Ha & Hb & Hrest).
  destruct H1 as [<- | H1], H2 as [<- | H2].
  - reflexivity.
  - destruct (ordered_from _ _ _ Hrest H2). lia.
  - destruct (ordered_from _ _ _ Hrest H1). lia.
  - now apply (IH _ b1 b2 n Hrest).
Qed.

Lemma snoc_split {A : Type} (done pre post : list A) (x l : A) :
  List.app done [x] = List.app pre (l :: post) ->
  (post = [] /\ pre = done /\ l = x)
  \/ exists post', done = List.app pre (l :: post').
Proof.
  intro Heq. destruct post as [| p post].
  - apply app_inj_tail in Heq as [-> ->]. now left.
  - right. destruct (@exists_last _ (p :: post) ltac:(discriminate)) as (post' & y & Hp).
    rewrite Hp in Heq.
    change (l :: List.app post' [y]) with (List.app (l :: post') [y]) in Heq.
    rewrite app_assoc in Heq. apply app_inj_tail in Heq as [-> _]. now exists post'.
Qed.

(** What the loop of [splitCodeIntoBlocks] maintains once the lines
    [done] of [all] are read. *)
Definition invariant (all done : list string) (st : Scan) : Prop :=
  (exists before,
      done = List.app before (currentLines st)
      /\ blockStart st = List.length before + 1
      /\ ends_blank before)
  /\ Forall visible (currentLines st)
  /\ Forall (run_of all) (blocks st)
  /\ ordered 1 (blocks st)
  /\ next 1 (blocks st) <= blockStart st
  /\ (forall pre l post,
        done = List.app pre (l :: post) -> visible l ->
        (exists b, In b (blocks st) /\ covers b (List.length pre + 1))
        \/ blockStart st <= List.length pre + 1).

Lemma ends_blank_snoc (done : list string) (line : string) :
  is_blank line = true -> ends_blank (List.app done [line]).
Proof. intro Hb. unfold ends_blank. rewrite rev_app_distr. exact Hb. Qed.

Lemma scan_line_invariant (all done rest : list string) (line : string) (st : Scan) :
  all = List.app done (line :: rest) ->
  invariant all done st ->
  invariant all (List.app done [line]) (scan_line st (List.length done + 1) line).
Proof.
  intros Hall ((before & Hdone & Hstart & Hbefore) & Hvis & Hruns & Hord & Hnext & Hcov).
  assert (Hlen : List.length done = List.length before + List.length (currentLines st))
    by (rewrite Hdone; apply length_app).
  unfold scan_line.
  destruct (is_blank line) eqn:Eblank; cbn [andb negb].
  - destruct (0 <? List.length (currentLines st)) eqn:Esome.
    + (* a blank line ends the current block *)
      apply Nat.ltb_lt in Esome.
      set (b := {| startLine := blockStart st;
                   endLine := List.length done + 1 - 1;
                   text := join nl (currentLines st) |}).
      assert (Hend : endLine b = List.length done) by (cbn; lia).
      split; [|split; [|split; [|split; [|split]]]]; cbn [blocks currentLines blockStart].
      * exists (List.app done [line]). rewrite app_nil_r, length_app. cbn [List.length].
        split; [reflexivity|]. split; [lia | now apply ends_blank_snoc].
      * constructor.
      * apply Forall_app. split; [exact Hruns|]. constructor; [|constructor].
        exists before, (currentLines st), (line :: rest).
        split; [rewrite Hall, Hdone; now rewrite <- app_assoc|].
        split; [exact Hstart|]. split; [rewrite Hend; exact Hlen|].
        split; [destruct (currentLines st); [cbn in Esome; lia | discriminate]|].
        split; [exact Hvis|]. split; [reflexivity|]. split; [exact Hbefore | exact Eblank].
      * apply ordered_app; [exact Hord | exact Hnext | rewrite Hend; cbn [startLine b]; lia].
      * rewrite next_app, Hend. lia.
      * intros pre l post Hsplit Hl.
        destruct (snoc_split _ _ _ _ _ Hsplit) as [(_ & _ & ->) | (post' & Hpre)].
        -- unfold visible in Hl. congruence.
        -- left. destruct (Hcov _ _ _ Hpre Hl) as [(c & Hc & Hin) | Hcur].
           ++ exists c. split; [apply in_or_app; now left | exact Hin].
           ++ exists b. split; [apply in_or_app; right; now left|].
              unfold covers. rewrite Hend. cbn [startLine b].
              rewrite Hpre, length_app. cbn [List.length]. lia.
    + (* a blank line outside a block *)
      apply Nat.ltb_ge in Esome.
      assert (Hnil : currentLines st = [])
        by (destruct (currentLines st); [reflexivity | cbn in Esome; lia]).
      split; [|split; [|split; [|split; [|split]]]]; cbn [blocks currentLines blockStart].
      * exists (List.app done [line]). rewrite Hnil, app_nil_r, length_app. cbn [List.length].
        split; [reflexivity|]. split; [lia | now apply ends_blank_snoc].
      * exact Hvis.
      * exact Hruns.
      * exact Hord.
      * rewrite Hnil in Hlen. cbn in Hlen. lia.
      * intros pre l post Hsplit Hl.
        destruct (snoc_split _ _ _ _ _ Hsplit) as [(_ & _ & ->) | (post' & Hpre)].
        -- unfold visible in Hl. congruence.
        -- left. destruct (Hcov _ _ _ Hpre Hl) as [Hin | Hcur]; [exact Hin|].
           rewrite Hnil in Hlen. rewrite Hpre, length_app in Hlen. cbn in Hlen. lia.
  - (* a line of the current block *)
    assert (Hsame : (if List.length (currentLines st) =? 0
                     then List.length done + 1 else blockStart st) = blockStart st).
    { destruct (List.length (currentLines st) =? 0) eqn:Ez; [|reflexivity].
      apply Nat.eqb_eq in Ez. lia. }
    split; [|split; [|split; [|split; [|split]]]]; cbn [blocks currentLines blockStart];
      rewrite ?Hsame.
    * exists before. rewrite Hdone, <- app_assoc. repeat split; assumption.
    * apply Forall_app. split; [exact Hvis|]. now constructor.
    * exact Hruns.
    * exact Hord.
    * exact Hnext.
    * intros pre l post Hsplit Hl.
      destruct (snoc_split _ _ _ _ _ Hsplit) as [(_ & -> & _) | (post' & Hpre)].
      -- right. lia.
      -- exact (Hcov pre l post' Hpre Hl).
Qed.

Lemma scan_invariant (all : list string) :
  forall (rest done : list string) (st : Scan),
    all = List.app done rest ->
    invariant all done st ->
    invariant all all (scan (List.length done + 1) rest st).
Proof.
  induction rest as [| line rest IH]; intros done st Hall Hinv; cbn [scan].
  - rewrite app_nil_r in Hall. now subst done.
  - replace (S (List.length done + 1)) with (List.length (List.app done [line]) + 1)
      by (rewrite length_app; cbn; lia).
    apply IH; [now rewrite <- app_assoc|].
    now apply (scan_line_invariant all done rest).
Qed.

Lemma run_of_range (all : list string) (b : CodeBlock) :
  run_of all b -> 1 <= startLine b /\ startLine b <= endLine b /\ endLine b <= List.length all.
Proof.
  intros (before & run & after & -> & Hs & He & Hne & _).
  rewrite !length_app. destruct run; [contradiction|]. cbn [List.length] in *. lia.
Qed.

(** The blocks with what the loop has established, before the line
    numbers are read off. *)
Lemma splitCodeIntoBlocks_invariant (code : string) :
  Forall (run_of (lines code)) (splitCodeIntoBlocks code)
  /\ ordered 1 (splitCodeIntoBlocks code)
  /\ (forall pre l post,
        lines code = List.app pre (l :: post) -> visible l ->
        exists b, In b (splitCodeIntoBlocks code) /\ covers b (List.length pre + 1)).
Proof.
  unfold splitCodeIntoBlocks. cbv zeta.
  set (all := lines code).
  assert (Hstart : invariant all [] {| blocks := []; currentLines := []; blockStart := 1 |}).
  { split; [exists []; repeat split|].
    split; [constructor|]. split; [constructor|]. split; [exact I|].
    split; [cbn; lia|]. intros [| p pre] l post Hsplit; discriminate Hsplit. }
  pose proof (scan_invariant all all [] _ eq_refl Hstart) as Hinv.
  cbn [List.length Nat.add] in Hinv.
  destruct Hinv as ((before & Hdone & Hbs & Hbefore) & Hvis & Hruns & Hord & Hnext & Hcov).
  set (st := scan 1 all {| blocks := []; currentLines := []; blockStart := 1 |}) in *.
  assert (Hlen : List.length all = List.length before + List.length (currentLines st))
    by (rewrite Hdone at 1; apply length_app).
  destruct (0 <? List.length (currentLines st)) eqn:Esome.
  - apply Nat.ltb_lt in Esome.
    set (b := {| startLine := blockStart st; endLine := List.length all;
                 text := join nl (currentLines st) |}).
    split; [|split].
    + apply Forall_app. split; [exact Hruns|]. constructor; [|constructor].
      exists before, (currentLines st), [].
      split; [now rewrite app_nil_r|]. split; [exact Hbs|]. split; [exact Hlen|].
      split; [destruct (currentLines st); [cbn in Esome; lia | discriminate]|].
      split; [exact Hvis|]. split; [reflexivity|]. split; [exact Hbefore | exact I].
    + apply ordered_app; [exact Hord | exact Hnext | cbn [startLine endLine b]; lia].
    + intros pre l post Hsplit Hl.
      destruct (Hcov _ _ _ Hsplit Hl) as [(c & Hc & Hin) | Hcur].
      * exists c. split; [apply in_or_app; now left | exact Hin].
      * exists b. split; [apply in_or_app; right; now left|].
        unfold covers. cbn [startLine endLine b]. split; [exact Hcur|].
        rewrite Hsplit, length_app. cbn [List.length]. lia.
  - apply Nat.ltb_ge in Esome.
    split; [exact Hruns|]. split; [exact Hord|].
    intros pre l post Hsplit Hl.
    destruct (Hcov _ _ _ Hsplit Hl) as [Hin | Hcur]; [exact Hin|].
    rewrite Hsplit, length_app in Hlen. cbn [List.length] in Hlen. lia.
Qed.

Lemma string_app_assoc (a b c : string) : ((a ++ b) ++ c = a ++ (b ++ c))%string.
Proof. induction a as [| x a IH]; [reflexivity|]. cbn. now rewrite IH. Qed.

Lemma join_fold (sep : string) (rest : list string) :
  forall p q : string,
    fold_left (fun acc x => acc ++ sep ++ x)%string rest (p ++ q)%string
    = (p ++ fold_left (fun acc x => acc ++ sep ++ x) rest q)%string.
Proof.
  induction rest as [| x rest IH]; intros p q; cbn [fold_left]; [reflexivity|].
  rewrite string_app_assoc. apply IH.
Qed.

Lemma join_cons (sep p q : string) (rest : list string) :
  join sep (p :: q :: rest) = (p ++ sep ++ join sep (q :: rest))%string.
Proof.
  cbn [join fold_left].
  rewrite (join_fold sep rest p (sep ++ q)), (join_fold sep rest sep q). reflexivity.
Qed.

Lemma text_app (a b : list ascii) : Text.text (List.app a b) = (Text.text a ++ Text.text b)%string.
Proof. unfold Text.text. induction a as [| c a IH]; [reflexivity|]. cbn. now rewrite IH. Qed.

Lemma is_nl_char (c : ascii) : is_nl c = true -> c = ascii_of_nat 10.
Proof.
  unfold is_nl, Text.code. intro Hc. apply Nat.eqb_eq in Hc.
  rewrite <- (ascii_nat_embedding c). now rewrite Hc.
Qed.

Lemma lines_from_cons (piece l : list ascii) :
  exists first more, lines_from piece l = first :: more.
Proof.
  revert piece. induction l as [| c l IH]; intro piece; cbn [lines_from]; [eauto|].
  destruct (is_nl c); [eauto | apply IH].
Qed.

Lemma join_lines_from (l : list ascii) :
  forall piece,
    join nl (map Text.text (lines_from piece l)) = Text.text (List.app (rev piece) l).
Proof.
  induction l as [| c l IH]; intro piece; cbn [lines_from].
  - now rewrite app_nil_r.
  - destruct (is_nl c) eqn:Enl.
    + destruct (lines_from_cons [] l) as (first & more & Hl).
      specialize (IH []). rewrite Hl in IH |- *. cbn [map] in *.
      rewrite join_cons, IH. cbn [rev List.app].
      rewrite text_app. f_equal. apply is_nl_char in Enl. subst c. reflexivity.
    + rewrite IH. cbn [rev]. now rewrite <- app_assoc.
Qed.

(** X15: [splitCodeIntoBlocks] cuts the code at line feeds (joining the
    lines again gives the code back) and returns the maximal runs of
    non-blank lines: for every block, 1 <= startLine <= endLine <= number
    of lines, the lines from startLine to endLine are all non-blank, the
    block's text is exactly those lines joined by line feeds, and the line
    before and the line after the block, where they exist, are blank.  The
    blocks come in line order with at least one line between two of
    them. *)
Theorem blocks_are_runs_of_lines (code : string) :
  join nl (lines code) = code
  /\ Forall (fun b => (1 <= startLine b /\ startLine b <= endLine b
                       /\ endLine b <= List.length (lines code))
                      /\ run_of (lines code) b)
            (splitCodeIntoBlocks code)
  /\ ordered 1 (splitCodeIntoBlocks code).
Proof.
  destruct (splitCodeIntoBlocks_invariant code) as (Hruns & Hord & _).
  split; [|split; [|exact Hord]].
  - unfold lines. rewrite join_lines_from. cbn [rev List.app]. apply TextFacts.text_chars.
  - eapply Forall_impl; [|exact Hruns]. cbn. intros b Hb.
    split; [now apply run_of_range | exact Hb].
Qed.

(** X16: the blocks of [splitCodeIntoBlocks] partition the non-blank
    lines: a line of the code lies in a block if and only if it is not
    blank, and then in exactly one block. *)
Theorem every_line_in_one_block (code : string) (pre post : list string) (l : string) :
  lines code = List.app pre (l :: post) ->
  let n := List.length pre + 1 in
  (visible l <-> exists b, In b (splitCodeIntoBlocks code) /\ covers b n)
  /\ (forall b1 b2,
        In b1 (splitCodeIntoBlocks code) -> In b2 (splitCodeIntoBlocks code) ->
        covers b1 n -> covers b2 n -> b1 = b2).
Proof.
  intro Hsplit. cbv zeta.
  destruct (splitCodeIntoBlocks_invariant code) as (Hruns & Hord & Hcov).
  split; [split|].
  - intro Hl. now apply (Hcov pre l post).
  - intros (b & Hin & Hstart & Hend).
    rewrite Forall_forall in Hruns.
    destruct (Hruns b Hin) as (before & run & after & Hall & Hs & He & _ & Hvis & _).
    assert (Hnth : nth_error (lines code) (List.length pre) = Some l).
    { rewrite Hsplit, nth_error_app2 by lia. now rewrite Nat.sub_diag. }
    rewrite Hall in Hnth.
    rewrite nth_error_app2 in Hnth by lia.
    rewrite nth_error_app1 in Hnth by lia.
    apply nth_error_In in Hnth. rewrite Forall_forall in Hvis. now apply Hvis.
  - intros b1 b2 H1 H2 Hc1 Hc2. exact (ordered_disjoint _ _ _ _ _ Hord H1 H2 Hc1 Hc2).
Qed.

Definition sample_code : string :=
  "import os" ++ nl ++ nl ++ "def f():" ++ nl ++ "    return 1" ++ nl.

Lemma every_line_in_one_block_witness :
  lines sample_code = List.app ["import os"; ""] ("def f():" :: ["    return 1"; ""])
  /\ exists b, In b (splitCodeIntoBlocks sample_code) /\ covers b 3.
Proof.
  assert (Hsplit : lines sample_code
                   = List.app ["import os"; ""] ("def f():" :: ["    return 1"; ""]))
    by (vm_compute; reflexivity).
  split; [exact Hsplit|].
  apply (proj1 (proj1 (every_line_in_one_block sample_code _ _ _ Hsplit))).
  vm_compute. reflexivity.
Defined.

End BlockFacts.

(** ** Trace mapping: what a mapping says *)

Module MappingFacts.
Import Text Split TraceMapping NumberFacts BlockFacts.

(** [used] is [all] with some elements left out. *)
Inductive sub {A : Type} : list A -> list A -> Prop :=
| sub_nil : sub [] []
| sub_skip (x : A) (used all : list A) : sub used all -> sub used (x :: all)
| sub_keep (x : A) (used all : list A) : sub used all -> sub (x :: used) (x :: all).

Lemma ordered_weaken (bs : list CodeBlock) (from from' : nat) :
  (from' <= from)%nat -> ordered from bs -> ordered from' bs.
Proof.
  destruct bs as [| b bs]; [auto|]. cbn [ordered]. intros Hle (H1 & H2 & H3).
  repeat split; try assumption. lia.
Qed.

Lemma sub_ordered (used all : list CodeBlock) :
  sub used all -> forall from, ordered from all -> ordered from used.
Proof.
  induction 1 as [| x used all Hsub IH | x used all Hsub IH]; intros from Ho.
  - exact I.
  - destruct Ho as (H1 & H2 & H3). apply IH.
    apply (ordered_weaken _ (endLine x + 2)); [lia | exact H3].
  - destruct Ho as (H1 & H2 & H3). cbn [ordered]. repeat split; try assumption.
    now apply IH.
Qed.

Lemma sub_In {A : Type} (used all : list A) (x : A) : sub used all -> In x used -> In x all.
Proof.
  induction 1 as [| y used all Hsub IH | y used all Hsub IH]; cbn [In]; intuition.
Qed.

Lemma insert_stored_In (c x : Stored) (l : list Stored) :
  In x (insert_stored c l) <-> x = c \/ In x l.
Proof.
  induction l as [| d l IH]; cbn [insert_stored].
  - cbn. intuition.
  - destruct (_ <=? _)%nat; cbn [In]; [intuition|]. rewrite IH. intuition.
Qed.

Lemma find_sorted_In (h : string) (db : list Stored) (x : Stored) :
  In x (find_sorted h db) <-> In x db /\ DocChunk.urlHash (chunk x) = h.
Proof.
  unfold find_sorted.
  assert (Hsort : forall l, In x (fold_right insert_stored [] l) <-> In x l).
  { induction l as [| c l IH]; [reflexivity|].
    cbn [fold_right In]. rewrite insert_stored_In, IH. intuition. }
  rewrite Hsort, filter_In. split; intros [Hin Hh]; split; try assumption.
  - apply String.eqb_eq in Hh. now symmetry.
  - apply String.eqb_eq. now symmetry.
Qed.

Section Mappings.
Context `{Gateway.Sqrt}.
Variable sha256_hex : string -> string.
Variable createEmbedding : string -> outcome (list Q).
Variable db : list Stored.

Definition score (blockEmbedding : list Q) (c : Stored) : Q :=
  Gateway.cosineSimilarity blockEmbedding (DocChunk.embedding (chunk c)).

Lemma best_fold (e : list Q) (candidates : list Stored) :
  forall best : Best,
    let found := fold_left (better e) candidates best in
    snd best <= snd found
    /\ (forall c, In c candidates -> score e c <= snd found)
    /\ (found = best
        \/ exists c, In c candidates /\ fst found = Some c /\ snd found = score e c).
Proof.
  induction candidates as [| c rest IH]; intro best; cbn [fold_left].
  - split; [apply Qle_refl|]. split; [intros c []|]. now left.
  - destruct (IH (better e best c)) as (Hup & Hall & Hwho).
    assert (Hstep : snd best <= snd (better e best c) /\ score e c <= snd (better e best c)).
    { unfold better. fold (score e c).
      destruct (Qle_bool (score e c) (snd best)) eqn:E; cbn [snd].
      - apply Qle_bool_iff in E. split; [apply Qle_refl | exact E].
      - apply geq_false_iff in E. split; [lra | apply Qle_refl]. }
    destruct Hstep as [Hbest Hc].
    split; [lra|]. split.
    + intros c' [<- | Hin]; [lra | now apply Hall].
    + destruct Hwho as [Hsame | (c' & Hin & Hfst & Hsnd)].
      * rewrite Hsame. unfold better. fold (score e c).
        destruct (Qle_bool (score e c) (snd best)); [now left|].
        right. exists c. split; [now left|]. split; reflexivity.
      * right. exists c'. split; [now right|]. split; assumption.
Qed.

(** A chunk the blocks are compared with: stored under the hash of the
    documentation URL, with an embedding. *)
Definition candidate (docUrl : string) (c : Stored) : Prop :=
  In c db
  /\ DocChunk.urlHash (chunk c) = sha256_hex (trim (toLowerCase docUrl))
  /\ DocChunk.embedding (chunk c) <> [].

(** What a mapping says about the block it was made for. *)
Definition traces (docUrl : string) (similarityThreshold : Q)
    (m : Orchestrator.LineMapping) (block : CodeBlock) : Prop :=
  Orchestrator.startLine m = startLine block
  /\ Orchestrator.endLine m = endLine block
  /\ (15 <= String.length (trim (text block)))%nat
  /\ exists blockEmbedding c,
       createEmbedding (text block) = Ok blockEmbedding
       /\ candidate docUrl c
       /\ Orchestrator.docChunkId m = _id c
       /\ similarityThreshold <= score blockEmbedding c
       /\ (forall c', candidate docUrl c' -> score blockEmbedding c' <= score blockEmbedding c)
       /\ Orchestrator.similarityScore m
          = inject_Z (Math_round (score blockEmbedding c * 1000)) / 1000
       /\ inject_Z (Math_round (similarityThreshold * 1000)) / 1000
          <= Orchestrator.similarityScore m.

Lemma Math_round_monotone (x y : Q) : x <= y -> (Math_round x <= Math_round y)%Z.
Proof. intro Hxy. unfold Math_round. apply Qfloor_resp_le. lra. Qed.

Lemma map_block_traces (docUrl : string) (similarityThreshold : Q)
    (block : CodeBlock) (m : Orchestrator.LineMapping) :
  map_block createEmbedding similarityThreshold
            (filter embedded (find_sorted (sha256_hex (trim (toLowerCase docUrl))) db))
            block = Some m ->
  traces docUrl similarityThreshold m block.
Proof.
  set (candidates := filter embedded _).
  assert (Hcand : forall c, In c candidates <-> candidate docUrl c).
  { intro c. unfold candidates, candidate. rewrite filter_In, find_sorted_In.
    unfold embedded. rewrite negb_true_iff, Nat.eqb_neq.
    split; intros Hc; repeat split; try tauto.
    - destruct Hc as [_ Hlen]. intro Hnil. apply Hlen. now rewrite Hnil.
    - destruct Hc as (_ & _ & Hne). intro Hlen.
      apply Hne. now apply length_zero_iff_nil. }
  unfold map_block.
  destruct (String.length (trim (text block)) <? 15)%nat eqn:Eshort; [discriminate|].
  apply Nat.ltb_ge in Eshort.
  destruct (createEmbedding (text block)) as [e | err] eqn:Eembed; [|discriminate].
  unfold best_match.
  destruct (best_fold e candidates (None, - (1))) as (_ & Hall & Hwho).
  destruct (fold_left (better e) candidates (None, - (1))) as [[bestChunk |] bestScore];
    [|discriminate].
  destruct (geq bestScore similarityThreshold) eqn:Eclear; [|discriminate].
  intro Hm. injection Hm as <-.
  apply geq_iff in Eclear. cbn [fst snd] in *.
  destruct Hwho as [Hnone | (c & Hin & Hfst & Hsnd)]; [discriminate Hnone|].
  injection Hfst as ->. subst bestScore.
  repeat split; cbn [Orchestrator.startLine Orchestrator.endLine]; try exact Eshort.
  exists e, c. cbn [Orchestrator.docChunkId Orchestrator.similarityScore].
  split; [exact Eembed|]. split; [now apply Hcand|]. split; [reflexivity|].
  split; [exact Eclear|]. split; [intros c' Hc'; now apply Hall, Hcand|].
  split; [reflexivity|].
  assert (Hround : (Math_round (similarityThreshold * 1000)
                    <= Math_round (score e c * 1000))%Z)
    by (apply Math_round_monotone; lra).
  apply Qmult_le_compat_r; [|vm_compute; discriminate].
  now rewrite <- Zle_Qle.
Qed.

Lemma map_blocks_traces (docUrl : string) (similarityThreshold : Q)
    (codeBlocks : list CodeBlock) :
  exists used,
    sub used codeBlocks
    /\ Forall2 (traces docUrl similarityThreshold)
         (map_blocks createEmbedding similarityThreshold
            (filter embedded (find_sorted (sha256_hex (trim (toLowerCase docUrl))) db))
            codeBlocks)
         used.
Proof.
  induction codeBlocks as [| block rest (used & Hsub & Hall)]; cbn [map_blocks].
  - exists []. split; constructor.
  - destruct (map_block _ _ _ block) as [m |] eqn:Em.
    + exists (block :: used). split; [now constructor|].
      constructor; [now apply map_block_traces | exact Hall].
    + exists used. split; [now constructor | exact Hall].
Qed.

(** X17: every mapping that [buildTraceMappings] returns belongs to a
    block of the code: it carries that block's line range; the block's
    trimmed text has at least 15 characters and could be embedded; the
    chunk named is stored under the hash of the documentation URL and has
    an embedding; no such chunk scores higher against the block; that score
    reaches the threshold; and the similarity reported is the score rounded
    to three decimals, which is at least the threshold rounded likewise.
    The mappings come in the order of the blocks, at most one per block, so
    their line ranges increase and do not overlap.  Without an embedded
    chunk for the URL there are no mappings. *)
Theorem trace_mappings_profile (code docUrl : string) (similarityThreshold : Q) :
  let result :=
    buildTraceMappings sha256_hex createEmbedding db code docUrl similarityThreshold in
  (exists used,
      sub used (splitCodeIntoBlocks code)
      /\ ordered 1 used
      /\ Forall2 (traces docUrl similarityThreshold) result used)
  /\ ((forall c, ~ candidate docUrl c) -> result = []).
Proof.
  cbv zeta. unfold buildTraceMappings. cbv zeta.
  set (h := sha256_hex (trim (toLowerCase docUrl))).
  assert (Hnone : exists used : list CodeBlock,
             sub used (splitCodeIntoBlocks code) /\ ordered 1 used
             /\ Forall2 (traces docUrl similarityThreshold) [] used).
  { exists []. split; [|split; [exact I | constructor]].
    induction (splitCodeIntoBlocks code); now constructor. }
  destruct (List.length (find_sorted h db) =? 0)%nat; [split; [exact Hnone | reflexivity]|].
  destruct (List.length (filter embedded (find_sorted h db)) =? 0)%nat eqn:Eemb;
    [split; [exact Hnone | reflexivity]|].
  split.
  - destruct (map_blocks_traces docUrl similarityThreshold (splitCodeIntoBlocks code))
      as (used & Hsub & Hall).
    exists used. split; [exact Hsub|]. split; [|exact Hall].
    apply (sub_ordered _ _ Hsub).
    now destruct (blocks_are_runs_of_lines code) as (_ & _ & Hord).
  - intro Hno. apply Nat.eqb_neq in Eemb. exfalso. apply Eemb.
    destruct (filter embedded (find_sorted h db)) as [| c rest] eqn:Ef; [reflexivity|].
    exfalso. apply (Hno c).
    assert (Hin : In c (filter embedded (find_sorted h db))) by (rewrite Ef; now left).
    apply filter_In in Hin as [Hin Hemb]. apply find_sorted_In in Hin as [Hdb Hh].
    split; [exact Hdb|]. split; [exact Hh|].
    unfold embedded in Hemb. rewrite negb_true_iff, Nat.eqb_neq in Hemb.
    intro Hnil. apply Hemb. now rewrite Hnil.
Qed.

End Mappings.

Lemma trace_mappings_profile_witness :
  (forall c, ~ candidate (fun u => u) [] "https://docs.python.org/3/library/os.html" c)
  /\ @buildTraceMappings Samples.sqrt_of_squares (fun u => u) (fun _ => Ok [1; 0]) []
       BlockFacts.sample_code "https://docs.python.org/3/library/os.html" default_threshold
     = [].
Proof.
  assert (Hno : forall c, ~ candidate (fun u => u) []
                            "https://docs.python.org/3/library/os.html" c)
    by (intros c [Hin _]; exact Hin).
  split; [exact Hno|].
  exact (proj2 (@trace_mappings_profile Samples.sqrt_of_squares (fun u => u)
                  (fun _ => Ok [1; 0]) [] BlockFacts.sample_code
                  "https://docs.python.org/3/library/os.html" default_threshold) Hno).
Defined.

End MappingFacts.

(** ** Enhancement: what comes back *)

Module EnhancementFacts.
Import Enhancement.
Local Open Scope nat_scope.

Lemma sliced_count (items tasks : list json) :
  (if List.length items =? 0 then Throw "No enhanced tasks returned"
   else Ok (firstn 3 items)) = Ok tasks ->
  1 <= List.length tasks <= 3.
Proof.
  destruct (List.length items =? 0) eqn:E; [discriminate|].
  apply Nat.eqb_neq in E. intro Hok. injection Hok as <-.
  destruct items as [| a [| b [| c l]]]; cbn [List.length] in *; lia.
Qed.

Lemma tasks_of_count (parsed : json) (tasks : list json) :
  tasks_of parsed = Ok tasks -> 1 <= List.length tasks <= 3.
Proof.
  unfold tasks_of.
  assert (Hgeneral : forall v : value,
            match or_else v (Some (JArr [])) with
            | Some (JArr items) =>
                if List.length items =? 0 then Throw "No enhanced tasks returned"
                else Ok (firstn 3 items)
            | Some (JStr s) => Ok (map (fun c => JStr (String c "")) (firstn 3 (Text.chars s)))
            | Some (JObj fields) =>
                match lookup "length" fields with
                | Some (JNum q) =>
                    if Qeq_bool q 0 then Throw "No enhanced tasks returned"
                    else Throw "tasks.slice is not a function"
                | _ => Throw "tasks.slice is not a function"
                end
            | _ => Throw "tasks.slice is not a function"
            end = Ok tasks -> 1 <= List.length tasks <= 3).
  { intros v. unfold or_else. destruct (truthy v) eqn:Etruthy.
    - destruct v as [[| b | q | str | items | fields] |]; try discriminate.
      + intro Hok. injection Hok as <-. rewrite length_map.
        cbn in Etruthy. destruct str as [| a [| b [| c str]]]; [discriminate Etruthy | | |];
          cbn; lia.
      + apply sliced_count.
      + destruct (lookup "length" fields) as [[| b | q | str | items | fs] |];
          try discriminate. destruct (Qeq_bool q 0); discriminate.
    - cbn. discriminate. }
  destruct parsed as [| b | q | str | items | fields]; try discriminate;
    try apply Hgeneral.
  apply sliced_count.
Qed.

(** X18: [enhanceTask] returns between one and three tasks, never none
    and never more.  When it throws, the error is the model call's own
    error, unchanged, if the call failed, and otherwise a message that
    starts with "Enhancement parsing failed: ". *)
Theorem enhanceTask_outcomes (r : reply) :
  match enhanceTask r with
  | Ok tasks => 1 <= List.length tasks <= 3 /\ exists parsed, r = Parsed parsed
  | Throw e =>
      match r with
      | CallFailed failure => e = failure
      | _ => exists detail, e = ("Enhancement parsing failed: " ++ detail)%string
      end
  end.
Proof.
  destruct r as [failure | syntaxError | parsed]; cbn [enhanceTask].
  - reflexivity.
  - now exists syntaxError.
  - destruct (tasks_of parsed) as [tasks | detail] eqn:Etasks.
    + split; [now apply (tasks_of_count parsed) | now exists parsed].
    + now exists detail.
Qed.

(** X19: the three shapes of the model's answer are treated alike: a bare
    array, an object whose [variations] is an array, and an object without
    a usable [variations] whose [tasks] is an array all give the first three
    entries of that array, provided it is not empty. *)
Theorem enhanceTask_accepts_three_shapes (items : list json)
    (fields : list (string * json)) :
  items <> [] ->
  enhanceTask (Parsed (JArr items)) = Ok (firstn 3 items)
  /\ (lookup "variations" fields = Some (JArr items) ->
      enhanceTask (Parsed (JObj fields)) = Ok (firstn 3 items))
  /\ (truthy (lookup "variations" fields) = false ->
      lookup "tasks" fields = Some (JArr items) ->
      enhanceTask (Parsed (JObj fields)) = Ok (firstn 3 items)).
Proof.
  intro Hne.
  assert (Hlen : (List.length items =? 0) = false)
    by (destruct items; [contradiction | reflexivity]).
  split; [|split].
  - cbn. now rewrite Hlen.
  - intro Hv. cbn [enhanceTask tasks_of get_opt]. rewrite Hv. cbn. now rewrite Hlen.
  - intros Hv Ht. cbn [enhanceTask tasks_of get_opt]. unfold or_else at 2.
    rewrite Hv, Ht. cbn. now rewrite Hlen.
Qed.

Lemma enhanceTask_accepts_three_shapes_witness :
  [JStr "a"; JStr "b"; JStr "c"; JStr "d"] <> []
  /\ enhanceTask (Parsed (JObj [("tasks", JArr [JStr "a"; JStr "b"; JStr "c"; JStr "d"])]))
     = Ok [JStr "a"; JStr "b"; JStr "c"].
Proof.
  assert (Hne : [JStr "a"; JStr "b"; JStr "c"; JStr "d"] <> []) by discriminate.
  split; [exact Hne|].
  exact (proj2 (proj2 (enhanceTask_accepts_three_shapes
                         [JStr "a"; JStr "b"; JStr "c"; JStr "d"]
                         [("tasks", JArr [JStr "a"; JStr "b"; JStr "c"; JStr "d"])] Hne))
               eq_refl eq_refl).
Defined.

End EnhancementFacts.

(** ** Confidence: range and order *)

Module ConfidenceOrder.
Import Confidence NumberFacts.

Lemma Math_round_le (x y : Q) : x <= y -> (Math_round x <= Math_round y)%Z.
Proof. intro Hxy. unfold Math_round. apply Qfloor_resp_le. lra. Qed.

Lemma weighted_score (j r s d : Q) :
  confidenceScore (calculateConfidence j r s d)
  = Math_round (j * (4 # 10) + r * (3 # 10) + s * (2 # 10)
                + inject_Z (Math_round (d * 100)) * (1 # 10)).
Proof. reflexivity. Qed.



End ConfidenceOrder.

(** ** Orchestrator: why a run fails and what it returns *)

Module PipelineFacts.
Import Orchestrator.
Local Open Scope nat_scope.

(** [m], in whatever state it starts, returns a value with [Q] or throws
    an error with [C]. *)
Definition yields {A : Type} (m : M A) (C : string -> Prop) (Q : A -> Prop) : Prop :=
  forall r, match fst (m r) with
            | Ok a => Q a
            | Throw e => C e
            end.

Lemma yields_bind {A B : Type} (m : M A) (k : A -> M B) (C : string -> Prop)
    (Q : A -> Prop) (R : B -> Prop) :
  yields m C Q -> (forall a, Q a -> yields (k a) C R) -> yields (bind m k) C R.
Proof.
  intros Hm Hk r. unfold bind. specialize (Hm r).
  destruct (m r) as [[a | e] r1]; cbn [fst] in *; [exact (Hk a Hm r1) | exact Hm].
Qed.

Lemma yields_ret {A : Type} (a : A) (C : string -> Prop) (Q : A -> Prop) :
  Q a -> yields (ret a) C Q.
Proof. intros Ha r. exact Ha. Qed.

Lemma yields_lift {A : Type} (o : outcome A) (C : string -> Prop) :
  (forall e, o = Throw e -> C e) -> yields (lift o) C (fun a => o = Ok a).
Proof. intros Hc r. cbn. destruct o as [a | e]; [reflexivity | now apply Hc]. Qed.

Lemma yields_weaken {A : Type} (m : M A) (C C' : string -> Prop) (Q Q' : A -> Prop) :
  yields m C Q -> (forall e, C e -> C' e) -> (forall a, Q a -> Q' a) -> yields m C' Q'.
Proof.
  intros Hm Hc Hq r. specialize (Hm r).
  destruct (fst (m r)); [now apply Hq | now apply Hc].
Qed.

Lemma yields_now (s : Script) (C : string -> Prop) : yields (now s) C (fun _ => True).
Proof. intro r. exact I. Qed.

Lemma yields_emit (e : Emit) (C : string -> Prop) : yields (emit e) C (fun _ => True).
Proof. intro r. exact I. Qed.

Lemma yields_note (c : Call) (C : string -> Prop) : yields (note c) C (fun _ => True).
Proof. intro r. exact I. Qed.

Lemma yields_startStage (s : Script) (n : string) (C : string -> Prop) :
  yields (startStage s n) C (fun _ => True).
Proof. intro r. exact I. Qed.

Lemma yields_endStage (s : Script) (st : Started) (C : string -> Prop) :
  yields (endStage s st) C (fun _ => True).
Proof. intro r. exact I. Qed.

(** Pass an action that cannot throw. *)
Ltac pass :=
  eapply yields_bind;
  [ first [ apply yields_startStage | apply yields_endStage | apply yields_emit
          | apply yields_note | apply yields_now ]
  | intros ? _ ].

Lemma truthy_get (v : value) (key : string) :
  truthy v = true -> exists x, get v key = Ok x.
Proof. destruct v as [[| b | q | str | items | fields] |]; cbn; try discriminate; eauto. Qed.

Lemma select_description_throws (tasks : list json) (i : Q) (e : string) :
  1 <= List.length tasks ->
  select_description tasks i = Throw e ->
  hd_error tasks = Some JNull
  /\ e = "Cannot read properties of null (reading 'description')"%string.
Proof.
  intros Hlen. unfold select_description, or_else.
  destruct (truthy (index tasks i)) eqn:Et.
  - destruct (truthy_get _ "description" Et) as [x Hx]. rewrite Hx. discriminate.
  - destruct tasks as [| first rest]; [cbn in Hlen; lia|].
    change (index (first :: rest) 0) with (Some first).
    destruct first; cbn; try discriminate.
    intro He. injection He as <-. split; reflexivity.
Qed.

Lemma select_code_chooses (candidates : list Generation.CodeCandidate) (i : Q) :
  candidates <> [] ->
  exists c, In c candidates /\ select_code candidates i = Ok (Generation.code c).
Proof.
  intro Hne. destruct candidates as [| c0 rest]; [contradiction|].
  unfold select_code.
  destruct (index (c0 :: rest) i) as [c |] eqn:Ei.
  - destruct (negb (String.eqb (Generation.code c) "")).
    + exists c. split; [|reflexivity].
      unfold index in Ei. destruct (_ && _)%bool; [|discriminate].
      now apply nth_error_In in Ei.
    + exists c0. split; [now left | reflexivity].
  - exists c0. split; [now left | reflexivity].
Qed.

Lemma generateCode_candidates `{RegExp} (p a : completion) (t : Z)
    (result : Generation.GenerationResult) :
  Generation.generateCode p a t = Ok result -> Generation.candidates result <> [].
Proof.
  destruct p as [e1 | v1], a as [e2 | v2]; cbn; try discriminate;
    intro Hok; injection Hok as <-; discriminate.
Qed.

Lemma generateCode_throws `{RegExp} (p a : completion) (t : Z) (e : string) :
  Generation.generateCode p a t = Throw e ->
  exists e1 e2, p = Rejected e1 /\ a = Rejected e2.
Proof. destruct p as [e1 | v1], a as [e2 | v2]; cbn; try discriminate; eauto. Qed.

Section Runs.
Context `{RegExp} `{Gateway.Sqrt}.
Variable s : Script.

(** The fix calls with numbers from [from] up to, not including, [to]. *)
Definition fix_rejected (from to : nat) (e : string) : Prop :=
  exists k, from <= k < to /\ fix_reply s k = Rejected e.

(** [out] is the reply of such a fix call, with the verdict on it. *)
Definition fix_accepted (language : string) (from to : nat)
    (out : string * Validation.ValidationResult) : Prop :=
  exists k raw,
    from <= k < to
    /\ fix_reply s k = Fulfilled raw
    /\ fst out = Validation.stripCodeFences raw
    /\ snd out = Validation.validateCode (fst out) language (validate_reply s (S k)).

Lemma yields_fix_loop (language : string) :
  forall (left attempt : nat) (code : string) (vr : Validation.ValidationResult),
    yields (fix_loop s language left attempt code vr)
           (fix_rejected attempt (attempt + left))
           (fun out => out = (code, vr) \/ fix_accepted language attempt (attempt + left) out).
Proof.
  induction left as [| left IH]; intros attempt code vr.
  - apply yields_ret. now left.
  - cbn [fix_loop]. unfold emitStage. repeat pass.
    eapply yields_bind.
    { apply yields_lift. intros e He.
      destruct (fix_reply s attempt) as [e' | raw] eqn:Efix; [|discriminate He].
      injection He as <-. exists attempt. split; [lia | exact Efix]. }
    intros fixed Hfixed. cbn beta.
    destruct (fix_reply s attempt) as [e' | raw] eqn:Efix; [discriminate Hfixed|].
    injection Hfixed as <-.
    assert (Hthis : fix_accepted language attempt (attempt + S left)
              (Validation.stripCodeFences raw,
               Validation.validateCode (Validation.stripCodeFences raw) language
                 (validate_reply s (S attempt)))).
    { exists attempt, raw. split; [lia|]. repeat split. exact Efix. }
    repeat pass.
    destruct (Validation.passed _).
    + apply yields_ret. now right.
    + eapply yields_weaken; [apply IH | |].
      * intros e (k & Hk & Hrej). exists k. split; [lia | exact Hrej].
      * intros out [-> | (k & raw' & Hk & Hrest)]; right; [exact Hthis|].
        exists k, raw'. split; [lia | exact Hrest].
Qed.

Lemma yields_repair (language code : string) (vr : Validation.ValidationResult) :
  yields (repair s language code vr)
         (fix_rejected 0 (maxFixAttempts ENGINE_CONFIG))
         (fun out => out = (code, vr)
                     \/ fix_accepted language 0 (maxFixAttempts ENGINE_CONFIG) out).
Proof.
  unfold repair. destruct (_ && _)%bool.
  - apply (yields_fix_loop language (maxFixAttempts ENGINE_CONFIG) 0).
  - apply yields_ret. now left.
Qed.

(** The errors that end a run. *)
Definition cause (e : string) : Prop :=
  Enhancement.enhanceTask (enhance_reply s) = Throw e
  \/ (exists tasks,
        Enhancement.enhanceTask (enhance_reply s) = Ok tasks
        /\ hd_error tasks = Some JNull
        /\ e = "Cannot read properties of null (reading 'description')"%string)
  \/ (exists e1 e2 t,
        primary_reply s = Rejected e1 /\ alternative_reply s = Rejected e2
        /\ Generation.generateCode (primary_reply s) (alternative_reply s) t = Throw e)
  \/ judge_reply s = CallFailed e
  \/ fix_rejected 0 (maxFixAttempts ENGINE_CONFIG) e.

(** How the parts of a response hang together. *)
Definition coherent (request : GenerateRequest) (res : GenerateResponse) : Prop :=
  res_language res = language request
  /\ candidates res <> []
  /\ (exists t generated,
        Generation.generateCode (primary_reply s) (alternative_reply s) t = Ok generated
        /\ Generation.candidates generated = candidates res)
  /\ Judge.judgeCode (candidates res) (judge_reply s) = Ok (judgeResult res)
  /\ ((exists c, In c (candidates res) /\ selectedCode res = Generation.code c
                 /\ validationResult res
                    = Validation.validateCode (selectedCode res) (language request)
                        (validate_reply s 0))
      \/ fix_accepted (language request) 0 (maxFixAttempts ENGINE_CONFIG)
           (selectedCode res, validationResult res))
  /\ securityAudit res = audit_result s.

Lemma yields_stages_of_try (request : GenerateRequest) :
  yields (stages_of_try s request) cause (fun done => coherent request (fst done)).
Proof.
  unfold stages_of_try, emitStage, stamp. repeat pass.
  eapply yields_bind.
  { apply yields_lift. intros e He. now left. }
  intros enhancedTasks Htasks.
  eapply yields_bind.
  { apply yields_lift. intros e He. right. left.
    pose proof (EnhancementFacts.enhanceTask_outcomes (enhance_reply s)) as Hcount.
    rewrite Htasks in Hcount. destruct Hcount as [Hcount _].
    destruct (select_description_throws _ _ _ (proj1 Hcount) He) as [Hnull ->].
    exists enhancedTasks. repeat split; assumption. }
  intros enhancedDescription _. repeat pass.
  eapply yields_bind with (Q := fun _ => True).
  { destruct (_ && _)%bool.
    - eapply yields_bind; [apply yields_note | intros ? _; now apply yields_ret].
    - now apply yields_ret. }
  intros rag _. repeat pass.
  eapply yields_bind.
  { apply yields_lift. intros e He. right. right. left.
    destruct (generateCode_throws _ _ _ _ He) as (e1 & e2 & Hp & Ha).
    exists e1, e2. eexists. split; [exact Hp|]. split; [exact Ha | exact He]. }
  intros genResult Hgen. repeat pass.
  eapply yields_bind.
  { apply yields_lift. intros e He. right. right. right. left.
    now apply JudgeFacts.judge_throws_only_on_call_failure in He. }
  intros judged Hjudged. repeat pass.
  pose proof (generateCode_candidates _ _ _ _ Hgen) as Hne.
  destruct (select_code_chooses (Generation.candidates genResult)
              (Judge.selectedIndex judged) Hne) as (c & Hin & Hchosen).
  eapply yields_bind.
  { apply yields_lift. intros e He. rewrite Hchosen in He. discriminate He. }
  intros chosen Hc. rewrite Hchosen in Hc. injection Hc as <-.
  repeat pass.
  eapply yields_bind.
  { eapply yields_weaken; [apply yields_repair | | intros out Hout; exact Hout].
    intros e He. right. right. right. right. exact He. }
  intros repaired Hrepaired. cbn beta in Hrepaired. repeat pass.
  intro r. cbn [fst]. unfold coherent.
  cbn [res_language candidates judgeResult selectedCode validationResult confidence
       securityAudit].
  split; [reflexivity|]. split; [exact Hne|].
  split; [eexists; exists genResult; split; [exact Hgen | reflexivity]|].
  split; [exact Hjudged|].
  split; [|reflexivity].
  destruct Hrepaired as [-> | Hfixed].
  - left. exists c. cbn [fst snd]. repeat split; [exact Hin].
  - right. destruct repaired as [code' vr']. exact Hfixed.
Qed.

Lemma yields_try_and_complete (request : GenerateRequest) :
  yields (bind (stages_of_try s request)
               (fun done => bind (emit (EmitComplete (confidence (fst done))))
                                 (fun _ => ret done)))
         cause (fun done => coherent request (fst done)).
Proof.
  eapply yields_bind; [apply yields_stages_of_try | intros done Hdone].
  eapply yields_bind; [apply yields_emit | intros ? _; now apply yields_ret].
Qed.

(** X21: a run of [runPipeline] can fail for five reasons only, and it
    throws the error named: the enhancement call or the reading of its
    answer threw; the first enhanced task is [null]; both code generation
    calls were rejected; the judge call was rejected; or a fix call of the
    repair loop was rejected.  Failures of retrieval, of validation, of the
    security audit, of trace mapping and of scoring never end a run.  (The
    document store is taken to accept every write, as in [runPipeline]'s
    model.) *)
Theorem pipeline_failure_causes (request : GenerateRequest) (e : string) :
  fst (fst (runPipeline s request)) = Throw e -> cause e.
Proof.
  unfold runPipeline.
  pose proof (yields_try_and_complete request fresh) as Hrun.
  destruct (bind (stages_of_try s request) _ fresh) as [[done | e'] r];
    cbn [fst] in *; intro Hthrow.
  - discriminate Hthrow.
  - injection Hthrow as <-. exact Hrun.
Qed.

(** X22: the parts of a response of [runPipeline] belong together.  There
    is at least one candidate; the judge result is the judge's verdict on
    these candidates; the selected code is the code of one of the
    candidates together with the verdict of the first validation on it, or
    else the answer to one of the at most [maxFixAttempts] fix calls
    together with the verdict of the validation that followed that call;
    and the security audit is the result of the audit.  The confidence
    of the response is not part of this statement. *)
Theorem pipeline_response_coherent (request : GenerateRequest) (res : GenerateResponse) :
  fst (fst (runPipeline s request)) = Ok res -> coherent request res.
Proof.
  unfold runPipeline.
  pose proof (yields_try_and_complete request fresh) as Hrun.
  destruct (bind (stages_of_try s request) _ fresh) as [[done | e] r];
    cbn [fst] in *; intro Hok.
  - injection Hok as <-. exact Hrun.
  - discriminate Hok.
Qed.

End Runs.

Lemma pipeline_failure_causes_witness :
  fst (fst (@runPipeline Samples.no_match Samples.sqrt_of_squares
              PipelineExamples.judge_down PipelineExamples.request))
  = Throw "Azure API error (gpt-4o-mini): 401 Unauthorized"
  /\ @cause Samples.no_match PipelineExamples.judge_down
       "Azure API error (gpt-4o-mini): 401 Unauthorized".
Proof.
  assert (Hrun : fst (fst (@runPipeline Samples.no_match Samples.sqrt_of_squares
                             PipelineExamples.judge_down PipelineExamples.request))
                 = Throw "Azure API error (gpt-4o-mini): 401 Unauthorized")
    by (vm_compute; reflexivity).
  split; [exact Hrun|].
  apply (@pipeline_failure_causes Samples.no_match Samples.sqrt_of_squares
           PipelineExamples.judge_down PipelineExamples.request). exact Hrun.
Defined.

Definition stubborn_response : GenerateResponse :=
  Eval vm_compute in
    match fst (fst (@runPipeline Samples.no_match Samples.sqrt_of_squares
                      RepairFacts.stubborn PipelineExamples.request)) with
    | Ok res => res
    | Throw _ =>
        {| selectedCode := ""; res_language := ""; candidates := [];
           judgeResult := Judge.fallback 0;
           validationResult :=
             {| Validation.staticScore := 0%Q; Validation.runtimeScore := 0%Q;
                Validation.staticIssues := []; Validation.runtimeError := JNull;
                Validation.passed := false |};
           securityAudit := audit_result RepairFacts.stubborn;
           confidence := None; res_stages := [] |}
    end.

Lemma pipeline_response_coherent_witness :
  fst (fst (@runPipeline Samples.no_match Samples.sqrt_of_squares
              RepairFacts.stubborn PipelineExamples.request))
  = Ok stubborn_response
  /\ @coherent Samples.no_match RepairFacts.stubborn PipelineExamples.request
       stubborn_response.
Proof.
  assert (Hrun : fst (fst (@runPipeline Samples.no_match Samples.sqrt_of_squares
                             RepairFacts.stubborn PipelineExamples.request))
                 = Ok stubborn_response)
    by (vm_compute; reflexivity).
  split; [exact Hrun|].
  apply (@pipeline_response_coherent Samples.no_match Samples.sqrt_of_squares
           RepairFacts.stubborn PipelineExamples.request). exact Hrun.
Defined.

End PipelineFacts.

(** ** Orchestrator: the events of a run *)

Module EventFacts.
Import Orchestrator.

Definition progress (e : Emit) : Prop :=
  match e with
  | EmitStage _ _ => True
  | _ => False
  end.

(** From [r] to [r'] only stage events were sent. *)
Definition extends (r r' : Run) : Prop :=
  exists events, emitted r' = List.app (emitted r) events /\ Forall progress events.

Lemma extends_refl (r r' : Run) : emitted r' = emitted r -> extends r r'.
Proof. intro He. exists []. rewrite app_nil_r. split; [exact He | constructor]. Qed.

Lemma extends_trans (r1 r2 r3 : Run) : extends r1 r2 -> extends r2 r3 -> extends r1 r3.
Proof.
  intros (e1 & H1 & P1) (e2 & H2 & P2). exists (List.app e1 e2).
  split; [now rewrite H2, H1, app_assoc | now apply Forall_app].
Qed.

(** [m] sends stage events only. *)
Definition quiet {A : Type} (m : M A) : Prop := forall r, extends r (snd (m r)).

Lemma quiet_bind {A B : Type} (m : M A) (k : A -> M B) :
  quiet m -> (forall a, quiet (k a)) -> quiet (bind m k).
Proof.
  intros Hm Hk r. unfold bind. specialize (Hm r).
  destruct (m r) as [[a | e] r1]; cbn [snd] in *; [|exact Hm].
  exact (extends_trans _ _ _ Hm (Hk a r1)).
Qed.

Lemma quiet_ret {A : Type} (a : A) : quiet (ret a).
Proof. intro r. now apply extends_refl. Qed.

Lemma quiet_lift {A : Type} (o : outcome A) : quiet (lift o).
Proof. intro r. now apply extends_refl. Qed.

Lemma quiet_now (s : Script) : quiet (now s).
Proof. intro r. now apply extends_refl. Qed.

Lemma quiet_note (c : Call) : quiet (note c).
Proof. intro r. now apply extends_refl. Qed.

Lemma quiet_startStage (s : Script) (n : string) : quiet (startStage s n).
Proof. intro r. now apply extends_refl. Qed.

Lemma quiet_endStage (s : Script) (st : Started) : quiet (endStage s st).
Proof. intro r. now apply extends_refl. Qed.

Lemma quiet_emitStage (stage message : string) : quiet (emitStage stage message).
Proof.
  intro r. exists [EmitStage stage message]. split; [reflexivity|].
  constructor; [exact I | constructor].
Qed.

Ltac hush :=
  eapply quiet_bind;
  [ first [ apply quiet_startStage | apply quiet_endStage | apply quiet_emitStage
          | apply quiet_note | apply quiet_now | apply quiet_lift ]
  | intro ].

Lemma first_event {A B : Type} (m : M A) (e : Emit) (k : A -> M B) :
  (forall r, exists a r1, m r = (Ok a, r1) /\ emitted r1 = emitted r) ->
  (forall a, quiet (k a)) ->
  forall r,
    exists events,
      emitted (snd (bind m (fun a => bind (emit e) (fun _ => k a)) r))
      = List.app (emitted r) (e :: events)
      /\ Forall progress events.
Proof.
  intros Hm Hk r. unfold bind at 1.
  destruct (Hm r) as (a & r1 & Hrun & Hsame). rewrite Hrun.
  unfold bind at 1. cbn [emit].
  match goal with
  | |- context [k a ?r2] => destruct (Hk a r2) as (events & Hev & Hprog)
  end.
  exists events. split; [|exact Hprog].
  rewrite Hev. cbn [emitted]. now rewrite Hsame, <- app_assoc.
Qed.

Section Events.
Context `{RegExp} `{Gateway.Sqrt}.
Variable s : Script.

Lemma quiet_fix_loop (language : string) :
  forall (left attempt : nat) (code : string) (vr : Validation.ValidationResult),
    quiet (fix_loop s language left attempt code vr).
Proof.
  induction left as [| left IH]; intros attempt code vr.
  - apply quiet_ret.
  - cbn [fix_loop]. repeat hush.
    destruct (Validation.passed _); [apply quiet_ret | apply IH].
Qed.

Lemma quiet_repair (language code : string) (vr : Validation.ValidationResult) :
  quiet (repair s language code vr).
Proof. unfold repair. destruct (_ && _); [apply quiet_fix_loop | apply quiet_ret]. Qed.

(** What follows the first event of [stages_of_try]. *)
Lemma quiet_stages_of_try (request : GenerateRequest) :
  forall r,
    exists events,
      emitted (snd (stages_of_try s request r))
      = List.app (emitted r) (EmitStage "enhancing_task" "Enhancing your task..." :: events)
      /\ Forall progress events.
Proof.
  unfold stages_of_try, stamp. unfold emitStage at 1.
  apply (first_event (startStage s "enhancing_task")
                     (EmitStage "enhancing_task" "Enhancing your task...")).
  - intro r. eexists. eexists. split; reflexivity.
  - intro enhanceStage. repeat hush.
    eapply quiet_bind.
    { destruct (_ && _).
      - eapply quiet_bind; [apply quiet_note | intro; apply quiet_ret].
      - apply quiet_ret. }
    intro rag. repeat hush.
    eapply quiet_bind; [apply quiet_repair | intro repaired].
    repeat hush.
    intro r0. now apply extends_refl.
Qed.

(** X23: every run of [runPipeline] sends exactly one closing event, as
    the last event of the run: the completion event with the confidence of
    the response when the run returns, the error event with the thrown
    message when it fails.  All events before it are stage events, the first
    of them for the stage "enhancing_task".  (The document store is taken to
    accept every write, as in [runPipeline]'s model.) *)
Theorem run_ends_with_one_closing_event (request : GenerateRequest) :
  let '(result, generation, r) := runPipeline s request in
  exists events,
    Forall progress events
    /\ emitted r
       = List.app (EmitStage "enhancing_task" "Enhancing your task..." :: events)
           [match result with
            | Ok response => EmitComplete (confidence response)
            | Throw e => EmitError e
            end].
Proof.
  unfold runPipeline. unfold bind at 1.
  destruct (quiet_stages_of_try request fresh) as (events & Hev & Hprog).
  destruct (stages_of_try s request fresh) as [[done | e] r1]; cbn [snd] in Hev.
  - cbn. exists events. split; [exact Hprog|]. now rewrite Hev.
  - cbn. exists events. split; [exact Hprog|]. now rewrite Hev.
Qed.

End Events.

End EventFacts.

(** ** From ingestion to retrieval *)

Module RoundTrip.
Local Open Scope nat_scope.

Lemma insert_by_index_length (c : DocChunk.IDocChunk) (l : list DocChunk.IDocChunk) :
  List.length (DocChunk.insert_by_index c l) = S (List.length l).
Proof.
  induction l as [| d l IH]; cbn [DocChunk.insert_by_index]; [reflexivity|].
  destruct (_ <=? _); cbn [List.length]; [reflexivity | now rewrite IH].
Qed.

Lemma sort_by_index_length (l : list DocChunk.IDocChunk) :
  List.length (DocChunk.sort_by_index l) = List.length l.
Proof.
  induction l as [| c l IH]; [reflexivity|].
  cbn [DocChunk.sort_by_index fold_right]. rewrite insert_by_index_length.
  fold (DocChunk.sort_by_index l). now rewrite IH.
Qed.

Lemma ingested_count `{RegExp} (env : Ingestion.Env) (url : string)
    (options : Ingestion.IngestionOptions) (w w' : Ingestion.World)
    (res : Ingestion.IngestionResult) :
  Ingestion.ingestDocument env url options w = (Ok res, w') ->
  Ingestion.r_urlHash res = Ingestion.hashUrl (Ingestion.sha256_hex env) url
  /\ 1 <= Ingestion.chunkCount res
  /\ List.length (DocChunk.find (DocChunk.hash_query (Ingestion.r_urlHash res))
                                (Ingestion.db w'))
     = Ingestion.chunkCount res.
Proof.
  intro Hrun. destruct (Ingestion.cached res) eqn:Ecached.
  - unfold Ingestion.ingestDocument in Hrun.
    set (h := Ingestion.hashUrl (Ingestion.sha256_hex env) url) in *.
    destruct (negb (Ingestion.forceRefresh options)
              && (0 <? DocChunk.countDocuments (DocChunk.hash_query h) (Ingestion.db w)))%bool
      eqn:Ehit.
    + injection Hrun as <- <-. cbn [Ingestion.r_urlHash Ingestion.chunkCount].
      apply andb_true_iff in Ehit as [_ Hpos]. apply Nat.ltb_lt in Hpos.
      repeat split. exact Hpos.
    + destruct (Ingestion.fetchContent env url) as [raw | err]; [|discriminate Hrun].
      destruct (_ || _)%bool; [discriminate Hrun|].
      destruct (Ingestion.store_chunks _ _ _ _ _ _ _ _) as [[[] | err] w2];
        [|discriminate Hrun].
      injection Hrun as <- <-. discriminate Ecached.
  - destruct (StoreFacts.fresh_ingest_found env url options w w' res Hrun Ecached)
      as (raw & rows & _ & Hlong & -> & Hfound & _ & Hidx & _).
    cbn [Ingestion.r_urlHash Ingestion.chunkCount]. rewrite Hfound.
    split; [reflexivity|]. split.
    + apply TextFacts.long_after_trim_visible in Hlong.
      pose proof (IngestionFacts.chunkContent_not_nil raw 800 1200 Hlong) as Hne.
      destruct (Ingestion.chunkContent raw 800 1200); [contradiction | cbn; lia].
    + rewrite <- (length_map DocChunk.chunkIndex), Hidx. apply length_seq.
Qed.

(** X24: ingestion and retrieval agree on the key of a document.  Once
    [ingestDocument] has returned for a URL, as a cache hit or not,
    [retrieveRelevantDocs] asked with that URL (and no document id or
    version) finds the stored chunks, as many as the ingestion reported, and
    answers from them by the cache-first strategy: the documentation text
    passed along is not chunked or embedded again. *)
Theorem ingested_document_is_retrieved `{RegExp} `{Gateway.Sqrt}
    (env : Ingestion.Env) (url : string) (options : Ingestion.IngestionOptions)
    (w w' : Ingestion.World) (res : Ingestion.IngestionResult)
    (taskEmbedding : outcome (list Q)) (createEmbedding : string -> outcome (list Q))
    (docContent : string) (o : Retrieval.Options) :
  Ingestion.ingestDocument env url options w = (Ok res, w') ->
  url <> ""%string ->
  Retrieval.docUrl o = Some url ->
  Retrieval.docId o = None ->
  Retrieval.version o = None ->
  let cachedChunks :=
    DocChunk.sort_by_index
      (DocChunk.find (DocChunk.hash_query (Ingestion.r_urlHash res)) (Ingestion.db w')) in
  List.length cachedChunks = Ingestion.chunkCount res
  /\ 1 <= List.length cachedChunks
  /\ Retrieval.retrieve_try (Ingestion.sha256_hex env) taskEmbedding createEmbedding
       (Ingestion.db w') docContent o
     = Retrieval.from_cache taskEmbedding o cachedChunks.
Proof.
  intros Hrun Hurl Hdoc Hid Hver. cbv zeta.
  destruct (ingested_count env url options w w' res Hrun) as (Hhash & Hpos & Hlen).
  rewrite sort_by_index_length, Hlen.
  split; [reflexivity|]. split; [exact Hpos|].
  unfold Retrieval.retrieve_try.
  assert (Hgiven : Retrieval.given (Retrieval.docUrl o) = true).
  { rewrite Hdoc. cbn. apply negb_true_iff. now apply String.eqb_neq. }
  assert (Hquery : Retrieval.cache_query (Ingestion.sha256_hex env) o
                   = DocChunk.hash_query (Ingestion.r_urlHash res)).
  { unfold Retrieval.cache_query, DocChunk.hash_query.
    rewrite Hid, Hver. cbn [Retrieval.given Retrieval.keep_given].
    rewrite Hdoc in *. rewrite Hgiven, Hhash. reflexivity. }
  rewrite Hgiven, Hquery. cbn [orb].
  rewrite sort_by_index_length, Hlen.
  destruct (Ingestion.chunkCount res); [lia | reflexivity].
Qed.

Definition by_url : Retrieval.Options :=
  {| Retrieval.docUrl := Some IngestionFacts.sample_url; Retrieval.docId := None;
     Retrieval.version := None; Retrieval.maxChunks := 5;
     Retrieval.similarityThreshold := 4 # 10 |}.

Lemma ingested_document_is_retrieved_witness :
  IngestionFacts.sample_url <> ""%string
  /\ @Retrieval.retrieve_try Samples.sqrt_of_squares
       (Ingestion.sha256_hex IngestionFacts.sample_env) (Ok [1%Q; 0%Q])
       (fun _ => Throw "unused"%string)
       (Ingestion.db IngestionFacts.world_after_first) ""%string by_url
     = @Retrieval.from_cache Samples.sqrt_of_squares (Ok [1%Q; 0%Q]) by_url
         (DocChunk.sort_by_index
            (DocChunk.find
               (DocChunk.hash_query (Ingestion.r_urlHash IngestionFacts.first_result))
               (Ingestion.db IngestionFacts.world_after_first))).
Proof.
  assert (Hurl : IngestionFacts.sample_url <> ""%string) by discriminate.
  split; [exact Hurl|].
  assert (Hrun : @Ingestion.ingestDocument Samples.no_match IngestionFacts.sample_env
                   IngestionFacts.sample_url {| Ingestion.forceRefresh := false |}
                   IngestionFacts.empty_world
                 = (Ok IngestionFacts.first_result, IngestionFacts.world_after_first))
    by (vm_compute; reflexivity).
  exact (proj2 (proj2 (@ingested_document_is_retrieved Samples.no_match
                         Samples.sqrt_of_squares IngestionFacts.sample_env
                         IngestionFacts.sample_url _ _ _ _ (Ok [1%Q; 0%Q])
                         (fun _ => Throw "unused"%string) ""%string by_url
                         Hrun Hurl eq_refl eq_refl eq_refl))).
Defined.

End RoundTrip.

(** ** Orchestrator: the timing of stage records *)

Module TimingFacts.
Import Orchestrator.
Local Open Scope nat_scope.

(** [m], started in a state with [P], returns in a state with [Q] or
    throws in a state with [E]. *)
Definition hoare {A : Type} (P : Run -> Prop) (m : M A) (Q : A -> Run -> Prop)
    (E : Run -> Prop) : Prop :=
  forall r, P r ->
    match m r with
    | (Ok a, r') => Q a r'
    | (Throw _, r') => E r'
    end.

Lemma hoare_bind {A B : Type} (P : Run -> Prop) (m : M A) (Q : A -> Run -> Prop)
    (k : A -> M B) (R : B -> Run -> Prop) (E : Run -> Prop) :
  hoare P m Q E -> (forall a, hoare (Q a) (k a) R E) -> hoare P (bind m k) R E.
Proof.
  intros Hm Hk r HP. unfold bind. specialize (Hm r HP).
  destruct (m r) as [[a | e] r1]; [exact (Hk a r1 Hm) | exact Hm].
Qed.

Lemma hoare_ret {A : Type} (P : Run -> Prop) (a : A) (E : Run -> Prop) :
  hoare P (ret a) (fun _ => P) E.
Proof. intros r HP. exact HP. Qed.

Lemma hoare_lift {A : Type} (P : Run -> Prop) (o : outcome A) (E : Run -> Prop) :
  (forall r, P r -> E r) -> hoare P (lift o) (fun _ => P) E.
Proof. intros Hpe r HP. cbn. destruct o; [exact HP | now apply Hpe]. Qed.

(** [P] looks at the clock readings and the stage records only, and
    survives further readings. *)
Definition stable (P : Run -> Prop) : Prop :=
  forall r r', stages r' = stages r -> readings r <= readings r' -> P r -> P r'.

Lemma hoare_emit (P : Run -> Prop) (e : Emit) (E : Run -> Prop) :
  stable P -> hoare P (emit e) (fun _ => P) E.
Proof. intros Hs r HP. cbn. apply (Hs r); [reflexivity | cbn; lia | exact HP]. Qed.

Lemma hoare_note (P : Run -> Prop) (c : Call) (E : Run -> Prop) :
  stable P -> hoare P (note c) (fun _ => P) E.
Proof. intros Hs r HP. cbn. apply (Hs r); [reflexivity | cbn; lia | exact HP]. Qed.

Lemma hoare_now (P : Run -> Prop) (s : Script) (E : Run -> Prop) :
  stable P -> hoare P (now s) (fun _ => P) E.
Proof. intros Hs r HP. cbn. apply (Hs r); [reflexivity | cbn; lia | exact HP]. Qed.

Section Timing.
Context `{RegExp} `{Gateway.Sqrt}.
Variable s : Script.

(** The records [l] were written one after the other from clock readings
    number [lo] or later, all before reading number [hi]: each record
    starts at one reading and completes at a later one. *)
Fixpoint timeline (lo : nat) (l : list StageRecord) (hi : nat) : Prop :=
  match l with
  | [] => lo <= hi
  | x :: rest =>
      exists i j,
        lo <= i /\ i < j
        /\ startedAt x = time s i
        /\ completedAt x = Some (time s j)
        /\ durationMs x = Some (time s j - time s i)%Z
        /\ timeline (S j) rest hi
  end.

Lemma timeline_weaken (l : list StageRecord) :
  forall lo hi hi', hi <= hi' -> timeline lo l hi -> timeline lo l hi'.
Proof.
  induction l as [| x l IH]; intros lo hi hi' Hle; cbn [timeline]; [lia|].
  intros (i & j & H1 & H2 & H3 & H4 & H5 & Hrest).
  exists i, j. repeat split; try assumption. now apply (IH _ hi).
Qed.

Lemma timeline_snoc (l : list StageRecord) (x : StageRecord) (i j hi : nat) :
  forall lo,
    timeline lo l i -> i < j -> j < hi ->
    startedAt x = time s i -> completedAt x = Some (time s j) ->
    durationMs x = Some (time s j - time s i)%Z ->
    timeline lo (List.app l [x]) hi.
Proof.
  induction l as [| y l IH]; intros lo Hl Hij Hj Hs Hc Hd; cbn [List.app timeline] in *.
  - exists i, j. repeat split; try assumption; try lia.
  - destruct Hl as (a & b & H1 & H2 & H3 & H4 & H5 & Hrest).
    exists a, b. repeat split; try assumption. now apply IH.
Qed.

(** All records written, no stage under way. *)
Definition settled (r : Run) : Prop := timeline 0 (stages r) (readings r).

(** The stage [st] is under way: it started at a reading taken after the
    records were written. *)
Definition under_way (st : Started) (r : Run) : Prop :=
  exists i, i < readings r /\ s_startedAt st = time s i /\ timeline 0 (stages r) i.

Lemma settled_stable : stable settled.
Proof.
  intros r r' Hs Hr Hp. unfold settled in *. rewrite Hs.
  now apply (timeline_weaken _ _ (readings r)).
Qed.

Lemma under_way_stable (st : Started) : stable (under_way st).
Proof.
  intros r r' Hs Hr (i & Hi & Ht & Hl). exists i. rewrite Hs.
  repeat split; try assumption. lia.
Qed.

Lemma under_way_settled (st : Started) (r : Run) : under_way st r -> settled r.
Proof.
  intros (i & Hi & _ & Hl). apply (timeline_weaken _ _ i); [lia | exact Hl].
Qed.

Lemma hoare_startStage (n : string) :
  hoare settled (startStage s n) (fun st => under_way st) settled.
Proof.
  intros r Hr. unfold startStage, bind, now. cbn.
  exists (readings r). repeat split; cbn [readings stages]; [lia | exact Hr].
Qed.

Lemma hoare_endStage (st : Started) :
  hoare (under_way st) (endStage s st) (fun _ => settled) settled.
Proof.
  intros r (i & Hi & Ht & Hl). unfold endStage, bind, now, settled. cbn.
  apply (timeline_snoc _ _ i (readings r)); try assumption; try lia; cbn.
  - reflexivity.
  - now rewrite Ht.
Qed.

Ltac tick :=
  eapply hoare_bind;
  [ first [ apply hoare_startStage
          | apply hoare_endStage
          | apply hoare_lift; first [ apply under_way_settled | exact (fun r Hr => Hr) ]
          | apply hoare_emit; first [ apply under_way_stable | apply settled_stable ]
          | apply hoare_note; first [ apply under_way_stable | apply settled_stable ]
          | apply hoare_now; first [ apply under_way_stable | apply settled_stable ] ]
  | intro; cbn beta ].

Lemma hoare_fix_loop (language : string) :
  forall (left attempt : nat) (code : string) (vr : Validation.ValidationResult),
    hoare settled (fix_loop s language left attempt code vr) (fun _ => settled) settled.
Proof.
  induction left as [| left IH]; intros attempt code vr.
  - apply hoare_ret.
  - cbn [fix_loop]. unfold emitStage. repeat tick.
    destruct (Validation.passed _); [apply hoare_ret | apply IH].
Qed.

Lemma hoare_repair (language code : string) (vr : Validation.ValidationResult) :
  hoare settled (repair s language code vr) (fun _ => settled) settled.
Proof. unfold repair. destruct (_ && _)%bool; [apply hoare_fix_loop | apply hoare_ret]. Qed.

Lemma hoare_stages_of_try (request : GenerateRequest) :
  hoare settled (stages_of_try s request)
        (fun done r => settled r /\ res_stages (fst done) = stages r) settled.
Proof.
  unfold stages_of_try, emitStage, stamp. repeat tick.
  eapply hoare_bind.
  { destruct (_ && _)%bool.
    - eapply hoare_bind;
        [apply hoare_note; apply under_way_stable | intro; apply hoare_ret].
    - apply hoare_ret. }
  intro rag. cbn beta. repeat tick.
  eapply hoare_bind; [apply hoare_repair | intro repaired; cbn beta].
  repeat tick.
  intros r Hr. cbn. split; [exact Hr | reflexivity].
Qed.

(** Records in chronological order, none with a negative duration. *)
Fixpoint chronological (l : list StageRecord) : Prop :=
  match l with
  | [] => True
  | x :: rest =>
      (exists completed,
          completedAt x = Some completed
          /\ (startedAt x <= completed)%Z
          /\ durationMs x = Some (completed - startedAt x)%Z
          /\ (0 <= completed - startedAt x)%Z
          /\ Forall (fun y => (completed <= startedAt y)%Z) rest)
      /\ chronological rest
  end.

Definition monotone : Prop := forall i j, i <= j -> (time s i <= time s j)%Z.

Lemma timeline_chronological (l : list StageRecord) :
  monotone ->
  forall lo hi,
    timeline lo l hi ->
    chronological l /\ Forall (fun y => (time s lo <= startedAt y)%Z) l.
Proof.
  intro Hmono. induction l as [| x l IH]; intros lo hi; cbn [timeline chronological].
  - intros _. split; [exact I | constructor].
  - intros (i & j & H1 & H2 & H3 & H4 & H5 & Hrest).
    destruct (IH _ _ Hrest) as [Hchron Hafter].
    assert (Hij : (time s i <= time s j)%Z) by (apply Hmono; lia).
    split; [split; [|exact Hchron]|].
    + exists (time s j). rewrite H3. repeat split; try assumption; try lia.
      eapply Forall_impl; [|exact Hafter]. cbn. intros y Hy.
      assert (Hj : (time s j <= time s (S j))%Z) by (apply Hmono; lia). lia.
    + constructor.
      * rewrite H3. apply Hmono. exact H1.
      * eapply Forall_impl; [|exact Hafter]. cbn. intros y Hy.
        assert (Hlo : (time s lo <= time s (S j))%Z) by (apply Hmono; lia). lia.
Qed.

(** X25: as long as the clock never goes backwards during a run, the
    stage records that [runPipeline] saves, after a successful run as after
    a failed one, are in chronological order: every record completes no
    earlier than it starts, its duration is the difference of the two and
    not negative, and every later record starts no earlier than it
    completes. *)
Theorem stage_records_chronological (request : GenerateRequest) :
  monotone -> chronological (g_stages (snd (fst (runPipeline s request)))).
Proof.
  intro Hmono. unfold runPipeline.
  assert (Hrun : hoare settled
            (bind (stages_of_try s request)
                  (fun done => bind (emit (EmitComplete (confidence (fst done))))
                                    (fun _ => ret done)))
            (fun done r => settled r /\ res_stages (fst done) = stages r) settled).
  { eapply hoare_bind; [apply hoare_stages_of_try | intro done].
    eapply hoare_bind
      with (Q := fun _ r => settled r /\ res_stages (fst done) = stages r).
    - intros r [Hr Hres]. cbn. split; [|exact Hres].
      apply (settled_stable r); [reflexivity | cbn; lia | exact Hr].
    - intro u. intros r Hr. exact Hr. }
  assert (Hfresh : settled fresh) by (cbn; lia).
  specialize (Hrun fresh Hfresh).
  destruct (bind (stages_of_try s request) _ fresh) as [[done | e] r];
    cbn [fst snd g_stages].
  - destruct Hrun as [Hr Hres]. rewrite Hres.
    exact (proj1 (timeline_chronological _ Hmono _ _ Hr)).
  - exact (proj1 (timeline_chronological _ Hmono _ _ Hrun)).
Qed.

End Timing.

Lemma stage_records_chronological_witness :
  monotone RepairFacts.stubborn
  /\ chronological
       (g_stages (snd (fst (@runPipeline Samples.no_match Samples.sqrt_of_squares
                              RepairFacts.stubborn PipelineExamples.request)))).
Proof.
  assert (Hmono : monotone RepairFacts.stubborn).
  { intros i j Hij. cbn. lia. }
  split; [exact Hmono|].
  exact (@stage_records_chronological Samples.no_match Samples.sqrt_of_squares
           RepairFacts.stubborn PipelineExamples.request Hmono).
Defined.

End TimingFacts.
(** ** Judge: totals that are filled in *)

Module TotalFacts.
Import Judge NumberFacts.

(** The mean of four whole numbers, rounded to the nearest whole number,
    halves up. *)
Definition rounded_mean (c s p d : Z) : Z := ((c + s + p + d + 2) / 4)%Z.

Lemma Math_round_mean (c s p d : Z) :
  Math_round ((inject_Z c + inject_Z s + inject_Z p + inject_Z d) / 4)
  = rounded_mean c s p d.
Proof.
  unfold Math_round, rounded_mean.
  assert (Hq : (inject_Z c + inject_Z s + inject_Z p + inject_Z d) / 4 + (1 # 2)
               == (c + s + p + d + 2) # 4).
  { rewrite <- !inject_Z_plus. generalize (c + s + p + d)%Z as n. intro n.
    unfold Qeq, Qdiv, Qmult, Qplus, Qinv, inject_Z. cbn. lia. }
  rewrite (Qfloor_comp _ _ Hq). reflexivity.
Qed.

(** X26: when an entry of the judge's [scores] has no [total] (or a
    [total] of 0, [null], [false] or the empty string) and its four
    sub-scores are whole numbers between 0 and 100, [judgeCode] fills in
    the mean of the four rounded to the nearest whole number, halves up,
    which lies between 0 and 100 too.  A [total] that is present and
    truthy is kept as the model gave it. *)
Theorem missing_total_is_rounded_mean (fields : list (string * json)) (c s p d : Z) :
  lookup "correctness" fields = Some (JNum (inject_Z c)) ->
  lookup "security" fields = Some (JNum (inject_Z s)) ->
  lookup "simplicity" fields = Some (JNum (inject_Z p)) ->
  lookup "docAdherence" fields = Some (JNum (inject_Z d)) ->
  (0 <= c <= 100)%Z -> (0 <= s <= 100)%Z -> (0 <= p <= 100)%Z -> (0 <= d <= 100)%Z ->
  (truthy (lookup "total" fields) = false ->
   with_total (JObj fields)
   = Ok {| spread := JObj fields; total := Rounded (rounded_mean c s p d) |}
   /\ (4 * rounded_mean c s p d - 2 <= c + s + p + d < 4 * rounded_mean c s p d + 2)%Z
   /\ (0 <= rounded_mean c s p d <= 100)%Z)
  /\ (forall t, lookup "total" fields = Some t -> truthy (Some t) = true ->
      with_total (JObj fields) = Ok {| spread := JObj fields; total := Given t |}).
Proof.
  intros Hc Hs Hp Hd Rc Rs Rp Rd. split.
  - intro Hfalsy. split.
    + unfold with_total. cbn [get get_opt]. rewrite Hfalsy, Hc, Hs, Hp, Hd.
      cbn [mean_total to_number]. now rewrite Math_round_mean.
    + unfold rounded_mean.
      pose proof (Z.div_mod (c + s + p + d + 2) 4 ltac:(lia)) as Hdiv.
      pose proof (Z.mod_pos_bound (c + s + p + d + 2) 4 ltac:(lia)) as Hmod.
      split; lia.
  - intros t Ht Htruthy. unfold with_total. cbn [get]. rewrite Ht, Htruthy.
    destruct t; cbn in Htruthy |- *; try discriminate; try reflexivity;
      rewrite Htruthy; reflexivity.
Qed.

Definition scored : list (string * json) :=
  [("correctness", JNum 90); ("security", JNum 80); ("simplicity", JNum 70);
   ("docAdherence", JNum 86)].

Lemma missing_total_is_rounded_mean_witness :
  truthy (lookup "total" scored) = false
  /\ with_total (JObj scored) = Ok {| spread := JObj scored; total := Rounded 82 |}.
Proof.
  split; [reflexivity|].
  exact (proj1 (proj1 (missing_total_is_rounded_mean scored 90 80 70 86
                         eq_refl eq_refl eq_refl eq_refl
                         ltac:(lia) ltac:(lia) ltac:(lia) ltac:(lia)) eq_refl)).
Defined.

End TotalFacts.

(** * Confidence scoring in binary64 arithmetic *)

Module Confidence64Facts.
Import Floats Binary64 Confidence64.
Import Confidence(verified, partial, unverified).
Local Open Scope float_scope.
Set Warnings "-inexact-float".

(** [Math.round] on sample values: ties go up, a result of zero keeps the
    sign, the largest double below one half goes to zero, and values that
    are not finite come back unchanged. *)
Example Math_round_samples :
  Math_round 0.5 = 1 /\ Math_round 1.5 = 2 /\ Math_round 2.5 = 3
  /\ Math_round (-1.5) = -1 /\ Math_round (-2.5) = -2
  /\ Math_round (-0.5) = -0 /\ Math_round (-0.2) = -0
  /\ Math_round 0.49999999999999994 = 0
  /\ Math_round 80 = 80 /\ Math_round 79.6 = 80
  /\ Math_round 4503599627370495.5 = 4503599627370496
  /\ Math_round infinity = infinity
  /\ Math_round neg_infinity = neg_infinity
  /\ PrimFloat.is_nan (Math_round nan) = true.
Proof. vm_compute. repeat split. Qed.

(** The worked example of the specification: four scores of 80 (a
    similarity of 0.8) give 80 and [verified]. *)
Example confidence_80_binary64 :
  confidenceScore (calculateConfidence 80 80 80 0.8) = 80
  /\ verificationStatus (calculateConfidence 80 80 80 0.8) = verified.
Proof. vm_compute. split; reflexivity. Qed.

(** The exact weighted sum of 15, 97, 72 and 0 is 49.5; evaluated in
    binary64 it is 49.499999999999993, so the score is 49 and the status
    [unverified]. *)
Example confidence_below_the_half :
  15 * 0.4 + 97 * 0.3 + 72 * 0.2 + 0 * 0.1 = 49.499999999999993
  /\ confidenceScore (calculateConfidence 15 97 72 0) = 49
  /\ verificationStatus (calculateConfidence 15 97 72 0) = unverified.
Proof. vm_compute. repeat split. Qed.

Lemma eqb_of_eq (x y : float) : x = y -> PrimFloat.eqb x y = PrimFloat.eqb y y.
Proof. intros ->. reflexivity. Qed.

(** C1, as stated, fails: the document similarity is rounded to a whole
    percentage before it is weighted, so the score is not the rounding of
    the plain weighted sum.  At judge 0, runtime 1.6, static 0 and
    similarity 0.004 the plain sum is 0.52, which rounds to 1, while
    [calculateConfidence] rounds 0.4 to 0 first and returns round(0.48) = 0. *)
Lemma plain_sum_refuted_binary64 :
  ~ (forall j r s d : float,
        confidenceScore (calculateConfidence j r s d) = spec_confidence j r s d).
Proof.
  intro Hall. specialize (Hall 0 1.6 0 0.004).
  apply eqb_of_eq in Hall. vm_compute in Hall. discriminate.
Qed.

(** C1, amended: for every quadruple of doubles, with [n] the document
    similarity times 100 rounded by [Math.round], [confidenceScore] is
    [Math.round] of judge*0.4 + runtime*0.3 + static*0.2 + n*0.1, every
    product and sum rounded to binary64 and the sum taken from left to
    right; [n] is what the breakdown reports as the document similarity,
    and the score is the specification's formula whenever similarity*100
    is already whole.  The status is [verified] iff score >= 75, runtime
    >= 70 and static >= 60; otherwise [partial] iff score >= 50; otherwise
    [unverified] (a comparison with NaN being false). *)
Theorem confidence_formula_binary64 (j r s d : float) :
  let result := calculateConfidence j r s d in
  let n := Math_round (d * 100) in
  let c := confidenceScore result in
  c = Math_round (j * 0.4 + r * 0.3 + s * 0.2 + n * 0.1)
  /\ docSimilarity (breakdown result) = n
  /\ judgeScore (breakdown result) = j
  /\ runtimeScore (breakdown result) = r
  /\ staticScore (breakdown result) = s
  /\ (n = d * 100 -> c = spec_confidence j r s d)
  /\ (verificationStatus result = verified <->
        geq c 75 = true /\ geq r 70 = true /\ geq s 60 = true)
  /\ (verificationStatus result = partial <->
        ~ (geq c 75 = true /\ geq r 70 = true /\ geq s 60 = true)
        /\ geq c 50 = true)
  /\ (verificationStatus result = unverified <->
        ~ (geq c 75 = true /\ geq r 70 = true /\ geq s 60 = true)
        /\ geq c 50 = false).
Proof.
  cbv zeta.
  set (n := Math_round (d * 100)).
  set (c := Math_round (j * 0.4 + r * 0.3 + s * 0.2 + n * 0.1)).
  assert (Hc : confidenceScore (calculateConfidence j r s d) = c) by reflexivity.
  assert (Hs : verificationStatus (calculateConfidence j r s d) =
               if geq c 75 && geq r 70 && geq s 60 then verified
               else if geq c 50 then partial else unverified) by reflexivity.
  rewrite Hs, Hc. clear Hs Hc.
  split; [reflexivity|].
  split; [reflexivity|].
  split; [reflexivity|].
  split; [reflexivity|].
  split; [reflexivity|].
  split.
  { intro Hn. unfold c, spec_confidence. rewrite Hn. reflexivity. }
  destruct (geq c 75), (geq r 70), (geq s 60), (geq c 50); cbn [andb];
    intuition congruence.
Qed.

End Confidence64Facts.

(** ** Orchestrator: stage records and the clock *)

Module StageRecordFacts.
Import Orchestrator.
Local Open Scope nat_scope.

Section Records.
Context `{RegExp} `{Gateway.Sqrt}.
Variable s : Script.

Definition completed (x : StageRecord) : Prop := status x = "completed".

Lemma timed_completed (l : list StageRecord) :
  Forall StageFacts.timed l -> Forall completed l.
Proof. apply Forall_impl. intros x Hx. exact (proj1 Hx). Qed.


End Records.

End StageRecordFacts.
